(** * FLUJO flow engine: a shallow embedding of the node / flow core

    The development follows the TypeScript sources:
    - [temp_pocket.ts]: [BaseNode], [Flow] and the orchestration loop;
    - [ProcessNode] and [FinishNode], the two concrete node kinds whose
      sources are available;
    - [FlowConverter] (graph builder) and [FlowExecutor] (run facade).

    JavaScript objects have identity and are mutated in place.  They live in
    an explicit heap; a node, its parameter objects and its successor [Map]
    are all heap cells, so that aliasing between a template and its clones
    is visible in the model.  The shared state is owned by one run and is
    threaded through the calls.

    Also modelled: [RetryNode] and [BatchFlow] of [temp_pocket.ts],
    [processToolCalls] of [ProcessNodeUtility], and the rate limiter of the
    chat completions route. *)

From Stdlib Require Import ZArith Lia Bool.
From stdpp Require Import base option list strings pretty.

Local Open Scope string_scope.
Local Open Scope list_scope.

(** ** JavaScript values *)

(** Heap locations. *)
Abbreviation loc := nat (only parsing).

Inductive value :=
  | VUndefined
  | VNull
  | VBool (b : bool)
  | VNum (n : Z)
  | VStr (s : string)
  | VRef (l : loc).

#[global] Instance value_eq_dec : EqDecision value.
Proof. solve_decision. Defined.

(** [if (v)], [v || w], [v && w]. *)
Definition truthy (v : value) : bool :=
  match v with
  | VUndefined | VNull => false
  | VBool b => b
  | VNum n => negb (n =? 0)%Z
  | VStr s => negb (String.eqb s "")
  | VRef _ => true
  end.

Definition js_or (v w : value) : value := if truthy v then v else w.
Definition js_and (v w : value) : value := if truthy v then w else v.

(** [v === w]; references compare by identity. *)
Definition strict_eq (v w : value) : bool := bool_decide (v = w).

(** Conversion of a value used as a property key, [o[v]]. *)
Definition to_key (v : value) : string :=
  match v with
  | VUndefined => "undefined"
  | VNull => "null"
  | VBool true => "true"
  | VBool false => "false"
  | VNum n => pretty n
  | VStr s => s
  | VRef _ => "[object Object]"
  end.

(** ** Strings: [String.prototype.includes] and [endsWith] *)

Fixpoint startsWith (s p : string) : bool :=
  match p, s with
  | EmptyString, _ => true
  | String a p', String b s' => if Ascii.eqb a b then startsWith s' p' else false
  | String _ _, EmptyString => false
  end.

Fixpoint includes (s sub : string) : bool :=
  startsWith s sub ||
  match s with
  | EmptyString => false
  | String _ s' => includes s' sub
  end.

Fixpoint endsWith (s suf : string) : bool :=
  String.eqb s suf ||
  match s with
  | EmptyString => false
  | String _ s' => endsWith s' suf
  end.

(** ** Errors

    A thrown JavaScript value.  [has_isModelError] and
    [has_isCriticalToolError] record the presence of the marker properties
    tested with the [in] operator; [err_details] is the [details] object
    attached to a model error. *)

Record JsError := mkError {
  err_name : string;
  err_message : string;
  err_stack : string;
  typeof_object : bool;
  instanceof_Error : bool;
  has_isModelError : bool;
  has_isCriticalToolError : bool;
  err_details : list (string * value)
}.

(** [new Error(msg)] *)
Definition new_Error (msg : string) : JsError :=
  mkError "Error" msg "" true true false false [].

Definition TypeError (msg : string) : JsError :=
  mkError "TypeError" msg "" true true false false [].

Inductive Result (A : Type) :=
  | Ok (a : A)
  | Throw (e : JsError).
Arguments Ok {A} a.
Arguments Throw {A} e.

(** ** Object literals

    Properties of an object in definition order; defining a key that is
    already present overwrites its value in place, as a later entry or a
    spread of an object literal does. *)

Definition obj := list (string * value).

Fixpoint obj_get (k : string) (o : obj) : value :=
  match o with
  | [] => VUndefined
  | (k', v) :: r => if String.eqb k k' then v else obj_get k r
  end.

Fixpoint obj_has (k : string) (o : obj) : bool :=
  match o with
  | [] => false
  | (k', _) :: r => String.eqb k k' || obj_has k r
  end.

Fixpoint obj_set (k : string) (v : value) (o : obj) : obj :=
  match o with
  | [] => [(k, v)]
  | (k', v') :: r => if String.eqb k k' then (k, v) :: r else (k', v') :: obj_set k v r
  end.

(** [{ ...o, ...src }] *)
Definition obj_spread (src o : obj) : obj :=
  fold_left (fun acc kv => obj_set (fst kv) (snd kv) acc) src o.

(** ** The heap

    Three kinds of cells: plain objects and arrays (parameter data),
    [Map<string, BaseNode>] objects, and node instances. *)

Inductive pobj :=
  | PObject (props : obj)
  | PArray (elems : list value).

Inductive NodeKind :=
  | StartNode
  | ProcessNode
  | MCPNode
  | FinishNode
  | Flow (start : loc).

Record BaseNode := mkNode {
  kind : NodeKind;
  flow_params : value;
  node_params : value;
  successors : loc
}.

Record heap := mkHeap {
  objs : list pobj;
  maps : list (list (string * loc));
  nodes : list BaseNode
}.

Definition empty_heap : heap := mkHeap [] [] [].

Definition set_objs (h : heap) (o : list pobj) : heap := mkHeap o (maps h) (nodes h).
Definition set_maps (h : heap) (m : list (list (string * loc))) : heap := mkHeap (objs h) m (nodes h).
Definition set_nodes (h : heap) (n : list BaseNode) : heap := mkHeap (objs h) (maps h) n.

Definition alloc_obj (h : heap) (p : pobj) : heap * loc :=
  (set_objs h (objs h ++ [p]), length (objs h)).
Definition alloc_map (h : heap) (es : list (string * loc)) : heap * loc :=
  (set_maps h (maps h ++ [es]), length (maps h)).
Definition alloc_node (h : heap) (n : BaseNode) : heap * loc :=
  (set_nodes h (nodes h ++ [n]), length (nodes h)).

(** [v?.k]: [undefined] unless [v] refers to a plain object owning [k].
    Only named properties of plain objects are modelled. *)
Definition opt_prop (h : heap) (v : value) (k : string) : value :=
  match v with
  | VRef l =>
    match objs h !! l with
    | Some (PObject ps) => obj_get k ps
    | _ => VUndefined
    end
  | _ => VUndefined
  end.

(** [v.k]: a [TypeError] when [v] is [undefined] or [null]. *)
Definition prop (h : heap) (v : value) (k : string) : Result value :=
  match v with
  | VUndefined => Throw (TypeError ("Cannot read properties of undefined (reading '" +:+ k +:+ "')"))
  | VNull => Throw (TypeError ("Cannot read properties of null (reading '" +:+ k +:+ "')"))
  | _ => Ok (opt_prop h v k)
  end.

(** Elements of an array value; [[]] for anything else ([v || []]). *)
Definition elems_of (h : heap) (v : value) : list value :=
  match v with
  | VRef l =>
    match objs h !! l with
    | Some (PArray es) => es
    | _ => []
    end
  | _ => []
  end.

(** ** JavaScript [Map] with string keys (insertion ordered) *)

Fixpoint map_get {A} (k : string) (es : list (string * A)) : option A :=
  match es with
  | [] => None
  | (k', x) :: r => if String.eqb k k' then Some x else map_get k r
  end.

Definition map_has {A} (k : string) (es : list (string * A)) : bool :=
  match map_get k es with Some _ => true | None => false end.

Fixpoint map_set {A} (k : string) (x : A) (es : list (string * A)) : list (string * A) :=
  match es with
  | [] => [(k, x)]
  | (k', y) :: r => if String.eqb k k' then (k, x) :: r else (k', y) :: map_set k x r
  end.

Definition map_keys {A} (es : list (string * A)) : list string := map fst es.
Definition map_values {A} (es : list (string * A)) : list A := map snd es.

(** ** lodash [cloneDeep]

    [baseClone] copies the object graph below a value.  The memo plays the
    role of lodash's stack: an object met a second time (sharing, cycles) is
    mapped to the copy already made.  The copy is registered before its
    children are visited and filled in afterwards. *)

Definition memo := list (loc * loc).

Fixpoint memo_get (l : loc) (m : memo) : option loc :=
  match m with
  | [] => None
  | (a, b) :: r => if Nat.eqb l a then Some b else memo_get l r
  end.

Definition children (p : pobj) : list value :=
  match p with
  | PObject ps => map snd ps
  | PArray es => es
  end.

Definition rebuild (p : pobj) (vs : list value) : pobj :=
  match p with
  | PObject ps => PObject (combine (map fst ps) vs)
  | PArray _ => PArray vs
  end.

Definition blank (p : pobj) : pobj :=
  match p with
  | PObject _ => PObject []
  | PArray _ => PArray []
  end.

Definition cloner := list pobj -> memo -> value -> option (list pobj * memo * value).

Fixpoint cloneList (rec : cloner) (vs : list value) (o : list pobj) (m : memo)
  : option (list pobj * memo * list value) :=
  match vs with
  | [] => Some (o, m, [])
  | v :: r =>
    match rec o m v with
    | None => None
    | Some (o1, m1, v') =>
      match cloneList rec r o1 m1 with
      | None => None
      | Some (o2, m2, r') => Some (o2, m2, v' :: r')
      end
    end
  end.

Fixpoint baseClone (fuel : nat) (o : list pobj) (m : memo) (v : value) {struct fuel}
  : option (list pobj * memo * value) :=
  match fuel with
  | 0 => None
  | S f =>
    match v with
    | VRef l =>
      match memo_get l m with
      | Some l' => Some (o, m, VRef l')
      | None =>
        match o !! l with
        | None => Some (o, m, v)
        | Some p =>
          let l' := length o in
          match cloneList (baseClone f) (children p) (o ++ [blank p]) ((l, l') :: m) with
          | None => None
          | Some (o2, m2, vs) => Some (<[l' := rebuild p vs]> o2, m2, VRef l')
          end
        end
      end
    | _ => Some (o, m, v)
    end
  end.

(** Every object is copied at most once, so one unit of fuel per object
    (and one for the root) is enough; see [baseClone_total]. *)
Definition cloneDeep (o : list pobj) (v : value) : list pobj * value :=
  match baseClone (S (length o)) o [] v with
  | Some (o', _, v') => (o', v')
  | None => (o, v)
  end.

(** ** [BaseNode] *)

Definition DEFAULT_ACTION : string := "default".

(** [new K()]: the [BaseNode] constructor allocates two empty parameter
    objects and an empty successor map. *)
Definition new_node (k : NodeKind) (h : heap) : heap * loc :=
  let '(h1, fp) := alloc_obj h (PObject []) in
  let '(h2, np) := alloc_obj h1 (PObject []) in
  let '(h3, sm) := alloc_map h2 [] in
  alloc_node h3 (mkNode k (VRef fp) (VRef np) sm).

(** [_clone()]: every concrete class returns a fresh instance of itself;
    [Flow._clone] passes its start node along, uncloned. *)
Definition _clone (h : heap) (n : BaseNode) : heap * loc := new_node (kind n) h.

Definition update_node (h : heap) (l : loc) (f : BaseNode -> BaseNode) : heap :=
  match nodes h !! l with
  | Some n => set_nodes h (<[l := f n]> (nodes h))
  | None => h
  end.

Definition with_flow_params (v : value) (n : BaseNode) : BaseNode :=
  mkNode (kind n) v (node_params n) (successors n).
Definition with_node_params (v : value) (n : BaseNode) : BaseNode :=
  mkNode (kind n) (flow_params n) v (successors n).
Definition with_successors (m : loc) (n : BaseNode) : BaseNode :=
  mkNode (kind n) (flow_params n) (node_params n) m.

(** [setParams(params, node_params?)] *)
Definition setParams (h : heap) (this : loc) (params node_params' : value) : heap :=
  let h1 := update_node h this (with_flow_params params) in
  if truthy node_params' then update_node h1 this (with_node_params node_params') else h1.

(** [clone()].  [None] only when [this] is not a node of the heap with a
    successor map. *)
Definition clone (h : heap) (this : loc) : option (heap * loc) :=
  n ← nodes h !! this;
  es ← maps h !! successors n;
  let '(h1, new) := _clone h n in
  let '(o2, fp) := cloneDeep (objs h1) (flow_params n) in
  let h2 := update_node (set_objs h1 o2) new (with_flow_params fp) in
  let '(o3, np) := cloneDeep (objs h2) (node_params n) in
  let h3 := update_node (set_objs h2 o3) new (with_node_params np) in
  let '(h4, sm) := alloc_map h3 es in
  Some (update_node h4 new (with_successors sm), new).

(** [addSuccessor(newSuccessor, action)]: the heap it leaves, and whether
    it returned or threw. *)
Definition addSuccessor (h : heap) (this newSuccessor : loc) (action : string)
  : option (heap * Result unit) :=
  n ← nodes h !! this;
  es ← maps h !! successors n;
  if map_has action es
  then Some (h, Throw (new_Error ("Action " +:+ action +:+ " already exists")))
  else Some (set_maps h (<[successors n := map_set action newSuccessor es]> (maps h)), Ok tt).

(** [getSuccessor(name)]: [Some None] is [undefined]. *)
Definition getSuccessor (h : heap) (this : loc) (name : string) : option (heap * option loc) :=
  n ← nodes h !! this;
  es ← maps h !! successors n;
  match map_get name es with
  | None => Some (h, None)
  | Some target =>
    '(h', c) ← clone h target;
    Some (h', Some c)
  end.

(** ** Shared state *)

(** Message content: absent ([null] / [undefined]), a string, or an array
    of content parts. *)
Inductive Content :=
  | CNone
  | CText (s : string)
  | CParts (parts : list string).

Record Message := mkMsg {
  role : string;
  content : Content
}.

Definition content_truthy (c : Content) : bool :=
  match c with
  | CNone => false
  | CText s => negb (String.eqb s "")
  | CParts _ => true
  end.

Record ErrorDetails := mkErrorDetails {
  ed_message : string;
  ed_name : option string;
  ed_stack : option string
}.

Inductive LastResponse :=
  | LRText (s : string)
  | LRFailure (error : option string) (errorDetails : option ErrorDetails)
  | LRContent (c : Content) (r : string).

Definition lastResponse_truthy (r : option LastResponse) : bool :=
  match r with
  | None => false
  | Some (LRText s) => negb (String.eqb s "")
  | Some _ => true
  end.

Record ToolDefinition := mkTool {
  tool_name : string;
  tool_description : string
}.

Record TrackerEntry := mkEntry {
  te_nodeType : string;
  te_nodeId : value;
  te_nodeName : value;
  te_modelDisplayName : option string;
  te_modelTechnicalName : option value;
  te_allowedTools : value;
  te_timestamp : string
}.

(** Modelled from the spec: the declaration of [SharedState] (in [types.ts])
    is missing.  The fields are those the sources read and write; the
    execution tracker [trackingInfo.nodeExecutionTracker] is the ordered
    list of the spec, so that the [Array.isArray] guards of the node classes
    hold.  [flowName], [startTime] and [topTracker] are the fields the run
    facade adds ([topTracker] is its top-level [nodeExecutionTracker]). *)
Record SharedState := mkState {
  messages : list Message;
  flowId : string;
  lastResponse : option LastResponse;
  nodeExecutionTracker : list TrackerEntry;
  currentNodeId : value;
  mcpContext_availableTools : option (list ToolDefinition);
  flowName : string;
  startTime : Z;
  topTracker : list TrackerEntry
}.

Definition set_messages (st : SharedState) (ms : list Message) : SharedState :=
  mkState ms (flowId st) (lastResponse st) (nodeExecutionTracker st) (currentNodeId st)
    (mcpContext_availableTools st) (flowName st) (startTime st) (topTracker st).
Definition set_lastResponse (st : SharedState) (r : LastResponse) : SharedState :=
  mkState (messages st) (flowId st) (Some r) (nodeExecutionTracker st) (currentNodeId st)
    (mcpContext_availableTools st) (flowName st) (startTime st) (topTracker st).
Definition push_tracker (st : SharedState) (e : TrackerEntry) : SharedState :=
  mkState (messages st) (flowId st) (lastResponse st) (nodeExecutionTracker st ++ [e])
    (currentNodeId st) (mcpContext_availableTools st) (flowName st) (startTime st) (topTracker st).
Definition set_currentNodeId (st : SharedState) (v : value) : SharedState :=
  mkState (messages st) (flowId st) (lastResponse st) (nodeExecutionTracker st) v
    (mcpContext_availableTools st) (flowName st) (startTime st) (topTracker st).

Definition Array_isArray (t : list TrackerEntry) : bool := true.

(** ** Collaborators *)

Record ProviderError := mkProviderError {
  pe_message : string;
  pe_type : string;
  pe_code : value;
  pe_modelId : value;
  pe_details : obj
}.

Record ToolCall := mkToolCall {
  tc_name : string;
  tc_args : string
}.

Record ModelValue := mkModelValue {
  mv_content : option string;
  mv_messages : option (list Message);
  mv_fullResponse : string;
  mv_toolCalls : option (list ToolCall)
}.

Record ModelCall := mkModelCall {
  mc_modelId : value;
  mc_prompt : string;
  mc_messages : list Message;
  mc_tools : option (list string);
  mc_iteration : nat;
  mc_maxIterations : nat;
  mc_nodeName : value
}.

(** [await ModelHandler.callModel(..)] either rejects or resolves to a
    success / failure result. *)
Inductive CallOutcome :=
  | CallRejects (e : JsError)
  | CallResolves (r : ProviderError + ModelValue).

(** The interface of a node class: the three abstract methods of
    [BaseNode].  [prep] and [post] receive the shared state, [execCore] does
    not. *)
Record NodeClass := mkClass {
  PrepT : Type;
  ExecT : Type;
  c_prep : heap -> BaseNode -> SharedState -> value -> Result PrepT * SharedState;
  c_execCore : heap -> BaseNode -> PrepT -> value -> Result ExecT;
  c_post : heap -> BaseNode -> PrepT -> ExecT -> SharedState -> value -> Result string * SharedState
}.

Record FlowNode := mkFlowNode {
  fn_id : string;
  fn_type : string;
  fn_label : value;
  fn_properties : value
}.

Record Edge := mkEdge {
  e_id : string;
  e_source : string;
  e_target : string
}.

Record ReactFlow := mkReactFlow {
  rf_name : string;
  rf_nodes : list FlowNode;
  rf_edges : list Edge
}.

(** What the sources import from modules that are not available: the
    reserved action tokens and the tracker feature flag (constants of
    [types.ts] and [features.ts]), the clock, the prompt renderer, the tool
    and model handlers, the flow storage, and the classes [StartNode] and
    [MCPNode]. *)
Class Env := mkEnv {
  STAY_ON_NODE_ACTION : string;
  FINAL_RESPONSE_ACTION : string;
  ENABLE_EXECUTION_TRACKER : bool;
  Date_toISOString : string;
  Date_now : Z;
  renderPrompt : string -> value -> value -> value -> string;
  processMCPNodes : heap -> list value -> string + list ToolDefinition;
  prepareTools : list ToolDefinition -> string + list string;
  callModel : ModelCall -> CallOutcome;
  loadFlows : list ReactFlow;
  StartNode_class : NodeClass;
  MCPNode_class : NodeClass
}.

Section Model.
Context `{env : Env}.

(** ** [BaseNode.run]

    [execWrapper] of [BaseNode] only forwards to [execCore].  The run
    result keeps the action; the prep and exec results it also carries are
    not used by the orchestrator. *)

Definition execWrapper {A} (r : Result A) : Result A := r.

Definition BaseNode_run (c : NodeClass) (h : heap) (this : BaseNode) (sharedState : SharedState)
  : Result string * SharedState :=
  match c_prep c h this sharedState (node_params this) with
  | (Throw e, st1) => (Throw e, st1)
  | (Ok prepResult, st1) =>
    match execWrapper (c_execCore c h this prepResult (node_params this)) with
    | Throw e => (Throw e, st1)
    | Ok execResult => c_post c h this prepResult execResult st1 (node_params this)
    end
  end.

(** Keys of [this.successors], in insertion order. *)
Definition successor_keys (h : heap) (this : BaseNode) : list string :=
  match maps h !! successors this with
  | Some es => map_keys es
  | None => []
  end.

(** ** [ProcessNode] *)

Record ProcessNodePrepResult := mkProcessPrep {
  pr_nodeId : value;
  pr_nodeType : string;
  pr_currentPrompt : string;
  pr_boundModel : value;
  pr_availableTools : list ToolDefinition;
  pr_messages : list Message;
  pr_modelDisplayName : option string
}.

Record ProcessNodeExecResult := mkProcessExec {
  er_success : bool;
  er_content : option string;
  er_messages : option (list Message);
  er_fullResponse : option string;
  er_toolCalls : option (list ToolCall);
  er_error : option string;
  er_errorDetails : option ErrorDetails
}.

Definition is_system (msg : Message) : bool := String.eqb (role msg) "system".

Definition ProcessNode_prep (h : heap) (sharedState : SharedState) (node_params : value)
  : Result ProcessNodePrepResult :=
  let nodeId := opt_prop h node_params "id" in
  let flowId := flowId sharedState in
  let properties := opt_prop h node_params "properties" in
  let boundModel := opt_prop h properties "boundModel" in
  let excludeModelPrompt := js_or (opt_prop h properties "excludeModelPrompt") (VBool false) in
  let excludeStartNodePrompt := js_or (opt_prop h properties "excludeStartNodePrompt") (VBool false) in
  if negb (truthy nodeId) || String.eqb flowId ""
  then Throw (new_Error "Process node requires node ID and flow ID")
  else if negb (truthy boundModel)
  then Throw (new_Error "Process node requires a bound model")
  else
    let completePrompt := renderPrompt flowId nodeId excludeModelPrompt excludeStartNodePrompt in
    let tools : Result (list ToolDefinition) :=
      match mcpContext_availableTools sharedState with
      | Some (t :: ts) => Ok (t :: ts)
      | _ =>
        match elems_of h (opt_prop h properties "mcpNodes") with
        | [] => Ok []
        | mcpNodes =>
          match processMCPNodes h mcpNodes with
          | inl msg => Throw (new_Error ("Failed to process MCP nodes: " +:+ msg))
          | inr availableTools => Ok availableTools
          end
        end
      end in
    match tools with
    | Throw e => Throw e
    | Ok availableTools =>
      let nonSystemMessages := List.filter (fun msg => negb (is_system msg)) (messages sharedState) in
      let systemMessage := mkMsg "system" (CText completePrompt) in
      Ok (mkProcessPrep nodeId "process" completePrompt boundModel availableTools
            (systemMessage :: nonSystemMessages) None)
    end.

(** The [details] object attached to the error thrown for a failed model
    call: [{ message, type, code, ...(modelId), param, status, ...details }]. *)
Definition model_error_details (e : ProviderError) : obj :=
  let d0 := [("message", VStr (pe_message e)); ("type", VStr (pe_type e)); ("code", pe_code e)] in
  let d1 := if String.eqb (pe_type e) "model" then obj_set "modelId" (pe_modelId e) d0 else d0 in
  let param := match obj_get "param" (pe_details e) with VStr s => VStr s | _ => VUndefined end in
  let status := match obj_get "status" (pe_details e) with VNum n => VNum n | _ => VUndefined end in
  obj_spread (pe_details e) (obj_set "status" status (obj_set "param" param d1)).

Definition model_error (e : ProviderError) : JsError :=
  mkError "Error" ("Model execution failed: " +:+ pe_message e) "" true true true false
    (model_error_details e).

Definition error_result (error : JsError) : ProcessNodeExecResult :=
  mkProcessExec false None None None None
    (Some (err_message error))
    (Some (if instanceof_Error error
           then mkErrorDetails (err_message error) (Some (err_name error)) (Some (err_stack error))
           else mkErrorDetails (err_message error) None None)).

(** The tool descriptors handed to the model, if any tool is available. *)
Definition prepare_tools (prepResult : ProcessNodePrepResult) : Result (option (list string)) :=
  match pr_availableTools prepResult with
  | [] => Ok None
  | availableTools =>
    match prepareTools availableTools with
    | inl msg => Throw (new_Error ("Failed to prepare tools: " +:+ msg))
    | inr tools => Ok (Some tools)
    end
  end.

(** The argument of [ModelHandler.callModel]. *)
Definition model_call (h : heap) (prepResult : ProcessNodePrepResult) (node_params : value)
    (tools : option (list string)) : ModelCall :=
  let nodeName :=
    js_or (opt_prop h node_params "label")
      (js_or (opt_prop h (opt_prop h node_params "properties") "name") (VStr "Process Node")) in
  mkModelCall (pr_boundModel prepResult) (pr_currentPrompt prepResult)
    (pr_messages prepResult) tools 1 30 nodeName.

Definition ProcessNode_execCore (h : heap) (prepResult : ProcessNodePrepResult) (node_params : value)
  : Result ProcessNodeExecResult :=
  let attempt : Result ProcessNodeExecResult :=
    match prepare_tools prepResult with
    | Throw e => Throw e
    | Ok tools =>
      match callModel (model_call h prepResult node_params tools) with
      | CallRejects e => Throw e
      | CallResolves (inl error) => Throw (model_error error)
      | CallResolves (inr result) =>
        Ok (mkProcessExec true
              (Some (match mv_content result with Some c => c | None => "" end))
              (mv_messages result) (Some (mv_fullResponse result)) (mv_toolCalls result)
              None None)
      end
    end in
  match attempt with
  | Ok r => Ok r
  | Throw error =>
    if typeof_object error && (has_isCriticalToolError error || has_isModelError error)
    then Throw error
    else Ok (error_result error)
  end.

(** [Array.prototype.join] on an array of strings; [undefined] when the
    receiver is absent ([?.]). *)
Definition join_display (v : value) : string :=
  match v with
  | VUndefined | VNull => ""
  | _ => to_key v
  end.

Definition opt_join (h : heap) (v : value) (sep : string) : value :=
  match v with
  | VRef l =>
    match objs h !! l with
    | Some (PArray es) => VStr (String.concat sep (map join_display es))
    | _ => VUndefined
    end
  | _ => VUndefined
  end.

Definition is_mcp_edge (action : string) : bool :=
  includes action "-mcpEdge" || endsWith action "mcpEdge" || includes action "-mcp".

Definition ProcessNode_post (h : heap) (this : BaseNode) (prepResult : ProcessNodePrepResult)
    (execResult : ProcessNodeExecResult) (sharedState : SharedState) (node_params : value)
  : string * SharedState :=
  let st1 :=
    if negb (er_success execResult)
    then set_lastResponse sharedState (LRFailure (er_error execResult) (er_errorDetails execResult))
    else match er_content execResult with
         | Some c => if negb (String.eqb c "") then set_lastResponse sharedState (LRText c) else sharedState
         | None => sharedState
         end in
  let st2 :=
    match er_messages execResult with
    | Some (m :: ms) => set_messages st1 (m :: ms)
    | _ => st1
    end in
  let st3 :=
    if Array_isArray (nodeExecutionTracker st2)
    then push_tracker st2
           (mkEntry "ProcessNode"
              (js_or (opt_prop h node_params "id") (VStr "unknown"))
              (js_or (opt_prop h (opt_prop h node_params "properties") "name") (VStr "Process Node"))
              (Some (match pr_modelDisplayName prepResult with
                     | Some d => if String.eqb d "" then "Unknown Model" else d
                     | None => "Unknown Model"
                     end))
              (Some (js_or (pr_boundModel prepResult) (VStr "unknown")))
              (opt_join h (opt_prop h (opt_prop h node_params "properties") "allowedTools") ", ")
              Date_toISOString)
    else st2 in
  let allActions := successor_keys h this in
  let actions :=
    List.filter (fun action => negb (includes action "-mcpEdge") && negb (endsWith action "mcpEdge")
                               && negb (includes action "-mcp")) allActions in
  match actions with
  | action :: _ => (action, st3)
  | [] => ("default", st3)
  end.

Definition ProcessNode_class : NodeClass :=
  mkClass ProcessNodePrepResult ProcessNodeExecResult
    (fun h _ st np => (ProcessNode_prep h st np, st))
    (fun h _ pr np => ProcessNode_execCore h pr np)
    (fun h this pr er st np => let '(a, st') := ProcessNode_post h this pr er st np in (Ok a, st')).

(** ** [FinishNode] *)

Record FinishNodePrepResult := mkFinishPrep {
  fp_nodeId : value;
  fp_nodeType : string;
  fp_messages : list Message
}.

Record FinishNodeExecResult := mkFinishExec {
  fe_success : bool
}.

Definition FinishNode_prep (h : heap) (sharedState : SharedState) (node_params : value)
  : FinishNodePrepResult :=
  mkFinishPrep (js_or (opt_prop h node_params "id") (VStr "")) "finish" (messages sharedState).

Definition FinishNode_execCore (prepResult : FinishNodePrepResult) (node_params : value)
  : FinishNodeExecResult :=
  mkFinishExec true.

Definition FinishNode_post (h : heap) (this : BaseNode) (prepResult : FinishNodePrepResult)
    (execResult : FinishNodeExecResult) (sharedState : SharedState) (node_params : value)
  : string * SharedState :=
  let st1 :=
    if ENABLE_EXECUTION_TRACKER && Array_isArray (nodeExecutionTracker sharedState)
    then push_tracker sharedState
           (mkEntry "FinishNode"
              (js_or (opt_prop h node_params "id") (VStr "unknown"))
              (js_or (opt_prop h (opt_prop h node_params "properties") "name") (VStr "Finish Node"))
              None None VUndefined Date_toISOString)
    else sharedState in
  let st2 :=
    match last (fp_messages prepResult) with
    | Some lastMessage =>
      if String.eqb (role lastMessage) "assistant" && content_truthy (content lastMessage)
      then match content lastMessage with
           | CText s => set_lastResponse st1 (LRText s)
           | c => set_lastResponse st1 (LRContent c (role lastMessage))
           end
      else st1
    | None => st1
    end in
  match successor_keys h this with
  | action :: _ => (action, st2)
  | [] => (FINAL_RESPONSE_ACTION, st2)
  end.

Definition FinishNode_class : NodeClass :=
  mkClass FinishNodePrepResult FinishNodeExecResult
    (fun h _ st np => (Ok (FinishNode_prep h st np), st))
    (fun _ _ pr np => Ok (FinishNode_execCore pr np))
    (fun h this pr er st np => let '(a, st') := FinishNode_post h this pr er st np in (Ok a, st')).

(** ** [Flow] as a node *)

Definition Flow_prep (sharedState : SharedState) (node_params : value) : unit := tt.

Definition Flow_execCore (prepResult : unit) : Result unit :=
  Throw (new_Error "Flow node does not support direct execution").

Definition Flow_post {P E : Type} (prepResult : P) (execResult : E) (sharedState : SharedState)
    (node_params : value) : string * SharedState :=
  (DEFAULT_ACTION, sharedState).

Definition Flow_class : NodeClass :=
  mkClass unit unit
    (fun _ _ st np => (Ok (Flow_prep st np), st))
    (fun _ _ pr _ => Flow_execCore pr)
    (fun _ _ pr er st np => let '(a, st') := Flow_post pr er st np in (Ok a, st')).

Definition class_of (k : NodeKind) : NodeClass :=
  match k with
  | StartNode => StartNode_class
  | ProcessNode => ProcessNode_class
  | MCPNode => MCPNode_class
  | FinishNode => FinishNode_class
  | Flow _ => Flow_class
  end.

(** ** Orchestration *)

Inductive Outcome :=
  | Completed
  | Paused
  | Aborted (e : JsError)
  | OutOfFuel
  | Stuck.

(** The result of a traversal: how it ended, the heap and the shared state
    it left, and the nodes it ran, in order (one entry per
    ["Orchestrate -- currentNode"] log line). *)
Record Run := mkRun {
  outcome : Outcome;
  final_heap : heap;
  final_state : SharedState;
  trace : list loc
}.

Definition prepend (tr : list loc) (r : Run) : Run :=
  mkRun (outcome r) (final_heap r) (final_state r) (tr ++ trace r).

Definition Orchestrator := heap -> loc -> SharedState -> value -> value -> Run.

(** [getStartNode()] *)
Definition getStartNode (h : heap) (this : loc) : option (heap * loc) :=
  n ← nodes h !! this;
  match kind n with
  | Flow start => clone h start
  | _ => None
  end.

(** The breadth-first search of [orchestrate] for the node to resume at. *)
Inductive BfsResult :=
  | BFound (n : loc)
  | BNotFound
  | BOutOfFuel
  | BStuck.

(** [for (const successor of node.successors.values()) ..] *)
Fixpoint bfs_push (h : heap) (succs : list loc) (queue : list loc) (visited : list value)
  : option (list loc * list value) :=
  match succs with
  | [] => Some (queue, visited)
  | successor :: r =>
    s ← nodes h !! successor;
    let successorId := opt_prop h (node_params s) "id" in
    if truthy successorId && negb (bool_decide (successorId ∈ visited))
    then bfs_push h r (queue ++ [successor]) (visited ++ [successorId])
    else bfs_push h r queue visited
  end.

Fixpoint bfs (fuel : nat) (h : heap) (target : value) (queue : list loc) (visited : list value)
  : BfsResult :=
  match fuel with
  | 0 => BOutOfFuel
  | S f =>
    match queue with
    | [] => BNotFound
    | node :: queue' =>
      match nodes h !! node with
      | None => BStuck
      | Some n =>
        let nodeId := opt_prop h (node_params n) "id" in
        if strict_eq nodeId target then BFound node
        else
          match maps h !! successors n with
          | None => BStuck
          | Some es =>
            match bfs_push h (map_values es) queue' visited with
            | None => BStuck
            | Some (queue'', visited') => bfs f h target queue'' visited'
            end
          end
      end
    end
  end.

(** Every node enters the queue at most once per identifier, so the search
    takes at most one round per node of the heap, plus the start clone; see
    [find_entry_terminates]. *)
Definition bfs_fuel (h : heap) : nat := 2 + length (nodes h).

Inductive Entry :=
  | EntryAt (h : heap) (currentNode : loc)
  | EntryOutOfFuel
  | EntryStuck.

Definition from_start (h : heap) (this : loc) : Entry :=
  match getStartNode h this with
  | Some (h', s) => EntryAt h' s
  | None => EntryStuck
  end.

(** The first part of [orchestrate]: resume position or start. *)
Definition find_entry (h : heap) (this : loc) (sharedState : SharedState) : Entry :=
  if truthy (currentNodeId sharedState)
  then
    match getStartNode h this with
    | None => EntryStuck
    | Some (h1, startNode) =>
      match bfs (bfs_fuel h1) h1 (currentNodeId sharedState) [startNode] [] with
      | BFound n => EntryAt h1 n
      | BNotFound => from_start h1 this
      | BOutOfFuel => EntryOutOfFuel
      | BStuck => EntryStuck
      end
    end
  else from_start h this.

(** The result of [node.run(sharedState)]: the action returned, or the
    traversal result that ends the run. *)
Inductive RunResult :=
  | Returned (action : string) (h : heap) (st : SharedState) (tr : list loc)
  | Failed (r : Run).

(** [Flow.run]: prep, orchestrate, post.  [orch] is the orchestrator the
    nested traversal runs with. *)
Definition Flow_run (orch : Orchestrator) (h : heap) (this : loc) (sharedState : SharedState)
  : RunResult :=
  match nodes h !! this with
  | None => Failed (mkRun Stuck h sharedState [])
  | Some n =>
    let prepResult := Flow_prep sharedState VUndefined in
    match prop h (flow_params n) "nodeParams" with
    | Throw e => Failed (mkRun (Aborted e) h sharedState [])
    | Ok nodeParams =>
      let r := orch h this sharedState (flow_params n) nodeParams in
      match outcome r with
      | Completed | Paused =>
        let '(postResult, st') := Flow_post prepResult tt (final_state r) VUndefined in
        Returned postResult (final_heap r) st' (trace r)
      | _ => Failed r
      end
    end
  end.

(** [currentNode.run(sharedState)], dispatched on the class of the node. *)
Definition node_run (orch : Orchestrator) (h : heap) (n : BaseNode) (this : loc)
    (sharedState : SharedState) : RunResult :=
  match kind n with
  | Flow _ => Flow_run orch h this sharedState
  | k =>
    match BaseNode_run (class_of k) h n sharedState with
    | (Ok action, st') => Returned action h st' []
    | (Throw e, st') => Failed (mkRun (Aborted e) h st' [])
    end
  end.

(** One round of the [while (currentNode)] loop. *)
Inductive Step :=
  | Next (h : heap) (currentNode : loc) (st : SharedState) (tr : list loc)
  | Done (r : Run).

(** The parameters the loop hands to [setParams]: the per-node override
    if there is one, else the parameters of the whole flow. *)
Definition resolve_params (h : heap) (fl c : BaseNode) (flowParams nodeParams : value)
  : Result (value * value) :=
  let fallback := if truthy flowParams then flowParams else flow_params fl in
  if truthy nodeParams
  then match prop h (flow_params c) "id" with
       | Throw e => Throw e
       | Ok id =>
         let override := opt_prop h nodeParams (to_key id) in
         Ok (if truthy override then override else fallback, override)
       end
  else Ok (fallback, VUndefined).

Definition loop_body (orch : Orchestrator) (h : heap) (this currentNode : loc)
    (sharedState : SharedState) (flowParams nodeParams : value) : Step :=
  match nodes h !! currentNode, nodes h !! this with
  | Some c, Some fl =>
    match resolve_params h fl c flowParams nodeParams with
    | Throw e => Done (mkRun (Aborted e) h sharedState [currentNode])
    | Ok (paramsToSet, node_params') =>
      let h1 := setParams h currentNode paramsToSet node_params' in
      match nodes h1 !! currentNode with
      | None => Done (mkRun Stuck h1 sharedState [currentNode])
      | Some c1 =>
        match node_run orch h1 c1 currentNode sharedState with
        | Returned action h2 st2 tr2 =>
          let tr := currentNode :: tr2 in
          if String.eqb action STAY_ON_NODE_ACTION
          then
            match nodes h2 !! currentNode with
            | None => Done (mkRun Stuck h2 st2 tr)
            | Some c2 =>
              Done (mkRun Paused h2 (set_currentNodeId st2 (opt_prop h2 (node_params c2) "id")) tr)
            end
          else
            match getSuccessor h2 currentNode action with
            | None => Done (mkRun Stuck h2 st2 tr)
            | Some (h3, None) => Done (mkRun Completed h3 (set_currentNodeId st2 VUndefined) tr)
            | Some (h3, Some next) => Next h3 next st2 tr
            end
        | Failed r => Done (prepend [currentNode] r)
        end
      end
    end
  | _, _ => Done (mkRun Stuck h sharedState [])
  end.

(** [reaches orch this fp np n h c st h' c' st' tr]: from node [c] the loop
    arrives at node [c'] after [n] rounds, having run the nodes [tr]. *)
Inductive reaches (orch : Orchestrator) (this : loc) (flowParams nodeParams : value)
  : nat -> heap -> loc -> SharedState -> heap -> loc -> SharedState -> list loc -> Prop :=
  | reaches_here h c st : reaches orch this flowParams nodeParams 0 h c st h c st []
  | reaches_next n h c st h1 c1 st1 tr h2 c2 st2 tr' :
      loop_body orch h this c st flowParams nodeParams = Next h1 c1 st1 tr ->
      reaches orch this flowParams nodeParams n h1 c1 st1 h2 c2 st2 tr' ->
      reaches orch this flowParams nodeParams (S n) h c st h2 c2 st2 (tr ++ tr').

Fixpoint loop (orch : Orchestrator) (k : nat) (h : heap) (this currentNode : loc)
    (sharedState : SharedState) (flowParams nodeParams : value) : Run :=
  match k with
  | 0 => mkRun OutOfFuel h sharedState []
  | S k' =>
    match loop_body orch h this currentNode sharedState flowParams nodeParams with
    | Done r => r
    | Next h' next st' tr => prepend tr (loop orch k' h' this next st' flowParams nodeParams)
    end
  end.

(** [orchestrate(sharedState, flowParams, nodeParams)].  The fuel bounds
    both the number of rounds of the loop and the nesting of flows. *)
Fixpoint orchestrate (fuel : nat) (h : heap) (this : loc) (sharedState : SharedState)
    (flowParams nodeParams : value) {struct fuel} : Run :=
  match fuel with
  | 0 => mkRun OutOfFuel h sharedState []
  | S f =>
    match find_entry h this sharedState with
    | EntryOutOfFuel => mkRun OutOfFuel h sharedState []
    | EntryStuck => mkRun Stuck h sharedState []
    | EntryAt h0 currentNode =>
      loop (orchestrate f) f h0 this currentNode sharedState flowParams nodeParams
    end
  end.

(** ** [FlowConverter] *)

Definition kind_of_type (type : string) : option NodeKind :=
  if String.eqb type "start" then Some StartNode
  else if String.eqb type "process" then Some ProcessNode
  else if String.eqb type "mcp" then Some MCPNode
  else if String.eqb type "finish" then Some FinishNode
  else None.

(** [createNode(node)] *)
Definition createNode (h : heap) (node : FlowNode) : Result (heap * loc) :=
  match kind_of_type (fn_type node) with
  | None => Throw (new_Error ("Unknown node type: " +:+ fn_type node))
  | Some k =>
    let '(h1, pocketNode) := new_node k h in
    let '(h2, properties) :=
      if truthy (fn_properties node) then (h1, fn_properties node)
      else let '(h', l) := alloc_obj h1 (PObject []) in (h', VRef l) in
    let '(h3, params) :=
      alloc_obj h2 (PObject [("id", VStr (fn_id node)); ("label", fn_label node);
                             ("type", VStr (fn_type node)); ("properties", properties)]) in
    Ok (setParams h3 pocketNode (VRef params) VUndefined, pocketNode)
  end.

(** First pass of [convert]: create all nodes. *)
Fixpoint create_nodes (h : heap) (ns : list FlowNode) (nodesMap : list (string * loc))
  : Result (heap * list (string * loc)) :=
  match ns with
  | [] => Ok (h, nodesMap)
  | node :: r =>
    match createNode h node with
    | Throw e => Throw e
    | Ok (h', pocketNode) => create_nodes h' r (map_set (fn_id node) pocketNode nodesMap)
    end
  end.

(** Second pass: connect nodes based on edges. *)
Fixpoint connect_edges (h : heap) (es : list Edge) (nodesMap : list (string * loc))
  : option (Result heap) :=
  match es with
  | [] => Some (Ok h)
  | edge :: r =>
    match map_get (e_source edge) nodesMap, map_get (e_target edge) nodesMap with
    | Some sourceNode, Some targetNode =>
      let action := if String.eqb (e_id edge) "" then "default" else e_id edge in
      res ← addSuccessor h sourceNode targetNode action;
      match res with
      | (_, Throw e) => Some (Throw e)
      | (h', Ok _) => connect_edges h' r nodesMap
      end
    | _, _ => connect_edges h r nodesMap
    end
  end.

(** [convert(reactFlow)] *)
Definition convert (h : heap) (reactFlow : ReactFlow) : option (Result (heap * loc)) :=
  match create_nodes h (rf_nodes reactFlow) [] with
  | Throw e => Some (Throw e)
  | Ok (h1, nodesMap) =>
    res ← connect_edges h1 (rf_edges reactFlow) nodesMap;
    match res with
    | Throw e => Some (Throw e)
    | Ok h2 =>
      match List.find (fun node => String.eqb (fn_type node) "start") (rf_nodes reactFlow) with
      | None => Some (Throw (new_Error "Flow must have a start node"))
      | Some startNode =>
        match map_get (fn_id startNode) nodesMap with
        | None => Some (Throw (new_Error "Failed to create start node"))
        | Some pocketStartNode =>
          let '(h3, flow) := new_node (Flow pocketStartNode) h2 in
          nodeParams ← foldl (fun acc e =>
                          o ← acc;
                          n ← nodes h3 !! snd e;
                          Some (obj_set (fst e) (flow_params n) o)) (Some []) nodesMap;
          let '(h4, np) := alloc_obj h3 (PObject nodeParams) in
          let '(h5, params) := alloc_obj h4 (PObject [("nodeParams", VRef np)]) in
          Some (Ok (setParams h5 flow (VRef params) VUndefined, flow))
        end
      end
    end
  end.

(** ** [FlowExecutor] *)

Record ExecutionResult := mkExecutionResult {
  result : LastResponse;
  result_messages : list Message;
  executionTime : Z;
  result_nodeExecutionTracker : list TrackerEntry
}.

Inductive FlowExecution :=
  | Resolves (r : ExecutionResult) (h : heap) (st : SharedState)
  | Rejects (e : JsError) (h : heap) (st : SharedState)
  | ExecOutOfFuel
  | ExecStuck.

(** [{ ...initialState, flowName, startTime: Date.now(), nodeExecutionTracker: [] }] *)
Definition initial_sharedState (flowName : string) (initialState : SharedState) : SharedState :=
  mkState (messages initialState) (flowId initialState) (lastResponse initialState)
    (nodeExecutionTracker initialState) (currentNodeId initialState)
    (mcpContext_availableTools initialState) flowName Date_now [].

(** The value [executeFlow] returns from the final state. *)
Definition execution_result (sharedState : SharedState) : ExecutionResult :=
  mkExecutionResult
    (match lastResponse sharedState with
     | Some r => if lastResponse_truthy (Some r) then r else LRText "Flow execution completed"
     | None => LRText "Flow execution completed"
     end)
    (messages sharedState)
    (Date_now - startTime sharedState)%Z
    (topTracker sharedState).

(** [executeFlow(flowName, initialState)].  The heap [h] holds the stored
    property objects of the loaded flows. *)
Definition executeFlow (fuel : nat) (h : heap) (flowName : string) (initialState : SharedState)
  : FlowExecution :=
  match List.find (fun flow => String.eqb (rf_name flow) flowName) loadFlows with
  | None => Rejects (new_Error ("Flow not found: " +:+ flowName)) h initialState
  | Some reactFlow =>
    match convert h reactFlow with
    | None => ExecStuck
    | Some (Throw e) => Rejects e h initialState
    | Some (Ok (h1, pocketFlow)) =>
      let sharedState := initial_sharedState flowName initialState in
      match Flow_run (orchestrate fuel) h1 pocketFlow sharedState with
      | Failed r =>
        match outcome r with
        | Aborted e => Rejects e (final_heap r) (final_state r)
        | OutOfFuel => ExecOutOfFuel
        | _ => ExecStuck
        end
      | Returned _ h2 st _ => Resolves (execution_result st) h2 st
      end
    end
  end.

(** ** [RetryNode]

    [execCore] has effects, so successive attempts may end differently:
    [execCore i] is the outcome of the call made in round [i] of the loop.
    Besides the result, a run records how many times [execCore] was called
    and the delays awaited between the attempts.  [maxRetries] and
    [intervalMs] are integral numbers, of a size that JavaScript prints in
    plain decimal notation. *)

Record RetryRun (A : Type) := mkRetryRun {
  retry_result : Result A;
  retry_calls : nat;
  retry_delays : list Z
}.
Arguments mkRetryRun {A} retry_result retry_calls retry_delays.
Arguments retry_result {A} r.
Arguments retry_calls {A} r.
Arguments retry_delays {A} r.

(** The rounds [i], [i + 1], .. of [for (let i = 0; i < this.maxRetries; i++)],
    of which [rounds] are left, followed by the [throw] after the loop. *)
Fixpoint retry_rounds {A} (execCore : nat -> Result A) (maxRetries intervalMs : Z) (rounds i : nat)
  : RetryRun A :=
  match rounds with
  | 0 =>
    mkRetryRun (Throw (new_Error ("Max retries reached after " +:+ pretty maxRetries +:+ " attempts")))
      0 []
  | S rounds' =>
    match execCore i with
    | Ok result => mkRetryRun (Ok result) 1 []
    | Throw _ =>
      let r := retry_rounds execCore maxRetries intervalMs rounds' (S i) in
      mkRetryRun (retry_result r) (S (retry_calls r)) (intervalMs :: retry_delays r)
    end
  end.

(** [RetryNode.execWrapper] *)
Definition RetryNode_execWrapper {A} (execCore : nat -> Result A) (maxRetries intervalMs : Z)
  : RetryRun A :=
  retry_rounds execCore maxRetries intervalMs (Z.to_nat maxRetries) 0.

(** ** [BatchFlow] *)

Definition BatchFlow_prep (sharedState : SharedState) (node_params : value) : list value := [].

Definition BatchFlow_post (prepResultList resultList : list value) (sharedState : SharedState)
    (node_params : value) : string * SharedState :=
  (DEFAULT_ACTION, sharedState).

(** The [for .. of] loop of [BatchFlow.run]: the heap, the shared state and
    the trace it ends with and the results it collected, or the traversal
    that threw.  An [orchestrate] call that returns resolves to
    [undefined], whether it completed or paused. *)
Inductive BatchLoop :=
  | BatchDone (h : heap) (st : SharedState) (tr : list loc) (resultList : list value)
  | BatchFailed (r : Run).

Fixpoint BatchFlow_loop (orch : Orchestrator) (h : heap) (this : loc) (sharedState : SharedState)
    (prepResultList : list value) : BatchLoop :=
  match prepResultList with
  | [] => BatchDone h sharedState [] []
  | prepResult :: rest =>
    match nodes h !! this with
    | None => BatchFailed (mkRun Stuck h sharedState [])
    | Some n =>
      match prop h (flow_params n) "nodeParams" with
      | Throw e => BatchFailed (mkRun (Aborted e) h sharedState [])
      | Ok nodeParams =>
        let r := orch h this sharedState prepResult nodeParams in
        match outcome r with
        | Completed | Paused =>
          match BatchFlow_loop orch (final_heap r) this (final_state r) rest with
          | BatchDone h' st' tr resultList => BatchDone h' st' (trace r ++ tr) (VUndefined :: resultList)
          | BatchFailed r' => BatchFailed (prepend (trace r) r')
          end
        | _ => BatchFailed r
        end
      end
    end
  end.

Inductive BatchResult :=
  | BatchReturned (action : string) (prepResult execResult : list value)
      (h : heap) (st : SharedState) (tr : list loc)
  | BatchThrew (r : Run).

(** [BatchFlow.run]; [prep] is the [prep] method of the class of [this]
    ([BatchFlow_prep] unless a subclass overrides it). *)
Definition BatchFlow_run (prep : SharedState -> value -> list value) (orch : Orchestrator)
    (h : heap) (this : loc) (sharedState : SharedState) : BatchResult :=
  let prepResultList := prep sharedState VUndefined in
  match BatchFlow_loop orch h this sharedState prepResultList with
  | BatchDone h' st' tr resultList =>
    let '(action, st'') := BatchFlow_post prepResultList resultList st' VUndefined in
    BatchReturned action prepResultList resultList h' st'' tr
  | BatchFailed r => BatchThrew r
  end.

(** ** [ProcessNode.addMessageToState] *)

Definition with_messages (ms : list Message) (pr : ProcessNodePrepResult) : ProcessNodePrepResult :=
  mkProcessPrep (pr_nodeId pr) (pr_nodeType pr) (pr_currentPrompt pr) (pr_boundModel pr)
    (pr_availableTools pr) ms (pr_modelDisplayName pr).

(** The prepared view after the call, or the error thrown (the view is
    then as it was). *)
Definition addMessageToState (prepResult : ProcessNodePrepResult) (role' content' : string)
  : Result ProcessNodePrepResult :=
  match List.find (fun msg => String.eqb (role msg) role') (pr_messages prepResult) with
  | Some existingMessage => Ok prepResult
  | None =>
    let message : Result Message :=
      if String.eqb role' "system" then Ok (mkMsg "system" (CText content'))
      else if String.eqb role' "user" then Ok (mkMsg "user" (CText content'))
      else if String.eqb role' "assistant" then Ok (mkMsg "assistant" (CText content'))
      else if String.eqb role' "tool" then Throw (new_Error "Tool messages require a tool_call_id")
      else Throw (new_Error ("Unsupported role: " +:+ role')) in
    match message with
    | Ok m => Ok (with_messages (pr_messages prepResult ++ [m]) prepResult)
    | Throw e => Throw e
    end
  end.

(** ** Vocabulary of the statements *)

Definition count_system (ms : list Message) : nat := length (List.filter is_system ms).

(** The tools [ProcessNode.prep] ends up with: those of the run context
    if there are any, else those resolved from the bound MCP nodes. *)
Definition prep_tools (h : heap) (sharedState : SharedState) (node_params : value)
  : string + list ToolDefinition :=
  match mcpContext_availableTools sharedState with
  | Some (t :: ts) => inr (t :: ts)
  | _ =>
    match elems_of h (opt_prop h (opt_prop h node_params "properties") "mcpNodes") with
    | [] => inr []
    | mcpNodes => processMCPNodes h mcpNodes
    end
  end.

(** [val_in a b v]: if [v] is a reference, it points into [[a, b)]. *)
Definition val_in (a b : nat) (v : value) : Prop :=
  match v with
  | VRef r => a <= r < b
  | _ => True
  end.

(** The objects at the locations [[a, b)] only refer to objects of
    [[a, b)]. *)
Definition region_closed (o : list pobj) (a b : nat) : Prop :=
  forall l p v, a <= l < b -> o !! l = Some p -> In v (children p) -> val_in a b v.

(** No object refers to a location that is not allocated. *)
Definition closed_objs (o : list pobj) : Prop := region_closed o 0 (length o).

(** [reach o v l]: the object at [l] is part of the structure below [v]. *)
Inductive reach (o : list pobj) : value -> loc -> Prop :=
  | reach_root l : reach o (VRef l) l
  | reach_child l p v l' :
      o !! l = Some p -> In v (children p) -> reach o v l' -> reach o (VRef l) l'.

(** [copied a b v v']: [v'] is [v] itself when [v] is a primitive value,
    and a reference into [[a, b)] when [v] is a reference. *)
Definition copied (a b : nat) (v v' : value) : Prop :=
  match v with
  | VRef _ => exists r, v' = VRef r /\ a <= r < b
  | _ => v' = v
  end.

(** The unfolding of a value to a given depth: the keys and the primitive
    values that property reads reach through it, without the locations of
    the objects they pass.  Two values that unfold to the same tree at
    every depth cannot be told apart by reading. *)
Unset Elimination Schemes.
Inductive tree :=
  | TLeaf (v : value)
  | TObject (props : list (string * tree))
  | TArray (elems : list tree)
  | TCut
  | TDangling.
Set Elimination Schemes.

Fixpoint tree_of (depth : nat) (o : list pobj) (v : value) : tree :=
  match v with
  | VRef l =>
    match depth with
    | 0 => TCut
    | S d =>
      match o !! l with
      | Some (PObject ps) => TObject (map (fun kv => (fst kv, tree_of d o (snd kv))) ps)
      | Some (PArray es) => TArray (map (tree_of d o) es)
      | None => TDangling
      end
    end
  | _ => TLeaf v
  end.

(** [renamed m v v']: [v'] is [v], with a reference replaced by the copy
    that the memo records for it. *)
Definition renamed (m : memo) (v v' : value) : Prop :=
  match v with
  | VRef l => exists l', memo_get l m = Some l' /\ v' = VRef l'
  | _ => v' = v
  end.

(** The copy at [l'] of the object at [l] is filled in: it has the keys
    of the original, in order, and the values of the original, renamed. *)
Definition copy_done (o : list pobj) (m : memo) (l l' : loc) : Prop :=
  exists p vs,
    o !! l = Some p /\ o !! l' = Some (rebuild p vs) /\ Forall2 (renamed m) (children p) vs.

(** The content of the copies during a [cloneDeep]: every registered copy
    is filled in, or is one of the [pending] ones whose children are being
    visited; no two originals share a copy. *)
Definition content_state (n0 : nat) (o : list pobj) (m : memo) (pending : list loc) : Prop :=
  (forall l l', memo_get l m = Some l' -> l < n0 /\ (In l pending \/ copy_done o m l l')) /\
  (forall l1 l2 l', memo_get l1 m = Some l' -> memo_get l2 m = Some l' -> l1 = l2).

Definition memo_ext (m m' : memo) : Prop :=
  forall l l', memo_get l m = Some l' -> memo_get l m' = Some l'.

(** The state of a [cloneDeep] that started on a heap of [n0] objects:
    the original objects are closed, the memo maps into the copies, and the
    copies only refer to copies. *)
Definition clone_state (n0 : nat) (o : list pobj) (m : memo) : Prop :=
  n0 <= length o /\
  region_closed o 0 n0 /\
  (forall l l', memo_get l m = Some l' -> n0 <= l' < length o) /\
  region_closed o n0 (length o).

Definition clone_step (n0 : nat) (o : list pobj) (m : memo) (o' : list pobj) (m' : memo) : Prop :=
  clone_state n0 o' m' /\
  length o <= length o' /\
  (forall l, l < n0 -> o' !! l = o !! l) /\
  (forall l, is_Some (memo_get l m) -> is_Some (memo_get l m')).

(** Number of original objects not yet copied. *)
Definition unseen (n0 : nat) (m : memo) : nat :=
  length (List.filter (fun l => match memo_get l m with Some _ => false | None => true end) (seq 0 n0)).

(** [h'] extends [h]: every node of [h] is still there with the same class
    and the same successor map object, and every map object still exists. *)
Definition heap_ext (h h' : heap) : Prop :=
  (forall l n, nodes h !! l = Some n ->
     exists n', nodes h' !! l = Some n' /\ kind n' = kind n /\ successors n' = successors n) /\
  (forall l, is_Some (maps h !! l) -> is_Some (maps h' !! l)).

Definition node_ok (h : heap) (l : loc) : Prop :=
  exists n, nodes h !! l = Some n /\ is_Some (maps h !! successors n).

(** Every node registered by the graph builder is a node of the heap. *)
Definition valid_map (h : heap) (m : list (string * loc)) : Prop :=
  Forall (fun e => node_ok h (snd e)) m.

(** A heap as the graph builder leaves it: the [node_params] of every
    node is an empty object, every node has a successor map, and the
    entries of every map are nodes. *)
Definition blank_heap (h : heap) : Prop :=
  (forall l n, nodes h !! l = Some n ->
     exists r, node_params n = VRef r /\ objs h !! r = Some (PObject []) /\
               is_Some (maps h !! successors n)) /\
  (forall ml es, maps h !! ml = Some es -> Forall (fun e => is_Some (nodes h !! snd e)) es).

(** The identifiers by which the resume search knows the nodes. *)
Definition node_ids (h : heap) : list value :=
  map (fun n => opt_prop h (node_params n) "id") (nodes h).

(** The identifiers (of [flow_params]) of the nodes a traversal ran. *)
Definition trace_ids (r : Run) : list value :=
  map (fun l => match nodes (final_heap r) !! l with
                | Some n => opt_prop (final_heap r) (flow_params n) "id"
                | None => VUndefined
                end) (trace r).

(** A node after [setParams(params, node_params')]. *)
Definition after_setParams (params node_params' : value) (n : BaseNode) : BaseNode :=
  mkNode (kind n) params (if truthy node_params' then node_params' else node_params n) (successors n).

Definition is_flow (k : NodeKind) : bool :=
  match k with
  | Flow _ => true
  | _ => false
  end.

(** Every entry of every successor map refers to a node of the heap that
    is not a flow. *)
Definition plain_targets (h : heap) : bool :=
  forallb (fun es =>
             forallb (fun e => match nodes h !! snd e with
                               | Some n => negb (is_flow (kind n))
                               | None => false
                               end) es) (maps h).

(** [h] holds the nodes, the maps and the objects of [h0] unchanged, next
    to what a traversal allocated; all successor entries still refer to
    nodes of [h0] that are not flows. *)
Definition extends_graph (h0 h : heap) : Prop :=
  (forall l, l < length (nodes h0) -> nodes h !! l = nodes h0 !! l) /\
  (forall l, l < length (maps h0) -> maps h !! l = maps h0 !! l) /\
  (forall l, l < length (objs h0) -> objs h !! l = objs h0 !! l) /\
  length (nodes h0) <= length (nodes h) /\
  (forall ml es, maps h !! ml = Some es ->
     Forall (fun e => exists n, nodes h0 !! snd e = Some n /\ is_flow (kind n) = false) es).

(** Whether a message list holds a message of the given role. *)
Definition has_role (r : string) (ms : list Message) : bool :=
  existsb (fun msg => String.eqb (role msg) r) ms.

End Model.

Arguments mkRetryRun {A} retry_result retry_calls retry_delays.
Arguments retry_result {A} r.
Arguments retry_calls {A} r.
Arguments retry_delays {A} r.

(** ** [ProcessNodeUtility.processToolCalls]

    The tool calls of a model response are executed one after the other;
    each one contributes its messages to the list returned. *)

Record ChatCompletionMessageToolCall := mkToolCallRequest {
  call_id : string;
  call_name : string;
  call_arguments : string
}.

Record ChatCompletionMessageParam := mkParam {
  param_role : string;
  param_tool_call_id : option string;
  param_content : string
}.

(** [s.split(sep)] for a separator that is not empty: the parts between
    the occurrences of [sep], found from left to right without overlap.
    [skip] counts the characters of an occurrence still to be passed,
    [part] is the part read so far. *)
Fixpoint split_from (sep s : string) (skip : nat) (part : string) : list string :=
  match s with
  | EmptyString => [part]
  | String a s' =>
    match skip with
    | S skip' => split_from sep s' skip' part
    | 0 =>
      if startsWith s sep
      then part :: split_from sep s' (String.length sep - 1) EmptyString
      else split_from sep s' 0 (part +:+ String a EmptyString)
    end
  end.

Definition split (s sep : string) : list string := split_from sep s 0 EmptyString.

(** The message that follows the result of a tool call. *)
Definition tool_result_note : ChatCompletionMessageParam :=
  mkParam "user" None
    "This is the result of the tool call. If you want to call any further tools, let me know".

Section ToolCalls.

(** What [processToolCalls] calls outside of the class: [JSON.parse] on
    the argument string, and [mcpService.callTool], which rejects or
    resolves to a failure with its error text ([inl]) or to a success with
    the JSON text of its data ([inr]). *)
Context {Args : Type}.
Context (JSON_parse : string -> Result Args).
Context (callTool : string -> string -> Args -> Result (string + string)).

(** One round of [for (const toolCall of toolCalls)]: the messages pushed
    to [newMessages]. *)
Definition processToolCall (toolCall : ChatCompletionMessageToolCall)
  : list ChatCompletionMessageParam :=
  let id := call_id toolCall in
  let name := call_name toolCall in
  let attempt : Result (list ChatCompletionMessageParam) :=
    match JSON_parse (call_arguments toolCall) with
    | Throw e => Throw e
    | Ok args =>
      match split name "_-_-_" with
      | [_; serverName; toolName] =>
        match callTool serverName toolName args with
        | Throw e => Throw e
        | Ok result =>
          let resultContent :=
            match result with
            | inr data => data
            | inl error => "Error: " +:+ error
            end in
          Ok [mkParam "tool" (Some id) resultContent; tool_result_note]
        end
      | _ => Throw (new_Error ("Invalid tool name format: " +:+ name))
      end
    end in
  match attempt with
  | Ok pushed => pushed
  | Throw error =>
    [mkParam "tool" (Some id)
       ("Error: " +:+ (if instanceof_Error error then err_message error else "Unknown error"))]
  end.

(** [processToolCalls(response)]; the argument is
    [response.fullResponse?.choices?.[0]?.message?.tool_calls]. *)
Definition processToolCalls (toolCalls : option (list ChatCompletionMessageToolCall))
  : list ChatCompletionMessageParam :=
  match toolCalls with
  | None | Some [] => []
  | Some toolCalls => flat_map processToolCall toolCalls
  end.

End ToolCalls.

Definition is_tool_message (m : ChatCompletionMessageParam) : bool :=
  String.eqb (param_role m) "tool".

(** ** The rate limiter of the chat completions route

    [requestCounts] is the module-level [Map] from client address to the
    request count of the current window; [now] is [Date.now()]. *)

Definition RATE_LIMIT : Z := 6000.

Record RequestCount := mkRequestCount {
  count : Z;
  resetTime : Z
}.

(** [checkRateLimit(ip)]: the answer and the map it leaves. *)
Definition checkRateLimit (requestCounts : list (string * RequestCount)) (now : Z) (ip : string)
  : bool * list (string * RequestCount) :=
  let resetTime' := (now / 60000 * 60000 + 60000)%Z in
  match map_get ip requestCounts with
  | None => (true, map_set ip (mkRequestCount 1 resetTime') requestCounts)
  | Some record =>
    if (resetTime record <? now)%Z
    then (true, map_set ip (mkRequestCount 1 resetTime') requestCounts)
    else if (RATE_LIMIT <=? count record)%Z
    then (false, requestCounts)
    else (true, map_set ip (mkRequestCount (count record + 1) (resetTime record)) requestCounts)
  end.

(** A sequence of requests, each with its arrival time and client
    address, checked one after the other: the answers, and the final map. *)
Fixpoint check_requests (requestCounts : list (string * RequestCount)) (requests : list (Z * string))
  : list (string * bool) * list (string * RequestCount) :=
  match requests with
  | [] => ([], requestCounts)
  | (now, ip) :: rest =>
    let checked := checkRateLimit requestCounts now ip in
    let later := check_requests (snd checked) rest in
    ((ip, fst checked) :: fst later, snd later)
  end.

(** How many requests a client made, and how many of them were let
    through. *)
Definition requested (ip : string) (requests : list (Z * string)) : nat :=
  length (List.filter (fun c => String.eqb (snd c) ip) requests).

Definition accepted (ip : string) (answers : list (string * bool)) : nat :=
  length (List.filter (fun a => String.eqb (fst a) ip && snd a) answers).

(** ** Vocabulary for the graph builder *)

(** [h'] holds every node and every object of [h] unchanged. *)
Definition heap_keeps (h h' : heap) : Prop :=
  (forall l n, nodes h !! l = Some n -> nodes h' !! l = Some n) /\
  (forall l p, objs h !! l = Some p -> objs h' !! l = Some p).

(** Every node registered under an identifier has, as [flow_params], an
    object whose [id] is that identifier. *)
Definition described (h : heap) (m : list (string * loc)) : Prop :=
  Forall (fun e => exists n p ps,
            nodes h !! snd e = Some n /\ flow_params n = VRef p /\
            objs h !! p = Some (PObject ps) /\ obj_get "id" ps = VStr (fst e)) m.

(** ** Concrete collaborators and flows for the examples *)

(** A node class that does nothing and follows its first outgoing edge. *)
Definition passthrough_class : NodeClass :=
  mkClass unit unit
    (fun _ _ st _ => (Ok tt, st))
    (fun _ _ _ _ => Ok tt)
    (fun h this _ _ st _ =>
       (Ok (match successor_keys h this with a :: _ => a | [] => DEFAULT_ACTION end), st)).

(** A node class whose [post] always returns the given action. *)
Definition constant_class (action : string) : NodeClass :=
  mkClass unit unit
    (fun _ _ st _ => (Ok tt, st))
    (fun _ _ _ _ => Ok tt)
    (fun _ _ _ _ st _ => (Ok action, st)).

Definition test_env (call : ModelCall -> CallOutcome) (flows : list ReactFlow) : Env :=
  mkEnv "STAY_ON_NODE" "FINAL_RESPONSE" false "1970-01-01T00:00:00.000Z" 0%Z
    (fun flowId _ _ _ => "prompt of " +:+ flowId)
    (fun _ _ => inr [])
    (fun ts => inr (map tool_name ts))
    call flows passthrough_class (constant_class "STAY_ON_NODE").

Definition quota_error : ProviderError :=
  mkProviderError "quota exceeded" "model" (VStr "insufficient_quota") (VStr "m1") [].

Definition failing_model (_ : ModelCall) : CallOutcome := CallResolves (inl quota_error).

Definition echo_model (c : ModelCall) : CallOutcome :=
  CallResolves (inr (mkModelValue (Some "done")
                       (Some (mc_messages c ++ [mkMsg "assistant" (CText "done")])) "raw" None)).

Definition empty_state : SharedState :=
  mkState [] "flow-1" None [] VUndefined None "" 0%Z [].

(** start --e1--> mcp: the second node suspends. *)
Definition pausing_flow : ReactFlow :=
  mkReactFlow "pausing"
    [mkFlowNode "A" "start" (VStr "Start") VUndefined;
     mkFlowNode "B" "mcp" (VStr "Tools") VUndefined]
    [mkEdge "e1" "A" "B"].

(** start --e1--> finish *)
Definition finishing_flow : ReactFlow :=
  mkReactFlow "finishing"
    [mkFlowNode "A" "start" (VStr "Start") VUndefined;
     mkFlowNode "F" "finish" (VStr "Finish") VUndefined]
    [mkEdge "e1" "A" "F"].

(** Two nodes of type [start] and nothing else. *)
Definition two_starts_flow : ReactFlow :=
  mkReactFlow "two-starts"
    [mkFlowNode "S1" "start" (VStr "First") VUndefined;
     mkFlowNode "S2" "start" (VStr "Second") VUndefined]
    [].

(** A heap holding the properties of a process node bound to model [m1],
    at location 0. *)
Definition process_props_heap : heap :=
  mkHeap [PObject [("boundModel", VStr "m1"); ("name", VStr "Writer")]] [] [].

(** start --e1--> process --e2--> finish *)
Definition process_flow : ReactFlow :=
  mkReactFlow "process"
    [mkFlowNode "A" "start" (VStr "Start") VUndefined;
     mkFlowNode "P" "process" (VStr "Writer") (VRef 0);
     mkFlowNode "F" "finish" (VStr "Finish") VUndefined]
    [mkEdge "e1" "A" "P"; mkEdge "e2" "P" "F"].

Definition converted (h : heap) (rf : ReactFlow) : heap * loc :=
  match convert h rf with
  | Some (Ok r) => r
  | _ => (h, 0)
  end.

(** The collaborators of the examples, with a failing model. *)
Definition failing_env : Env := test_env failing_model [pausing_flow; finishing_flow; process_flow].

(** The arguments [Flow.run] passes to [orchestrate]: the flow's own
    parameters and their [nodeParams] table. *)
Definition flow_args (h : heap) (flow : loc) : value * value :=
  match nodes h !! flow with
  | Some fl => (flow_params fl, opt_prop h (flow_params fl) "nodeParams")
  | None => (VUndefined, VUndefined)
  end.

(** A first traversal of [pausing_flow], and a second one on the heap and
    the shared state the first one left. *)
Definition first_run : Run :=
  let '(h, flow) := converted empty_heap pausing_flow in
  let '(fp, np) := flow_args h flow in
  @orchestrate failing_env 5 h flow empty_state fp np.

Definition second_run : Run :=
  let '(h, flow) := converted empty_heap pausing_flow in
  let '(fp, np) := flow_args h flow in
  @orchestrate failing_env 5 (final_heap first_run) flow (final_state first_run) fp np.

(** The same graph, with templates that also carry their parameters as
    [node_params], as [setParams(params, params)] would leave them. *)
Definition pausing_heap_with_ids : heap :=
  let '(h, _) := converted empty_heap pausing_flow in
  setParams (setParams h 0 (VRef 3) (VRef 3)) 1 (VRef 7) (VRef 7).

Definition first_run_with_ids : Run :=
  let '(fp, np) := flow_args pausing_heap_with_ids 2 in
  @orchestrate failing_env 5 pausing_heap_with_ids 2 empty_state fp np.

Definition second_run_with_ids : Run :=
  let '(fp, np) := flow_args pausing_heap_with_ids 2 in
  @orchestrate failing_env 5 (final_heap first_run_with_ids) 2 (final_state first_run_with_ids) fp np.

(** A provider error whose details bag has a [code] entry of its own. *)
Definition shadowing_error : ProviderError :=
  mkProviderError "quota exceeded" "model" (VStr "insufficient_quota") (VStr "m1")
    [("status", VNum 429); ("code", VStr "429")].

Definition shadowing_env : Env :=
  test_env (fun _ => CallResolves (inl shadowing_error)) [process_flow].

(** A model call that rejects with an ordinary error. *)
Definition rejecting_env : Env :=
  test_env (fun _ => CallRejects (new_Error "network down")) [process_flow].

Definition echo_env : Env := test_env echo_model [pausing_flow; finishing_flow; process_flow].

(** A description without a start node. *)
Definition no_start_flow : ReactFlow :=
  mkReactFlow "no-start" [mkFlowNode "F" "finish" (VStr "Finish") VUndefined] [].

(** A template with nested parameters and one successor (itself). *)
Definition template_heap : heap :=
  mkHeap [PObject [("id", VStr "P"); ("properties", VRef 1)];
          PObject [("boundModel", VStr "m1"); ("allowedTools", VRef 2)];
          PArray [VStr "search"; VStr "fetch"]]
         [[("e1", 0)]]
         [mkNode ProcessNode (VRef 0) (VRef 0) 0].

Definition chat_state : SharedState :=
  mkState [mkMsg "system" (CText "stale prompt"); mkMsg "user" (CText "hi");
           mkMsg "system" (CText "older prompt"); mkMsg "assistant" (CText "hello")]
    "flow-1" None [] VUndefined None "" 0%Z [].

Definition done_state : SharedState :=
  mkState [mkMsg "user" (CText "hi"); mkMsg "assistant" (CText "done")]
    "flow-1" None [] VUndefined None "" 0%Z [].

(** A state whose last message is an assistant message with empty
    content, and an earlier last response. *)
Definition empty_reply_state : SharedState :=
  mkState [mkMsg "user" (CText "hi"); mkMsg "assistant" (CText "")]
    "flow-1" (Some (LRText "earlier")) [] VUndefined None "" 0%Z [].

(** The same, with an assistant message that has no content at all (one
    that only carries tool calls). *)
Definition null_reply_state : SharedState :=
  mkState [mkMsg "user" (CText "hi"); mkMsg "assistant" CNone]
    "flow-1" (Some (LRText "earlier")) [] VUndefined None "" 0%Z [].

(** A finish node without outgoing edges. *)
Definition finish_heap : heap :=
  mkHeap [PObject [("id", VStr "F")]] [[]] [mkNode FinishNode (VRef 0) (VRef 0) 0].

Definition finish_node : BaseNode := mkNode FinishNode (VRef 0) (VRef 0) 0.

(** An [execCore] that times out twice and then succeeds, and one that
    fails with a model error on every call. *)
Definition flaky_execCore (i : nat) : Result string :=
  if Nat.ltb i 2 then Throw (new_Error "timeout") else Ok "ok".

Definition failing_execCore (i : nat) : Result string := Throw (model_error quota_error).

(** A batch flow class whose [prep] yields two parameter sets. *)
Definition two_items_prep (sharedState : SharedState) (node_params : value) : list value :=
  [VNull; VNull].

Definition user_only_prep : ProcessNodePrepResult :=
  mkProcessPrep (VStr "P") "process" "prompt" (VStr "m1") [] [mkMsg "user" (CText "hi")] None.

(** A flow (node 2) whose start node is a flow (node 1) whose start node
    suspends (node 0). *)
Definition nested_heap : heap :=
  mkHeap [PObject [("id", VStr "B")]; PObject []]
         [[]; []; []]
         [mkNode MCPNode (VRef 0) (VRef 0) 0;
          mkNode (Flow 0) (VRef 1) (VRef 1) 1;
          mkNode (Flow 1) (VRef 1) (VRef 1) 2].

(** Collaborators of [processToolCalls] for the examples: every argument
    string parses, every tool call succeeds with an empty object. *)
Definition parse_any (s : string) : Result string := Ok s.

Definition empty_tool (serverName toolName : string) (args : string) : Result (string + string) :=
  Ok (inr "{}").

(** A client that has used up its requests for the window ending at
    60000. *)
Definition exhausted_counts : list (string * RequestCount) :=
  [("10.0.0.1", mkRequestCount 6000 60000)].

(** * Properties *)

(** ** Maps and filters *)

Lemma map_set_fresh {A} (k : string) (x : A) (es : list (string * A)) :
  map_has k es = false -> map_set k x es = es ++ [(k, x)].
Proof.
  unfold map_has. induction es as [|[k' y] r IH]; simpl; [done|].
  destruct (String.eqb k k'); [done|]. intros Hr. by rewrite IH.
Qed.

Lemma map_get_app_fresh {A} (k k' : string) (x : A) (es : list (string * A)) :
  map_get k' (es ++ [(k, x)]) =
  match map_get k' es with
  | Some y => Some y
  | None => if String.eqb k' k then Some x else None
  end.
Proof.
  induction es as [|[k0 y] r IH]; simpl; [done|].
  by destruct (String.eqb k' k0).
Qed.

Lemma filter_first {A} (f : A -> bool) (l : list A) :
  (List.filter f l = [] /\ Forall (fun x => f x = false) l) \/
  (exists pre a post, l = pre ++ a :: post /\ Forall (fun x => f x = false) pre /\
     f a = true /\ List.filter f l = a :: List.filter f post).
Proof.
  induction l as [|x r IH]; simpl.
  - left. split; [done | constructor].
  - destruct (f x) eqn:Hx.
    + right. exists [], x, r. repeat split; [constructor | done].
    + destruct IH as [[Hnil Hall] | (pre & a & post & -> & Hpre & Ha & Hf)].
      * left. split; [done | by constructor].
      * right. exists (x :: pre), a, post. repeat split; try done. by constructor.
Qed.

Section Properties.
Context `{env : Env}.

(** ** Flow as a node *)

(** C8: a Flow used as a node behaves uniformly.  [Flow.post] returns the
    default action for every input and leaves the shared state alone;
    [Flow.execCore] raises an error for every input, so the generic
    prep / execWrapper / post run of a Flow never reaches [post]. *)
Theorem Flow_post_default_execCore_throws :
  (forall (P E : Type) (prepResult : P) (execResult : E) sharedState node_params,
      Flow_post prepResult execResult sharedState node_params = (DEFAULT_ACTION, sharedState)) /\
  (forall prepResult,
      Flow_execCore prepResult = Throw (new_Error "Flow node does not support direct execution")) /\
  (forall h this sharedState,
      BaseNode_run Flow_class h this sharedState =
      (Throw (new_Error "Flow node does not support direct execution"), sharedState)).
Proof. repeat split. Qed.

(** ** Successor registration *)

(** C9: registering a successor under an action name already present on
    the node throws and leaves the heap, hence the successor map, as it
    was; registering under a fresh name returns normally and appends
    exactly the one entry to the map of this node, other maps, nodes and
    objects being untouched. *)
Theorem addSuccessor_duplicate_fails_fresh_adds
    (h : heap) (this newSuccessor : loc) (action : string) (n : BaseNode) (es : list (string * loc)) :
  nodes h !! this = Some n ->
  maps h !! successors n = Some es ->
  (map_has action es = true /\
   addSuccessor h this newSuccessor action =
     Some (h, Throw (new_Error ("Action " +:+ action +:+ " already exists")))) \/
  (map_has action es = false /\
   exists h', addSuccessor h this newSuccessor action = Some (h', Ok tt) /\
     maps h' !! successors n = Some (es ++ [(action, newSuccessor)]) /\
     map_get action (es ++ [(action, newSuccessor)]) = Some newSuccessor /\
     (forall k, k <> action -> map_get k (es ++ [(action, newSuccessor)]) = map_get k es) /\
     (forall l, l <> successors n -> maps h' !! l = maps h !! l) /\
     nodes h' = nodes h /\ objs h' = objs h).
Proof.
  intros Hn Hes. unfold addSuccessor. rewrite Hn. simpl. rewrite Hes. simpl.
  destruct (map_has action es) eqn:Hhas; [left; done | right].
  split; [done|]. eexists. split; [reflexivity|].
  rewrite (map_set_fresh _ _ _ Hhas). simpl.
  repeat split.
  - apply list_lookup_insert_eq. by eapply lookup_lt_Some.
  - rewrite map_get_app_fresh. unfold map_has in Hhas.
    destruct (map_get action es); [done|]. by rewrite String.eqb_refl.
  - intros k Hk. rewrite map_get_app_fresh.
    destruct (map_get k es); [done|].
    destruct (String.eqb_spec k action); [done | done].
  - intros l Hl. by apply list_lookup_insert_ne.
Qed.

(** ** Process node *)

Lemma ProcessNode_post_action h this pr er st np :
  fst (ProcessNode_post h this pr er st np) =
  match List.filter (fun a => negb (is_mcp_edge a)) (successor_keys h this) with
  | a :: _ => a
  | [] => "default"
  end.
Proof.
  unfold ProcessNode_post.
  replace (List.filter _ (successor_keys h this))
    with (List.filter (fun a => negb (is_mcp_edge a)) (successor_keys h this)).
  - by destruct (List.filter _ _).
  - apply filter_ext. intros a. unfold is_mcp_edge.
    by destruct (includes a "-mcpEdge"), (endsWith a "mcpEdge"), (includes a "-mcp").
Qed.

(** C5: the action returned by [ProcessNode.post] is the first key of the
    successor map, in insertion order, that is not a tool-binding edge
    (a key containing [-mcpEdge] or [-mcp], or ending in [mcpEdge]): every
    key before it is such an edge.  When every key is a tool-binding edge,
    or there is no key, the action is ["default"]. *)
Theorem ProcessNode_post_first_flow_edge h this pr er st np :
  let action := fst (ProcessNode_post h this pr er st np) in
  let keys := successor_keys h this in
  (Forall (fun k => is_mcp_edge k = true) keys /\ action = "default") \/
  (exists pre post, keys = pre ++ action :: post /\
     Forall (fun k => is_mcp_edge k = true) pre /\ is_mcp_edge action = false).
Proof.
  simpl. rewrite ProcessNode_post_action.
  destruct (filter_first (fun a => negb (is_mcp_edge a)) (successor_keys h this))
    as [[Hnil Hall] | (pre & a & post & Hk & Hpre & Ha & Hf)].
  - left. rewrite Hnil. split; [|done].
    eapply Forall_impl; [exact Hall|]. intros k Hk. by apply negb_false_iff.
  - right. rewrite Hf. exists pre, post. split; [done|]. split.
    + eapply Forall_impl; [exact Hpre|]. intros k Hk'. by apply negb_false_iff.
    + by apply negb_true_iff.
Qed.

Lemma count_system_non_system ms :
  count_system (List.filter (fun msg => negb (is_system msg)) ms) = 0.
Proof.
  unfold count_system. induction ms as [|m r IH]; simpl; [done|].
  destruct (is_system m) eqn:Hm; simpl; [done|]. by rewrite Hm.
Qed.

Lemma ProcessNode_prep_ok h st np tools :
  truthy (opt_prop h np "id") = true ->
  flowId st <> "" ->
  truthy (opt_prop h (opt_prop h np "properties") "boundModel") = true ->
  prep_tools h st np = inr tools ->
  ProcessNode_prep h st np =
  Ok (mkProcessPrep (opt_prop h np "id") "process"
        (renderPrompt (flowId st) (opt_prop h np "id")
           (js_or (opt_prop h (opt_prop h np "properties") "excludeModelPrompt") (VBool false))
           (js_or (opt_prop h (opt_prop h np "properties") "excludeStartNodePrompt") (VBool false)))
        (opt_prop h (opt_prop h np "properties") "boundModel") tools
        (mkMsg "system"
           (CText (renderPrompt (flowId st) (opt_prop h np "id")
              (js_or (opt_prop h (opt_prop h np "properties") "excludeModelPrompt") (VBool false))
              (js_or (opt_prop h (opt_prop h np "properties") "excludeStartNodePrompt") (VBool false))))
         :: List.filter (fun msg => negb (is_system msg)) (messages st))
        None).
Proof.
  intros Hid Hflow Hmodel Htools. unfold ProcessNode_prep.
  rewrite Hid, Hmodel. simpl.
  destruct (String.eqb_spec (flowId st) ""); [done|]. simpl.
  unfold prep_tools in Htools.
  destruct (mcpContext_availableTools st) as [[|t ts]|].
  - destruct (elems_of h _) as [|v vs]; [by inversion Htools|].
    rewrite Htools. done.
  - by inversion Htools.
  - destruct (elems_of h _) as [|v vs]; [by inversion Htools|].
    rewrite Htools. done.
Qed.

Lemma ProcessNode_post_messages h this pr er st np :
  messages (snd (ProcessNode_post h this pr er st np)) =
  match er_messages er with
  | Some (m :: ms) => m :: ms
  | _ => messages st
  end.
Proof.
  unfold ProcessNode_post.
  destruct (List.filter _ (successor_keys h this)); simpl;
    destruct (er_messages er) as [[|m ms]|]; simpl;
    destruct (er_success er); simpl; try done;
    destruct (er_content er) as [c|]; simpl; try done;
    destruct (String.eqb c ""); done.
Qed.

Lemma ProcessNode_execCore_failure h pr np er :
  ProcessNode_execCore h pr np = Ok er ->
  er_success er = false ->
  exists error, er = error_result error.
Proof.
  unfold ProcessNode_execCore. intros H Hs.
  destruct (prepare_tools pr) as [tools|e].
  - destruct (callModel _) as [e|[pe|mv]].
    + destruct (typeof_object e && _); [done|]. inversion H. by eexists.
    + simpl in H. done.
    + inversion H; subst. simpl in Hs. done.
  - destruct (typeof_object e && _); [done|]. inversion H. by eexists.
Qed.

Lemma count_system_app ms ms' :
  count_system (ms ++ ms') = count_system ms + count_system ms'.
Proof. unfold count_system. by rewrite List.filter_app, length_app. Qed.

(** A message list in the result of [execCore] is the one the model
    handler returned. *)
Lemma ProcessNode_execCore_messages h pr np er ms :
  ProcessNode_execCore h pr np = Ok er ->
  er_messages er = Some ms ->
  exists tools mv,
    prepare_tools pr = Ok tools /\
    callModel (model_call h pr np tools) = CallResolves (inr mv) /\
    mv_messages mv = Some ms.
Proof.
  unfold ProcessNode_execCore. intros H Hms.
  destruct (prepare_tools pr) as [tools|e].
  - destruct (callModel _) as [e|[pe|mv]] eqn:Hcall.
    + destruct (typeof_object e && _); [done|]. inversion H; subst. done.
    + simpl in H. done.
    + inversion H; subst. simpl in Hms. by exists tools, mv.
  - destruct (typeof_object e && _); [done|]. inversion H; subst. done.
Qed.

Lemma ProcessNode_run_unfold h this st pr :
  ProcessNode_prep h st (node_params this) = Ok pr ->
  BaseNode_run ProcessNode_class h this st =
  match ProcessNode_execCore h pr (node_params this) with
  | Throw e => (Throw e, st)
  | Ok er =>
    (Ok (fst (ProcessNode_post h this pr er st (node_params this))),
     snd (ProcessNode_post h this pr er st (node_params this)))
  end.
Proof.
  intros Hprep. unfold BaseNode_run, execWrapper. simpl. rewrite Hprep.
  destruct (ProcessNode_execCore _ _ _); [|done].
  by destruct (ProcessNode_post _ _ _ _ _ _).
Qed.

(** C6: when [prep] has what it needs, the message list it prepares is one
    freshly rendered system message (content: the rendered prompt) followed
    by the non-system messages of the shared state in their original order;
    it holds exactly one system message.  The prepared list goes to the
    model handler; what a run of the node leaves in the shared state is
    either the messages it found or the list the model handler returned.
    When the handler returns the prepared list followed by messages that are
    not system messages, the shared state holds that list after the run and
    has exactly one system message.  When [execCore] returns a failure
    result, the run returns an action all the same and the messages of the
    shared state, and so their system messages, are as they were before. *)
Theorem ProcessNode_prep_one_system_message h st np tools :
  truthy (opt_prop h np "id") = true ->
  flowId st <> "" ->
  truthy (opt_prop h (opt_prop h np "properties") "boundModel") = true ->
  prep_tools h st np = inr tools ->
  exists pr prompt,
    ProcessNode_prep h st np = Ok pr /\
    prompt = renderPrompt (flowId st) (opt_prop h np "id")
               (js_or (opt_prop h (opt_prop h np "properties") "excludeModelPrompt") (VBool false))
               (js_or (opt_prop h (opt_prop h np "properties") "excludeStartNodePrompt") (VBool false)) /\
    pr_messages pr =
      mkMsg "system" (CText prompt) :: List.filter (fun msg => negb (is_system msg)) (messages st) /\
    count_system (pr_messages pr) = 1 /\
    (forall this,
        node_params this = np ->
        let st' := snd (BaseNode_run ProcessNode_class h this st) in
        messages st' = messages st \/
        exists model_tools mv,
          prepare_tools pr = Ok model_tools /\
          callModel (model_call h pr np model_tools) = CallResolves (inr mv) /\
          mv_messages mv = Some (messages st')) /\
    (forall this model_tools mv extra,
        node_params this = np ->
        prepare_tools pr = Ok model_tools ->
        callModel (model_call h pr np model_tools) = CallResolves (inr mv) ->
        mv_messages mv = Some (pr_messages pr ++ extra) ->
        count_system extra = 0 ->
        exists action st',
          BaseNode_run ProcessNode_class h this st = (Ok action, st') /\
          messages st' = pr_messages pr ++ extra /\
          count_system (messages st') = 1) /\
    (forall this er,
        node_params this = np ->
        ProcessNode_execCore h pr np = Ok er ->
        er_success er = false ->
        exists action st',
          BaseNode_run ProcessNode_class h this st = (Ok action, st') /\
          messages st' = messages st /\
          count_system (messages st') = count_system (messages st)).
Proof.
  intros Hid Hflow Hmodel Htools.
  pose proof (ProcessNode_prep_ok h st np tools Hid Hflow Hmodel Htools) as Hprep.
  set (prompt := renderPrompt (flowId st) (opt_prop h np "id")
                   (js_or (opt_prop h (opt_prop h np "properties") "excludeModelPrompt") (VBool false))
                   (js_or (opt_prop h (opt_prop h np "properties") "excludeStartNodePrompt")
                      (VBool false))) in *.
  set (pr := mkProcessPrep (opt_prop h np "id") "process" prompt
               (opt_prop h (opt_prop h np "properties") "boundModel") tools
               (mkMsg "system" (CText prompt)
                :: List.filter (fun msg => negb (is_system msg)) (messages st)) None) in *.
  assert (Hone : count_system (pr_messages pr) = 1).
  { unfold pr, count_system. simpl. f_equal. apply count_system_non_system. }
  exists pr, prompt.
  split; [exact Hprep|]. split; [reflexivity|]. split; [reflexivity|]. split; [exact Hone|].
  split; [|split].
  - intros this Hthis. cbn zeta. subst np.
    rewrite (ProcessNode_run_unfold h this st pr Hprep).
    destruct (ProcessNode_execCore h pr (node_params this)) as [er|e] eqn:Hexec;
      cbn [snd]; [|by left].
    rewrite ProcessNode_post_messages.
    destruct (er_messages er) as [[|m ms]|] eqn:Hms; [by left| |by left].
    right. by apply (ProcessNode_execCore_messages h pr (node_params this) er).
  - intros this model_tools mv extra Hthis Hmt Hcall Hmv Hextra. subst np.
    rewrite (ProcessNode_run_unfold h this st pr Hprep).
    unfold ProcessNode_execCore. rewrite Hmt, Hcall. eexists _, _. split; [reflexivity|].
    rewrite ProcessNode_post_messages. cbn [er_messages]. rewrite Hmv.
    assert (Hlist : pr_messages pr ++ extra =
                    mkMsg "system" (CText prompt)
                    :: (List.filter (fun msg => negb (is_system msg)) (messages st) ++ extra))
      by reflexivity.
    split.
    + rewrite Hlist at 1. reflexivity.
    + rewrite Hlist at 1. rewrite <- Hlist. rewrite count_system_app, Hone, Hextra. done.
  - intros this er Hthis Hexec Hfail. subst np.
    rewrite (ProcessNode_run_unfold h this st pr Hprep), Hexec.
    destruct (ProcessNode_execCore_failure _ _ _ _ Hexec Hfail) as [error ->].
    eexists _, _. split; [reflexivity|].
    rewrite ProcessNode_post_messages. cbn [er_messages error_result]. done.
Qed.

(** C10: when [execCore] returns a failure result (success flag false),
    [post] stores the failure object, made of the result's error and error
    details, as last response; the messages of the shared state stay as
    they were, since a failure result carries no message list and [post]
    replaces the messages only by a non-empty list of the exec result; and
    a ProcessNode tracker entry is appended. *)
Theorem ProcessNode_post_failure_keeps_messages h this pr np er st :
  ProcessNode_execCore h pr np = Ok er ->
  er_success er = false ->
  let st' := snd (ProcessNode_post h this pr er st np) in
  lastResponse st' = Some (LRFailure (er_error er) (er_errorDetails er)) /\
  er_messages er = None /\
  messages st' = messages st /\
  (forall er' st0,
      messages (snd (ProcessNode_post h this pr er' st0 np)) =
      match er_messages er' with Some (m :: ms) => m :: ms | _ => messages st0 end) /\
  exists entry,
    nodeExecutionTracker st' = nodeExecutionTracker st ++ [entry] /\
    te_nodeType entry = "ProcessNode".
Proof.
  intros Hexec Hs. destruct (ProcessNode_execCore_failure _ _ _ _ Hexec Hs) as [error ->].
  simpl. repeat split.
  - unfold ProcessNode_post. simpl. by destruct (List.filter _ _).
  - unfold ProcessNode_post. simpl. by destruct (List.filter _ _).
  - intros er' st0. apply ProcessNode_post_messages.
  - unfold ProcessNode_post. simpl. destruct (List.filter _ _); simpl; eexists; split; done.
Qed.

(** ** Heap bookkeeping of [setParams] *)

Lemma update_node_lookup h l f n :
  nodes h !! l = Some n -> nodes (update_node h l f) !! l = Some (f n).
Proof.
  intros Hn. unfold update_node. rewrite Hn. simpl.
  apply list_lookup_insert_eq. by eapply lookup_lt_Some.
Qed.

Lemma update_node_other h l f l' :
  l <> l' -> nodes (update_node h l f) !! l' = nodes h !! l'.
Proof.
  intros Hne. unfold update_node. destruct (nodes h !! l); [|done].
  simpl. by apply list_lookup_insert_ne.
Qed.

Lemma update_node_maps h l f : maps (update_node h l f) = maps h.
Proof. unfold update_node. by destruct (nodes h !! l). Qed.

Lemma update_node_objs h l f : objs (update_node h l f) = objs h.
Proof. unfold update_node. by destruct (nodes h !! l). Qed.

Lemma update_node_length h l f : length (nodes (update_node h l f)) = length (nodes h).
Proof. unfold update_node. destruct (nodes h !! l); [|done]. simpl. apply length_insert. Qed.

Lemma setParams_lookup h c p np' cn :
  nodes h !! c = Some cn ->
  nodes (setParams h c p np') !! c = Some (after_setParams p np' cn).
Proof.
  intros Hn. unfold setParams, after_setParams.
  pose proof (update_node_lookup h c (with_flow_params p) cn Hn) as H1.
  destruct (truthy np'); [|exact H1].
  by rewrite (update_node_lookup _ _ _ _ H1).
Qed.

Lemma setParams_other h c p np' l :
  c <> l -> nodes (setParams h c p np') !! l = nodes h !! l.
Proof.
  intros Hne. unfold setParams. destruct (truthy np');
    rewrite ?update_node_other by done; done.
Qed.

Lemma setParams_maps h c p np' : maps (setParams h c p np') = maps h.
Proof. unfold setParams. destruct (truthy np'); by rewrite ?update_node_maps. Qed.

Lemma setParams_objs h c p np' : objs (setParams h c p np') = objs h.
Proof. unfold setParams. destruct (truthy np'); by rewrite ?update_node_objs. Qed.

Lemma opt_prop_objs h h' v k : objs h = objs h' -> opt_prop h v k = opt_prop h' v k.
Proof. intros Ho. unfold opt_prop. by rewrite Ho. Qed.

(** ** The loop *)

Lemma prepend_app tr tr' r : prepend tr (prepend tr' r) = prepend (tr ++ tr') r.
Proof. unfold prepend. simpl. by rewrite app_assoc. Qed.

Lemma prepend_nil r : prepend [] r = r.
Proof. by destruct r. Qed.

(** Once the loop has reached a node, it continues from there: the rounds
    already made only contribute their trace. *)
Lemma loop_reaches orch this fp np n h c st h' c' st' tr k :
  reaches orch this fp np n h c st h' c' st' tr ->
  loop orch (n + k) h this c st fp np = prepend tr (loop orch k h' this c' st' fp np).
Proof.
  induction 1 as [|n h c st h1 c1 st1 tr h2 c2 st2 tr' Hstep Hreach IH]; simpl.
  - by rewrite prepend_nil.
  - rewrite Hstep, IH. apply prepend_app.
Qed.

(** A round that ends the traversal ends the loop with the same result. *)
Lemma loop_reaches_done orch this fp np n h c st h' c' st' tr r k :
  reaches orch this fp np n h c st h' c' st' tr ->
  loop_body orch h' this c' st' fp np = Done r ->
  loop orch (n + S k) h this c st fp np = prepend tr r.
Proof.
  intros Hreach Hdone. rewrite (loop_reaches _ _ _ _ _ _ _ _ _ _ _ _ _ Hreach).
  simpl. by rewrite Hdone.
Qed.

Lemma orchestrate_entry f h this st fp np h0 c0 :
  find_entry h this st = EntryAt h0 c0 ->
  orchestrate (S f) h this st fp np = loop (orchestrate f) f h0 this c0 st fp np.
Proof. intros He. simpl. by rewrite He. Qed.

Lemma find_entry_fresh h this st :
  truthy (currentNodeId st) = false -> find_entry h this st = from_start h this.
Proof. intros Hc. unfold find_entry. by rewrite Hc. Qed.

(** ** The run facade *)

Lemma executeFlow_loop f h name init rf h1 flow fl npv h2 c0 :
  List.find (fun flow => String.eqb (rf_name flow) name) loadFlows = Some rf ->
  convert h rf = Some (Ok (h1, flow)) ->
  nodes h1 !! flow = Some fl ->
  prop h1 (flow_params fl) "nodeParams" = Ok npv ->
  find_entry h1 flow (initial_sharedState name init) = EntryAt h2 c0 ->
  executeFlow (S f) h name init =
  let r := loop (orchestrate f) f h2 flow c0 (initial_sharedState name init) (flow_params fl) npv in
  match outcome r with
  | Completed | Paused => Resolves (execution_result (final_state r)) (final_heap r) (final_state r)
  | Aborted e => Rejects e (final_heap r) (final_state r)
  | OutOfFuel => ExecOutOfFuel
  | Stuck => ExecStuck
  end.
Proof.
  intros Hfind Hconv Hfl Hnp Hentry. unfold executeFlow. rewrite Hfind, Hconv.
  unfold Flow_run. rewrite Hfl, Hnp. rewrite (orchestrate_entry _ _ _ _ _ _ _ _ Hentry).
  generalize (loop (orchestrate f) f h2 flow c0 (initial_sharedState name init) (flow_params fl) npv).
  intros [[] hh ss tt]; done.
Qed.

(** ** Finish node *)

Lemma FinishNode_post_action h this pr er st np :
  fst (FinishNode_post h this pr er st np) =
  match successor_keys h this with
  | a :: _ => a
  | [] => FINAL_RESPONSE_ACTION
  end.
Proof. unfold FinishNode_post. by destruct (successor_keys h this). Qed.

Lemma FinishNode_post_stores h this pr er st np s :
  last (fp_messages pr) = Some (mkMsg "assistant" (CText s)) ->
  s <> "" ->
  lastResponse (snd (FinishNode_post h this pr er st np)) = Some (LRText s).
Proof.
  intros Hlast Hs. unfold FinishNode_post. rewrite Hlast. simpl.
  destruct (String.eqb_spec s ""); [done|]. simpl.
  by destruct (successor_keys h this).
Qed.

Lemma FinishNode_post_skips h this pr er st np m :
  last (fp_messages pr) = Some m ->
  content_truthy (content m) = false ->
  lastResponse (snd (FinishNode_post h this pr er st np)) = lastResponse st.
Proof.
  intros Hlast Hc. unfold FinishNode_post. rewrite Hlast, Hc, andb_false_r.
  destruct (successor_keys h this); simpl; by destruct (ENABLE_EXECUTION_TRACKER && _).
Qed.

Lemma FinishNode_post_frame h this pr er st np :
  let st' := snd (FinishNode_post h this pr er st np) in
  messages st' = messages st /\ currentNodeId st' = currentNodeId st /\
  startTime st' = startTime st /\ topTracker st' = topTracker st.
Proof.
  unfold FinishNode_post.
  destruct (successor_keys h this); simpl;
    destruct (ENABLE_EXECUTION_TRACKER && _); simpl;
    destruct (last (fp_messages pr)) as [m|]; simpl; try done;
    destruct (String.eqb (role m) "assistant" && content_truthy (content m)); simpl; try done;
    destruct (content m); done.
Qed.

(** One round of the loop on a finish node without outgoing edges: the
    traversal completes there. *)
Lemma loop_body_finish orch h this c st fp np fl cn p np' :
  nodes h !! this = Some fl ->
  nodes h !! c = Some cn ->
  kind cn = FinishNode ->
  maps h !! successors cn = Some [] ->
  resolve_params h fl cn fp np = Ok (p, np') ->
  FINAL_RESPONSE_ACTION <> STAY_ON_NODE_ACTION ->
  let h1 := setParams h c p np' in
  let c1 := after_setParams p np' cn in
  let st1 := snd (FinishNode_post h1 c1 (FinishNode_prep h1 st (node_params c1))
                    (mkFinishExec true) st (node_params c1)) in
  loop_body orch h this c st fp np =
  Done (mkRun Completed h1 (set_currentNodeId st1 VUndefined) [c]).
Proof.
  intros Hfl Hcn Hkind Hmap Hparams Hne. simpl. unfold loop_body.
  rewrite Hcn, Hfl, Hparams. rewrite (setParams_lookup _ _ _ _ _ Hcn).
  unfold node_run. simpl. rewrite Hkind. unfold BaseNode_run. simpl.
  destruct (FinishNode_post _ _ _ _ _ _) as [a st'] eqn:Hpost. simpl.
  assert (Ha : a = FINAL_RESPONSE_ACTION).
  { pose proof (FinishNode_post_action (setParams h c p np') (after_setParams p np' cn)
      (FinishNode_prep (setParams h c p np') st (if truthy np' then np' else node_params cn))
      (FinishNode_execCore (FinishNode_prep (setParams h c p np') st
         (if truthy np' then np' else node_params cn)) (if truthy np' then np' else node_params cn))
      st (if truthy np' then np' else node_params cn)) as Hact.
    rewrite Hpost in Hact. simpl in Hact. rewrite Hact.
    unfold successor_keys. simpl. by rewrite setParams_maps, Hmap. }
  subst a. destruct (String.eqb_spec FINAL_RESPONSE_ACTION STAY_ON_NODE_ACTION); [done|].
  unfold getSuccessor. rewrite (setParams_lookup _ _ _ _ _ Hcn). simpl.
  rewrite setParams_maps, Hmap. done.
Qed.

(** C7 (amended): for a finish node whose message history ends with an
    assistant message with a non-empty string content, [post] stores that
    content as the last response; content made of parts is stored together
    with the role, and an assistant message without content or with empty
    content leaves the last response as it was; [post] returns the first
    outgoing edge's action when there is one and the final-response token
    otherwise; and when a run reaches a finish node without outgoing edges
    in a state whose messages end with such an assistant message, the run
    completes there and [executeFlow] resolves with that content as
    [result] (the reserved tokens being distinct). *)
Theorem FinishNode_post_final_response :
  (forall h this pr er st np s,
      last (fp_messages pr) = Some (mkMsg "assistant" (CText s)) -> s <> "" ->
      lastResponse (snd (FinishNode_post h this pr er st np)) = Some (LRText s)) /\
  (forall h this pr er st np parts,
      last (fp_messages pr) = Some (mkMsg "assistant" (CParts parts)) ->
      lastResponse (snd (FinishNode_post h this pr er st np))
        = Some (LRContent (CParts parts) "assistant")) /\
  (forall h this pr er st np m,
      last (fp_messages pr) = Some m -> content_truthy (content m) = false ->
      lastResponse (snd (FinishNode_post h this pr er st np)) = lastResponse st) /\
  (forall h this pr er st np,
      (successor_keys h this = [] /\
       fst (FinishNode_post h this pr er st np) = FINAL_RESPONSE_ACTION) \/
      (exists a r, successor_keys h this = a :: r /\
       fst (FinishNode_post h this pr er st np) = a)) /\
  (forall n k h name init rf h1 flow fl npv h2 c0 h3 c st tr fl3 cn p np' s,
      FINAL_RESPONSE_ACTION <> STAY_ON_NODE_ACTION ->
      List.find (fun flow => String.eqb (rf_name flow) name) loadFlows = Some rf ->
      convert h rf = Some (Ok (h1, flow)) ->
      nodes h1 !! flow = Some fl ->
      prop h1 (flow_params fl) "nodeParams" = Ok npv ->
      find_entry h1 flow (initial_sharedState name init) = EntryAt h2 c0 ->
      reaches (orchestrate (n + S k)) flow (flow_params fl) npv n
        h2 c0 (initial_sharedState name init) h3 c st tr ->
      nodes h3 !! flow = Some fl3 ->
      nodes h3 !! c = Some cn ->
      kind cn = FinishNode ->
      maps h3 !! successors cn = Some [] ->
      resolve_params h3 fl3 cn (flow_params fl) npv = Ok (p, np') ->
      last (messages st) = Some (mkMsg "assistant" (CText s)) -> s <> "" ->
      exists r h' st',
        executeFlow (S (n + S k)) h name init = Resolves r h' st' /\
        result r = LRText s /\
        lastResponse st' = Some (LRText s) /\
        currentNodeId st' = VUndefined).
Proof.
  split; [intros; by eapply FinishNode_post_stores|].
  split.
  { intros h this pr er st np parts Hlast. unfold FinishNode_post. rewrite Hlast. simpl.
    by destruct (successor_keys h this). }
  split; [intros; by eapply FinishNode_post_skips|].
  split.
  { intros h this pr er st np. rewrite FinishNode_post_action.
    destruct (successor_keys h this) as [|a r]; [left; done | right; by exists a, r]. }
  intros n k h name init rf h1 flow fl npv h2 c0 h3 c st tr fl3 cn p np' s
    Hne Hfind Hconv Hfl Hnp Hentry Hreach Hfl3 Hcn Hkind Hmap Hparams Hlast Hs.
  rewrite (executeFlow_loop _ _ _ _ _ _ _ _ _ _ _ Hfind Hconv Hfl Hnp Hentry).
  pose proof (loop_body_finish (orchestrate (n + S k)) h3 flow c st (flow_params fl) npv
                fl3 cn p np' Hfl3 Hcn Hkind Hmap Hparams Hne) as Hbody.
  simpl in Hbody.
  rewrite (loop_reaches_done _ _ _ _ _ _ _ _ _ _ _ _ _ k Hreach Hbody).
  simpl.
  assert (Hlr : lastResponse
            (snd (FinishNode_post (setParams h3 c p np') (after_setParams p np' cn)
                    (FinishNode_prep (setParams h3 c p np') st
                       (if truthy np' then np' else node_params cn))
                    (mkFinishExec true) st (if truthy np' then np' else node_params cn)))
          = Some (LRText s)).
  { by apply FinishNode_post_stores. }
  eexists _, _, _. split; [reflexivity|]. simpl. rewrite Hlr. simpl.
  destruct (String.eqb_spec s ""); [done|]. done.
Qed.

(** ** Model failures *)

Lemma obj_get_set k k' v o :
  obj_get k (obj_set k' v o) = if String.eqb k k' then v else obj_get k o.
Proof.
  induction o as [|[k0 v0] r IH]; simpl.
  - by destruct (String.eqb k k').
  - destruct (String.eqb_spec k' k0) as [->|Hne]; simpl.
    + by destruct (String.eqb k k0).
    + destruct (String.eqb_spec k k0) as [->|Hne'].
      * destruct (String.eqb_spec k0 k'); [by subst|done].
      * exact IH.
Qed.

Lemma obj_get_spread_absent k src o :
  obj_has k src = false -> obj_get k (obj_spread src o) = obj_get k o.
Proof.
  unfold obj_spread. revert o. induction src as [|[k0 v0] r IH]; intros o; simpl; [done|].
  intros Hhas. apply orb_false_iff in Hhas as [Hk Hr].
  rewrite IH by done. rewrite obj_get_set. simpl. by rewrite Hk.
Qed.

Lemma obj_get_spread_present k src o :
  NoDup (map fst src) -> obj_has k src = true ->
  obj_get k (obj_spread src o) = obj_get k src.
Proof.
  unfold obj_spread. revert o. induction src as [|[k0 v0] r IH]; intros o Hnd; simpl; [done|].
  inversion Hnd as [|? ? Hnotin Hnd']; subst. intros Hhas.
  destruct (String.eqb_spec k k0) as [->|Hne].
  - assert (Hr : obj_has k0 r = false).
    { clear -Hnotin. induction r as [|[k1 v1] r IH]; simpl; [done|].
      simpl in Hnotin. apply not_elem_of_cons in Hnotin as [Hne Hr].
      rewrite IH by done. destruct (String.eqb_spec k0 k1); [by subst|done]. }
    pose proof (obj_get_spread_absent k0 r (obj_set k0 v0 o) Hr) as Habs.
    unfold obj_spread in Habs. rewrite Habs, obj_get_set. by rewrite String.eqb_refl.
  - simpl in Hhas. by apply IH.
Qed.

Lemma model_error_details_field e k v :
  In (k, v) [("message", VStr (pe_message e)); ("type", VStr (pe_type e)); ("code", pe_code e)] ->
  obj_has k (pe_details e) = false ->
  obj_get k (model_error_details e) = v.
Proof.
  intros Hin Habs. unfold model_error_details.
  rewrite obj_get_spread_absent by done. rewrite !obj_get_set.
  destruct (String.eqb (pe_type e) "model"); rewrite ?obj_get_set;
    simpl in Hin; destruct Hin as [H|[H|[H|[]]]]; inversion H; subst; done.
Qed.

Lemma ProcessNode_execCore_model_failure h pr np tools err :
  prepare_tools pr = Ok tools ->
  callModel (model_call h pr np tools) = CallResolves (inl err) ->
  ProcessNode_execCore h pr np = Throw (model_error err).
Proof.
  intros Htools Hcall. unfold ProcessNode_execCore. by rewrite Htools, Hcall.
Qed.

(** One round of the loop on a process node whose model call fails: the
    traversal is aborted there, before [post]. *)
Lemma loop_body_model_failure orch h this c st fp np fl cn p np' pr tools err :
  nodes h !! this = Some fl ->
  nodes h !! c = Some cn ->
  kind cn = ProcessNode ->
  resolve_params h fl cn fp np = Ok (p, np') ->
  let h1 := setParams h c p np' in
  let c1 := after_setParams p np' cn in
  ProcessNode_prep h1 st (node_params c1) = Ok pr ->
  prepare_tools pr = Ok tools ->
  callModel (model_call h1 pr (node_params c1) tools) = CallResolves (inl err) ->
  loop_body orch h this c st fp np = Done (mkRun (Aborted (model_error err)) h1 st [c]).
Proof.
  intros Hfl Hcn Hkind Hparams h1 c1 Hprep Htools Hcall. unfold loop_body.
  rewrite Hcn, Hfl, Hparams. rewrite (setParams_lookup _ _ _ _ _ Hcn).
  unfold node_run. simpl. rewrite Hkind. unfold BaseNode_run. simpl.
  subst h1 c1. simpl in Hprep, Hcall. rewrite Hprep. unfold execWrapper.
  by rewrite (ProcessNode_execCore_model_failure _ _ _ _ _ Htools Hcall).
Qed.

(** C2 (amended): when the model invocation of a process node returns a
    failure, [execCore] throws an error marked as a model error, whose
    message embeds the provider's message and whose details hold the
    provider's message, type and code wherever the provider's own details
    bag has no entry of that name (an entry of the bag takes precedence);
    the error leaves the orchestration loop, which runs no further node and
    resolves no successor (the trace ends at the failing node and the heap
    is the one [setParams] left), and the run call, which rejects with it;
    the shared state, hence the tracker, is the one the failing node was
    entered with. *)
Theorem ProcessNode_model_failure_aborts_run :
  (forall h pr np tools err,
      prepare_tools pr = Ok tools ->
      callModel (model_call h pr np tools) = CallResolves (inl err) ->
      ProcessNode_execCore h pr np = Throw (model_error err) /\
      has_isModelError (model_error err) = true /\
      err_message (model_error err) = "Model execution failed: " +:+ pe_message err /\
      (forall k v,
          In (k, v) [("message", VStr (pe_message err)); ("type", VStr (pe_type err));
                     ("code", pe_code err)] ->
          (obj_has k (pe_details err) = false ->
           obj_get k (err_details (model_error err)) = v) /\
          (NoDup (map fst (pe_details err)) -> obj_has k (pe_details err) = true ->
           obj_get k (err_details (model_error err)) = obj_get k (pe_details err)))) /\
  (forall orch this fp np n k h0 c0 st0 h c st tr fl cn p np' pr tools err,
      reaches orch this fp np n h0 c0 st0 h c st tr ->
      nodes h !! this = Some fl ->
      nodes h !! c = Some cn ->
      kind cn = ProcessNode ->
      resolve_params h fl cn fp np = Ok (p, np') ->
      ProcessNode_prep (setParams h c p np') st (node_params (after_setParams p np' cn)) = Ok pr ->
      prepare_tools pr = Ok tools ->
      callModel (model_call (setParams h c p np') pr (node_params (after_setParams p np' cn)) tools)
        = CallResolves (inl err) ->
      loop orch (n + S k) h0 this c0 st0 fp np =
      mkRun (Aborted (model_error err)) (setParams h c p np') st (tr ++ [c])) /\
  (forall n k h name init rf h1 flow fl0 npv h2 c0 h3 c st tr fl cn p np' pr tools err,
      List.find (fun flow => String.eqb (rf_name flow) name) loadFlows = Some rf ->
      convert h rf = Some (Ok (h1, flow)) ->
      nodes h1 !! flow = Some fl0 ->
      prop h1 (flow_params fl0) "nodeParams" = Ok npv ->
      find_entry h1 flow (initial_sharedState name init) = EntryAt h2 c0 ->
      reaches (orchestrate (n + S k)) flow (flow_params fl0) npv n
        h2 c0 (initial_sharedState name init) h3 c st tr ->
      nodes h3 !! flow = Some fl ->
      nodes h3 !! c = Some cn ->
      kind cn = ProcessNode ->
      resolve_params h3 fl cn (flow_params fl0) npv = Ok (p, np') ->
      ProcessNode_prep (setParams h3 c p np') st (node_params (after_setParams p np' cn)) = Ok pr ->
      prepare_tools pr = Ok tools ->
      callModel (model_call (setParams h3 c p np') pr (node_params (after_setParams p np' cn)) tools)
        = CallResolves (inl err) ->
      executeFlow (S (n + S k)) h name init =
      Rejects (model_error err) (setParams h3 c p np') st).
Proof.
  split; [|split].
  - intros h pr np tools err Htools Hcall.
    split; [by eapply ProcessNode_execCore_model_failure|].
    split; [done|]. split; [done|].
    intros k v Hin. split.
    + intros Habs. by apply model_error_details_field.
    + intros Hnd Hhas. simpl. unfold model_error_details.
      by apply obj_get_spread_present.
  - intros orch this fp np n k h0 c0 st0 h c st tr fl cn p np' pr tools err
      Hreach Hfl Hcn Hkind Hparams Hprep Htools Hcall.
    rewrite (loop_reaches_done _ _ _ _ _ _ _ _ _ _ _ _ _ k Hreach
               (loop_body_model_failure orch _ _ _ _ _ _ _ _ _ _ _ _ _
                  Hfl Hcn Hkind Hparams Hprep Htools Hcall)).
    done.
  - intros n k h name init rf h1 flow fl0 npv h2 c0 h3 c st tr fl cn p np' pr tools err
      Hfind Hconv Hfl0 Hnp Hentry Hreach Hfl Hcn Hkind Hparams Hprep Htools Hcall.
    rewrite (executeFlow_loop _ _ _ _ _ _ _ _ _ _ _ Hfind Hconv Hfl0 Hnp Hentry).
    rewrite (loop_reaches_done _ _ _ _ _ _ _ _ _ _ _ _ _ k Hreach
               (loop_body_model_failure _ _ _ _ _ _ _ _ _ _ _ _ _ _
                  Hfl Hcn Hkind Hparams Hprep Htools Hcall)).
    done.
Qed.

(** ** Graph construction *)

Lemma heap_ext_refl h : heap_ext h h.
Proof. split; [intros l n Hn; by exists n | done]. Qed.

Lemma heap_ext_trans h1 h2 h3 : heap_ext h1 h2 -> heap_ext h2 h3 -> heap_ext h1 h3.
Proof.
  intros [Hn1 Hm1] [Hn2 Hm2]. split.
  - intros l n Hl. destruct (Hn1 l n Hl) as (n' & Hl' & Hk & Hs).
    destruct (Hn2 l n' Hl') as (n'' & Hl'' & Hk' & Hs').
    exists n''. split; [done|]. split; congruence.
  - intros l Hl. by apply Hm2, Hm1.
Qed.

Lemma node_ok_ext h h' l : heap_ext h h' -> node_ok h l -> node_ok h' l.
Proof.
  intros [Hn Hm] (n & Hl & Hs). destruct (Hn l n Hl) as (n' & Hl' & _ & Hs').
  exists n'. split; [done|]. rewrite Hs'. by apply Hm.
Qed.

Lemma heap_ext_alloc_obj h p : heap_ext h (fst (alloc_obj h p)).
Proof. split; [intros l n Hn; by exists n | done]. Qed.

Lemma heap_ext_alloc_map h es : heap_ext h (fst (alloc_map h es)).
Proof.
  split; [intros l n Hn; by exists n|]. simpl. intros l [x Hl].
  exists x. by apply lookup_app_l_Some.
Qed.

Lemma heap_ext_alloc_node h n : heap_ext h (fst (alloc_node h n)).
Proof.
  split; [|done]. simpl. intros l n0 Hl. exists n0. split; [|done].
  by apply lookup_app_l_Some.
Qed.

Lemma heap_ext_set_objs h o : heap_ext h (set_objs h o).
Proof. split; [intros l n Hn; by exists n | done]. Qed.

Lemma heap_ext_update_node h l f :
  (forall n, kind (f n) = kind n /\ successors (f n) = successors n) ->
  heap_ext h (update_node h l f).
Proof.
  intros Hf. split; [|by rewrite update_node_maps].
  intros l' n Hn. destruct (decide (l = l')) as [->|Hne].
  - exists (f n). split; [by apply update_node_lookup|]. apply Hf.
  - exists n. split; [by rewrite update_node_other|done].
Qed.

Lemma heap_ext_setParams h c p np' : heap_ext h (setParams h c p np').
Proof.
  unfold setParams. destruct (truthy np').
  - eapply heap_ext_trans; apply heap_ext_update_node; done.
  - by apply heap_ext_update_node.
Qed.

Lemma heap_ext_new_node k h : heap_ext h (fst (new_node k h)).
Proof.
  unfold new_node. simpl. split; simpl.
  - intros l n Hn. exists n. split; [by apply lookup_app_l_Some | done].
  - intros l [x Hl]. exists x. by apply lookup_app_l_Some.
Qed.

Lemma new_node_ok k h : node_ok (fst (new_node k h)) (snd (new_node k h)).
Proof.
  unfold new_node, node_ok. simpl. eexists. split.
  - apply list_lookup_middle. done.
  - simpl. exists []. by apply list_lookup_middle.
Qed.

Lemma new_node_lookup k h :
  exists n, nodes (fst (new_node k h)) !! snd (new_node k h) = Some n /\ kind n = k.
Proof.
  unfold new_node. simpl. eexists. split; [by apply list_lookup_middle|done].
Qed.

Lemma createNode_ok h node h' l :
  createNode h node = Ok (h', l) -> heap_ext h h' /\ node_ok h' l.
Proof.
  unfold createNode. destruct (kind_of_type (fn_type node)) as [k|]; [|done].
  destruct (new_node k h) as [h1 pn] eqn:Hnew.
  pose proof (heap_ext_new_node k h) as Hext. pose proof (new_node_ok k h) as Hok.
  rewrite Hnew in Hext, Hok. simpl in Hext, Hok.
  destruct (truthy (fn_properties node)).
  - intros H. inversion H; subst; clear H.
    assert (Hext2 : heap_ext h1 (setParams
              (set_objs h1 (objs h1 ++ [PObject [("id", VStr (fn_id node)); ("label", fn_label node);
                  ("type", VStr (fn_type node)); ("properties", fn_properties node)]]))
              l (VRef (length (objs h1))) VUndefined)).
    { eapply heap_ext_trans; [apply heap_ext_set_objs | apply heap_ext_setParams]. }
    split; [by eapply heap_ext_trans | by eapply node_ok_ext].
  - simpl. intros H. inversion H; subst; clear H.
    match goal with |- heap_ext h ?X /\ _ => assert (Hext2 : heap_ext h1 X) end.
    { eapply heap_ext_trans; [apply (heap_ext_set_objs h1)|].
      eapply heap_ext_trans; [apply heap_ext_set_objs | apply heap_ext_setParams]. }
    split; [by eapply heap_ext_trans | by eapply node_ok_ext].
Qed.

Lemma valid_map_ext h h' m : heap_ext h h' -> valid_map h m -> valid_map h' m.
Proof.
  intros Hext Hm. eapply Forall_impl; [exact Hm|]. intros e. by apply node_ok_ext.
Qed.

Lemma valid_map_set h m k l : valid_map h m -> node_ok h l -> valid_map h (map_set k l m).
Proof.
  intros Hm Hl. induction Hm as [|[k0 l0] r H0 Hr IH]; simpl.
  - by repeat constructor.
  - destruct (String.eqb k k0); constructor; done.
Qed.

Lemma valid_map_get h m k l : valid_map h m -> map_get k m = Some l -> node_ok h l.
Proof.
  intros Hm. induction Hm as [|[k0 l0] r H0 Hr IH]; simpl; [done|].
  destruct (String.eqb k k0); [|done]. intros H. by inversion H; subst.
Qed.

Lemma map_get_set_same {A} k (x : A) m : map_get k (map_set k x m) = Some x.
Proof.
  induction m as [|[k0 y] r IH]; simpl.
  - by rewrite String.eqb_refl.
  - destruct (String.eqb_spec k k0) as [->|Hne]; simpl.
    + by rewrite String.eqb_refl.
    + destruct (String.eqb_spec k k0); [done|exact IH].
Qed.

Lemma map_get_set_keeps {A} k k' (x : A) m :
  is_Some (map_get k' m) -> is_Some (map_get k' (map_set k x m)).
Proof.
  induction m as [|[k0 y] r IH]; simpl; [by intros [? ?]|].
  destruct (String.eqb_spec k k0) as [->|Hne]; simpl.
  - destruct (String.eqb k' k0); [done|done].
  - destruct (String.eqb k' k0); [done|exact IH].
Qed.

Lemma create_nodes_ok ns : forall h m h' m',
  create_nodes h ns m = Ok (h', m') ->
  valid_map h m ->
  heap_ext h h' /\ valid_map h' m' /\
  (forall k, is_Some (map_get k m) -> is_Some (map_get k m')) /\
  (forall n, In n ns -> is_Some (map_get (fn_id n) m')).
Proof.
  induction ns as [|node r IH]; intros h m h' m'; simpl.
  - intros H Hm. inversion H; subst. split; [apply heap_ext_refl|]. by repeat split.
  - destruct (createNode h node) as [[h1 l]|e] eqn:Hc; [|done].
    intros Hr Hm. destruct (createNode_ok _ _ _ _ Hc) as [Hext Hok].
    destruct (IH _ _ _ _ Hr) as (Hext' & Hm' & Hkeep & Hin).
    { apply valid_map_set; [by eapply valid_map_ext | done]. }
    split; [|split; [|split]].
    + by eapply heap_ext_trans.
    + done.
    + intros k Hk. by apply Hkeep, map_get_set_keeps.
    + intros n [<-|Hn]; [|by apply Hin].
      apply Hkeep. rewrite map_get_set_same. by eexists.
Qed.

Lemma addSuccessor_ok h this target action :
  node_ok h this ->
  exists h' r, addSuccessor h this target action = Some (h', r) /\ heap_ext h h'.
Proof.
  intros (n & Hn & [es Hes]). unfold addSuccessor. rewrite Hn. simpl. rewrite Hes. simpl.
  destruct (map_has action es).
  - eexists _, _. split; [done | apply heap_ext_refl].
  - eexists _, _. split; [done|]. split; [intros l n0 Hl; by exists n0|].
    simpl. intros l [x Hl]. apply lookup_lt_is_Some. rewrite length_insert.
    by eapply lookup_lt_Some.
Qed.

Lemma connect_edges_ok es : forall h m,
  valid_map h m ->
  exists r, connect_edges h es m = Some r /\
            match r with Ok h' => heap_ext h h' | Throw _ => True end.
Proof.
  induction es as [|edge r IH]; intros h m Hm; simpl.
  - eexists. split; [done | apply heap_ext_refl].
  - destruct (map_get (e_source edge) m) as [src|] eqn:Hsrc; [|by apply IH].
    destruct (map_get (e_target edge) m) as [tgt|] eqn:Htgt; [|by apply IH].
    destruct (addSuccessor_ok h src tgt (if String.eqb (e_id edge) "" then "default" else e_id edge))
      as (h' & res & Hadd & Hext); [by eapply valid_map_get|].
    rewrite Hadd. simpl. destruct res as [[]|e].
    + destruct (IH h' m) as (r' & Hr' & Hext'); [by eapply valid_map_ext|].
      exists r'. split; [done|]. destruct r'; [by eapply heap_ext_trans | done].
    + by eexists.
Qed.

Lemma find_start_none (ns : list FlowNode) :
  Forall (fun node => fn_type node <> "start") ns ->
  List.find (fun node => String.eqb (fn_type node) "start") ns = None.
Proof.
  induction 1 as [|n r Hn Hr IH]; simpl; [done|].
  destruct (String.eqb_spec (fn_type n) "start"); [done|exact IH].
Qed.

Lemma nodeParams_table_ok h m :
  valid_map h m ->
  is_Some (foldl (fun acc e =>
                    o ← acc;
                    n ← nodes h !! snd e;
                    Some (obj_set (fst e) (flow_params n) o)) (Some []) m).
Proof.
  generalize (@nil (string * value)). intros o0 Hm. revert o0.
  induction Hm as [|[k l] r (n & Hn & _) Hr IH]; intros o0; simpl; [by eexists|].
  simpl in Hn. rewrite Hn. simpl. apply IH.
Qed.

Lemma convert_without_start h rf :
  Forall (fun node => fn_type node <> "start") (rf_nodes rf) ->
  exists e, convert h rf = Some (Throw e).
Proof.
  intros Hno. unfold convert.
  destruct (create_nodes h (rf_nodes rf) []) as [[h1 m]|e] eqn:Hc; [|by eexists].
  destruct (create_nodes_ok _ _ _ _ _ Hc) as (_ & Hm & _); [constructor|].
  destruct (connect_edges_ok (rf_edges rf) h1 m Hm) as ([h2|e] & Hr & _);
    rewrite Hr; simpl; [|by eexists].
  rewrite (find_start_none _ Hno). by eexists.
Qed.

(** C4 (amended): graph construction requires at least one node of type
    [start].  Building a description without such a node throws, and
    [executeFlow] then rejects before any traversal, the initial state
    being as it was.  A description with one or more start-type nodes whose
    nodes are created and wired without error is built successfully: the
    flow starts at the node registered under the identifier of the first
    start-type node of the description. *)
Theorem convert_requires_a_start_node :
  (forall h rf,
      Forall (fun node => fn_type node <> "start") (rf_nodes rf) ->
      (exists e, convert h rf = Some (Throw e)) /\
      (forall fuel init,
          List.find (fun flow => String.eqb (rf_name flow) (rf_name rf)) loadFlows = Some rf ->
          exists e, executeFlow fuel h (rf_name rf) init = Rejects e h init)) /\
  (forall h rf first h1 m h2,
      List.find (fun node => String.eqb (fn_type node) "start") (rf_nodes rf) = Some first ->
      create_nodes h (rf_nodes rf) [] = Ok (h1, m) ->
      connect_edges h1 (rf_edges rf) m = Some (Ok h2) ->
      exists h' flow startNode fl,
        convert h rf = Some (Ok (h', flow)) /\
        map_get (fn_id first) m = Some startNode /\
        nodes h' !! flow = Some fl /\
        kind fl = Flow startNode).
Proof.
  split.
  - intros h rf Hno. destruct (convert_without_start h rf Hno) as [e He].
    split; [by exists e|]. intros fuel init Hfind. exists e.
    unfold executeFlow. by rewrite Hfind, He.
  - intros h rf first h1 m h2 Hfind Hc Hw.
    destruct (create_nodes_ok _ _ _ _ _ Hc) as (_ & Hm & _ & Hin); [constructor|].
    destruct (Hin first) as [l Hl]; [by eapply find_some|].
    unfold convert. rewrite Hc, Hw. cbn -[new_node setParams alloc_obj foldl].
    rewrite Hfind, Hl.
    destruct (new_node (Flow l) h2) as [h3 flow] eqn:Hnew.
    pose proof (heap_ext_new_node (Flow l) h2) as Hext.
    pose proof (new_node_lookup (Flow l) h2) as (fl & Hfl & Hk).
    rewrite Hnew in Hext, Hfl. simpl in Hext, Hfl.
    assert (Hm3 : valid_map h3 m).
    { eapply valid_map_ext; [exact Hext|].
      destruct (connect_edges_ok (rf_edges rf) h1 m Hm) as (r & Hr & Hext').
      rewrite Hw in Hr. inversion Hr; subst. by eapply valid_map_ext. }
    destruct (nodeParams_table_ok h3 m Hm3) as [tbl Htbl]. rewrite Htbl.
    cbn -[setParams].
    eexists _, flow, l, (with_flow_params _ fl). split; [reflexivity|]. split; [done|].
    split; [|exact Hk].
    unfold setParams. simpl. by apply update_node_lookup.
Qed.

(** ** Deep copies *)

Lemma val_in_weaken a b b' v : b <= b' -> val_in a b v -> val_in a b' v.
Proof. destruct v; simpl; lia. Qed.

Lemma copied_weaken a b b' v v' : b <= b' -> copied a b v v' -> copied a b' v v'.
Proof.
  intros Hb. destruct v; simpl; try done. intros (r & -> & Hr). exists r. split; [done|lia].
Qed.

Lemma clone_step_refl n0 o m : clone_state n0 o m -> clone_step n0 o m o m.
Proof. intros Hs. split; [done|]. split; [lia|]. by split. Qed.

Lemma clone_step_trans n0 o1 m1 o2 m2 o3 m3 :
  clone_step n0 o1 m1 o2 m2 -> clone_step n0 o2 m2 o3 m3 -> clone_step n0 o1 m1 o3 m3.
Proof.
  intros (_ & Hl1 & Hk1 & Hm1) (Hs & Hl2 & Hk2 & Hm2).
  split; [done|]. split; [lia|]. split.
  - intros l Hl. rewrite Hk2 by done. by apply Hk1.
  - intros l Hl. by apply Hm2, Hm1.
Qed.

Lemma children_rebuild p vs v : In v (children (rebuild p vs)) -> In v vs.
Proof.
  destruct p as [ps|es]; simpl; [|done].
  intros Hin. apply in_map_iff in Hin as ([k x] & <- & Hin). simpl.
  by apply in_combine_r in Hin.
Qed.

Lemma cloneList_inv n0 (rec : cloner) :
  (forall o m v o' m' v',
      rec o m v = Some (o', m', v') -> clone_state n0 o m -> val_in 0 n0 v ->
      clone_step n0 o m o' m' /\ copied n0 (length o') v v') ->
  forall vs o m o' m' vs',
    cloneList rec vs o m = Some (o', m', vs') ->
    clone_state n0 o m ->
    Forall (val_in 0 n0) vs ->
    clone_step n0 o m o' m' /\ Forall2 (copied n0 (length o')) vs vs'.
Proof.
  intros Hrec. induction vs as [|v r IH]; intros o m o' m' vs' Hc Hs Hvs; simpl in Hc.
  - inversion Hc; subst. split; [by apply clone_step_refl | constructor].
  - inversion Hvs as [|? ? Hv Hr]; subst.
    destruct (rec o m v) as [[[o1 m1] v1]|] eqn:Hrv; [|done].
    destruct (cloneList rec r o1 m1) as [[[o2 m2] r']|] eqn:Hrr; [|done].
    inversion Hc; subst.
    destruct (Hrec _ _ _ _ _ _ Hrv Hs Hv) as [Hstep1 Hcp1].
    destruct (IH _ _ _ _ _ Hrr) as [Hstep2 Hcp2]; [apply Hstep1 | done |].
    split; [by eapply clone_step_trans|].
    constructor; [|done].
    eapply copied_weaken; [|exact Hcp1]. apply Hstep2.
Qed.

Lemma clone_state_alloc n0 o m l p :
  clone_state n0 o m -> l < n0 ->
  clone_state n0 (o ++ [blank p]) ((l, length o) :: m).
Proof.
  intros (Hlen & Horig & Hmemo & Hnew) Hl. unfold clone_state. rewrite length_app. simpl.
  split; [lia|]. split; [|split].
  - intros l0 p0 v Hl0 Hp0 Hv. apply (Horig l0 p0 v); [done| |done].
    rewrite lookup_app_l in Hp0 by lia. done.
  - intros l0 l' Hget. simpl in Hget. destruct (Nat.eqb l0 l).
    + inversion Hget; subst. lia.
    + apply Hmemo in Hget. lia.
  - intros l0 p0 v Hl0 Hp0 Hv.
    destruct (decide (l0 < length o)) as [Hlt|Hge].
    + rewrite lookup_app_l in Hp0 by done.
      eapply val_in_weaken; [|apply (Hnew l0 p0 v); [lia|done|done]]. lia.
    + assert (l0 = length o) as -> by lia.
      rewrite list_lookup_middle in Hp0 by done. inversion Hp0; subst.
      by destruct p.
Qed.

Lemma clone_state_fill n0 o m l' q :
  clone_state n0 o m -> n0 <= l' ->
  (forall v, In v (children q) -> val_in n0 (length o) v) ->
  clone_state n0 (<[l' := q]> o) m.
Proof.
  intros (Hlen & Horig & Hmemo & Hnew) Hl' Hq. unfold clone_state. rewrite length_insert.
  split; [done|]. split; [|split; [done|]].
  - intros l0 p0 v Hl0 Hp0 Hv. apply (Horig l0 p0 v); [done| |done].
    rewrite list_lookup_insert_ne in Hp0 by lia. done.
  - intros l0 p0 v Hl0 Hp0 Hv. destruct (decide (l' = l0)) as [->|Hne].
    + destruct (decide (l0 < length o)) as [Hlt|Hge].
      * rewrite list_lookup_insert_eq in Hp0 by done. inversion Hp0; subst. by apply Hq.
      * rewrite list_insert_ge in Hp0 by lia. by apply (Hnew l0 p0 v).
    + rewrite list_lookup_insert_ne in Hp0 by done. by apply (Hnew l0 p0 v).
Qed.

Lemma baseClone_inv n0 fuel : forall o m v o' m' v',
  baseClone fuel o m v = Some (o', m', v') ->
  clone_state n0 o m -> val_in 0 n0 v ->
  clone_step n0 o m o' m' /\ copied n0 (length o') v v'.
Proof.
  induction fuel as [|f IH]; intros o m v o' m' v' Hc Hs Hv; [done|].
  simpl in Hc.
  destruct v as [| | | | |l];
    try (inversion Hc; subst; split; [by apply clone_step_refl | done]).
  destruct (memo_get l m) as [l'|] eqn:Hget.
  { inversion Hc; subst. split; [by apply clone_step_refl|].
    exists l'. split; [done|]. by apply Hs in Hget. }
  simpl in Hv.
  destruct (o !! l) as [p|] eqn:Hp.
  2:{ apply lookup_ge_None in Hp. destruct Hs as (Hlen & _). lia. }
  destruct (cloneList (baseClone f) (children p) (o ++ [blank p]) ((l, length o) :: m))
    as [[[o2 m2] vs]|] eqn:Hcl; [|done].
  inversion Hc; subst; clear Hc.
  assert (Hs1 : clone_state n0 (o ++ [blank p]) ((l, length o) :: m)).
  { apply clone_state_alloc; [done|lia]. }
  destruct (cloneList_inv n0 (baseClone f) IH _ _ _ _ _ _ Hcl Hs1) as [Hstep Hcp].
  { apply Forall_forall. intros v Hin. apply list_elem_of_In in Hin.
    destruct Hs as (_ & Horig & _). apply (Horig l p v); [lia|done|done]. }
  destruct Hstep as (Hs2 & Hlen2 & Hkeep2 & Hmono2).
  rewrite length_app in Hlen2. simpl in Hlen2.
  assert (Hn0 : n0 <= length o) by apply Hs.
  split; [split; [|split; [|split]]|].
  - apply clone_state_fill; [done|lia|].
    intros v Hin. apply children_rebuild in Hin.
    apply list_elem_of_In in Hin.
    destruct (proj1 (list_elem_of_lookup _ _) Hin) as [i Hi].
    destruct (Forall2_lookup_r _ _ _ _ _ Hcp Hi) as (v0 & _ & Hcv).
    destruct v0; simpl in Hcv; try (subst; done).
    destruct Hcv as (r & -> & Hr). done.
  - rewrite length_insert. lia.
  - intros l0 Hl0. rewrite list_lookup_insert_ne by lia.
    rewrite Hkeep2 by done. apply lookup_app_l. lia.
  - intros l0 Hl0. apply Hmono2. simpl. by destruct (Nat.eqb l0 l).
  - exists (length o). split; [done|]. rewrite length_insert. lia.
Qed.

Lemma filter_length_le {A} (f g : A -> bool) (xs : list A) :
  (forall x, g x = true -> f x = true) ->
  length (List.filter g xs) <= length (List.filter f xs).
Proof.
  intros Hgf. induction xs as [|x r IH]; simpl; [done|].
  destruct (g x) eqn:Hg.
  - rewrite (Hgf x Hg). simpl. lia.
  - destruct (f x); simpl; lia.
Qed.

Lemma filter_length_lt {A} (f g : A -> bool) (xs : list A) (y : A) :
  (forall x, g x = true -> f x = true) ->
  In y xs -> f y = true -> g y = false ->
  length (List.filter g xs) < length (List.filter f xs).
Proof.
  intros Hgf. induction xs as [|x r IH]; simpl; [done|].
  intros [->|Hin] Hf Hg.
  - rewrite Hf, Hg. simpl. pose proof (filter_length_le f g r Hgf). lia.
  - specialize (IH Hin Hf Hg). destruct (g x) eqn:Hgx.
    + rewrite (Hgf x Hgx). simpl. lia.
    + destruct (f x); simpl; lia.
Qed.

Lemma unseen_mono n0 m m' :
  (forall l, is_Some (memo_get l m) -> is_Some (memo_get l m')) ->
  unseen n0 m' <= unseen n0 m.
Proof.
  intros Hmono. apply filter_length_le. intros l.
  destruct (memo_get l m) eqn:Hm; [|done].
  destruct (Hmono l) as [x Hx]; [by eexists|]. by rewrite Hx.
Qed.

Lemma unseen_register n0 m l l' :
  l < n0 -> memo_get l m = None -> unseen n0 ((l, l') :: m) < unseen n0 m.
Proof.
  intros Hl Hm. apply (filter_length_lt _ _ _ l).
  - intros x. simpl. destruct (Nat.eqb x l); [done|]. by destruct (memo_get x m).
  - apply in_seq. lia.
  - by rewrite Hm.
  - simpl. by rewrite Nat.eqb_refl.
Qed.

Lemma cloneList_total n0 (rec : cloner) (f : nat) :
  (forall o m v o' m' v',
      rec o m v = Some (o', m', v') -> clone_state n0 o m -> val_in 0 n0 v ->
      clone_step n0 o m o' m' /\ copied n0 (length o') v v') ->
  (forall o m v, clone_state n0 o m -> val_in 0 n0 v -> unseen n0 m < f -> is_Some (rec o m v)) ->
  forall vs o m,
    clone_state n0 o m -> Forall (val_in 0 n0) vs -> unseen n0 m < f ->
    is_Some (cloneList rec vs o m).
Proof.
  intros Hinv Htot. induction vs as [|v r IH]; intros o m Hs Hvs Hf; simpl; [by eexists|].
  inversion Hvs as [|? ? Hv Hr]; subst.
  destruct (Htot o m v Hs Hv Hf) as [[[o1 m1] v1] Hrv]. rewrite Hrv.
  destruct (Hinv _ _ _ _ _ _ Hrv Hs Hv) as [(Hs1 & _ & _ & Hmono) _].
  destruct (IH o1 m1) as [[[o2 m2] r'] Hrr]; [done|done| |].
  - pose proof (unseen_mono n0 m m1 Hmono). lia.
  - rewrite Hrr. by eexists.
Qed.

Lemma baseClone_total n0 fuel : forall o m v,
  clone_state n0 o m -> val_in 0 n0 v -> unseen n0 m < fuel ->
  is_Some (baseClone fuel o m v).
Proof.
  induction fuel as [|f IH]; intros o m v Hs Hv Hf; [lia|]. simpl.
  destruct v as [| | | | |l]; try by eexists.
  destruct (memo_get l m) as [l'|] eqn:Hget; [by eexists|].
  simpl in Hv.
  destruct (o !! l) as [p|] eqn:Hp; [|by eexists].
  destruct (cloneList_total n0 (baseClone f) f (baseClone_inv n0 f) IH (children p)
              (o ++ [blank p]) ((l, length o) :: m)) as [[[o2 m2] vs] Hcl].
  - apply clone_state_alloc; [done|lia].
  - apply Forall_forall. intros v Hin. apply list_elem_of_In in Hin.
    destruct Hs as (_ & Horig & _). apply (Horig l p v); [lia|done|done].
  - eapply Nat.lt_le_trans; [exact (unseen_register n0 m l (length o) (proj2 Hv) Hget)|]. lia.
  - rewrite Hcl. by eexists.
Qed.

Lemma clone_state_start o : closed_objs o -> clone_state (length o) o [].
Proof.
  intros Hc. split; [done|]. split; [done|]. split; [done|].
  intros l p v Hl. lia.
Qed.

Lemma unseen_le n0 m : unseen n0 m <= n0.
Proof.
  unfold unseen.
  assert (H : forall xs : list nat,
             length (List.filter (fun l => match memo_get l m with Some _ => false | None => true end) xs)
             <= length xs).
  { induction xs as [|x r IH]; simpl; [done|]. destruct (memo_get x m); simpl; lia. }
  etrans; [apply H|]. by rewrite length_seq.
Qed.

(** [cloneDeep] never runs out of fuel on a closed heap: it returns the
    result of [baseClone]. *)
Lemma baseClone_enough o v :
  closed_objs o -> val_in 0 (length o) v ->
  exists m, baseClone (S (length o)) o [] v = Some (fst (cloneDeep o v), m, snd (cloneDeep o v)).
Proof.
  intros Hc Hv.
  destruct (baseClone_total (length o) (S (length o)) o [] v) as [[[o' m'] v'] Hb].
  - by apply clone_state_start.
  - done.
  - pose proof (unseen_le (length o) []). lia.
  - exists m'. unfold cloneDeep. by rewrite Hb.
Qed.

(** The result of [cloneDeep]: the original objects are kept, the result
    refers to a new object, and the new objects only refer to new objects. *)
Lemma cloneDeep_spec o v o' v' :
  cloneDeep o v = (o', v') ->
  closed_objs o -> val_in 0 (length o) v ->
  length o <= length o' /\
  (forall l, l < length o -> o' !! l = o !! l) /\
  region_closed o' (length o) (length o') /\
  copied (length o) (length o') v v'.
Proof.
  intros Hcd Hc Hv. destruct (baseClone_enough o v Hc Hv) as [m Hb].
  rewrite Hcd in Hb. cbn [fst snd] in Hb.
  destruct (baseClone_inv (length o) _ _ _ _ _ _ _ Hb (clone_state_start o Hc) Hv)
    as [((_ & _ & _ & Hnew) & Hlen & Hkeep & _) Hcp].
  done.
Qed.

(** The copy of an object has the keys of the original, in the same
    order; its primitive values are those of the original and its
    references point to copies. *)
Lemma cloneDeep_copies_root o l p :
  closed_objs o -> o !! l = Some p ->
  exists o' vs,
    cloneDeep o (VRef l) = (o', VRef (length o)) /\
    o' !! length o = Some (rebuild p vs) /\
    Forall2 (copied (length o) (length o')) (children p) vs.
Proof.
  intros Hc Hp. pose proof (lookup_lt_Some _ _ _ Hp) as Hl.
  destruct (baseClone_enough o (VRef l) Hc) as [m Hb]; [simpl; lia|].
  destruct (cloneDeep o (VRef l)) as [o' v'] eqn:Hcd. cbn [fst snd] in Hb.
  simpl in Hb. rewrite Hp in Hb.
  destruct (cloneList (baseClone (length o)) (children p) (o ++ [blank p]) [(l, length o)])
    as [[[o2 m2] vs]|] eqn:Hcl; [|done].
  inversion Hb; subst. exists (<[length o := rebuild p vs]> o2), vs. split; [done|].
  destruct (cloneList_inv (length o) (baseClone (length o)) (baseClone_inv (length o) (length o))
              _ _ _ _ _ _ Hcl) as [(_ & Hlen & _) Hcp].
  - apply clone_state_alloc; [by apply clone_state_start | done].
  - apply Forall_forall. intros v Hin. apply list_elem_of_In in Hin.
    apply (Hc l p v); [lia|done|done].
  - rewrite length_app in Hlen. simpl in Hlen. split.
    + apply list_lookup_insert_eq. lia.
    + by rewrite length_insert.
Qed.

(** *** The content of a deep copy *)

Lemma memo_ext_refl m : memo_ext m m.
Proof. by intros l l'. Qed.

Lemma memo_ext_trans m1 m2 m3 : memo_ext m1 m2 -> memo_ext m2 m3 -> memo_ext m1 m3.
Proof. intros H1 H2 l l' Hl. by apply H2, H1. Qed.

Lemma memo_ext_register m l l' : memo_get l m = None -> memo_ext m ((l, l') :: m).
Proof.
  intros Hn x x' Hx. simpl. destruct (Nat.eqb_spec x l) as [->|Hne]; [congruence | done].
Qed.

Lemma renamed_ext m m' v v' : memo_ext m m' -> renamed m v v' -> renamed m' v v'.
Proof.
  intros He. destruct v; simpl; try done. intros (l' & Hl & ->). exists l'. split; [by apply He | done].
Qed.

Lemma Forall2_renamed_ext m m' vs vs' :
  memo_ext m m' -> Forall2 (renamed m) vs vs' -> Forall2 (renamed m') vs vs'.
Proof.
  intros He H. induction H; constructor; [by eapply renamed_ext | done].
Qed.

Lemma cloneList_content n0 (rec : cloner) pending :
  (forall o m v o' m' v',
      rec o m v = Some (o', m', v') -> clone_state n0 o m -> val_in 0 n0 v ->
      clone_step n0 o m o' m' /\ copied n0 (length o') v v') ->
  (forall o m v o' m' v',
      rec o m v = Some (o', m', v') -> clone_state n0 o m -> val_in 0 n0 v ->
      content_state n0 o m pending ->
      content_state n0 o' m' pending /\ memo_ext m m' /\ renamed m' v v') ->
  forall vs o m o' m' vs',
    cloneList rec vs o m = Some (o', m', vs') ->
    clone_state n0 o m ->
    Forall (val_in 0 n0) vs ->
    content_state n0 o m pending ->
    content_state n0 o' m' pending /\ memo_ext m m' /\ Forall2 (renamed m') vs vs'.
Proof.
  intros Hinv Hrec. induction vs as [|v r IH]; intros o m o' m' vs' Hc Hs Hvs Hst; simpl in Hc.
  - inversion Hc; subst. split; [done|]. split; [apply memo_ext_refl | constructor].
  - inversion Hvs as [|? ? Hv Hr]; subst.
    destruct (rec o m v) as [[[o1 m1] v1]|] eqn:Hrv; [|done].
    destruct (cloneList rec r o1 m1) as [[[o2 m2] r']|] eqn:Hrr; [|done].
    inversion Hc; subst.
    destruct (Hinv _ _ _ _ _ _ Hrv Hs Hv) as [(Hs1 & _) _].
    destruct (Hrec _ _ _ _ _ _ Hrv Hs Hv Hst) as (Hst1 & He1 & Hr1).
    destruct (IH _ _ _ _ _ Hrr Hs1 Hr Hst1) as (Hst2 & He2 & Hr2).
    split; [done|]. split; [by eapply memo_ext_trans|].
    constructor; [by eapply renamed_ext | done].
Qed.

Lemma baseClone_content n0 fuel : forall o m v o' m' v' pending,
  baseClone fuel o m v = Some (o', m', v') ->
  clone_state n0 o m -> val_in 0 n0 v ->
  content_state n0 o m pending ->
  content_state n0 o' m' pending /\ memo_ext m m' /\ renamed m' v v'.
Proof.
  induction fuel as [|f IH]; intros o m v o' m' v' pending Hc Hs Hv Hst; [done|].
  simpl in Hc.
  destruct v as [| | | | |l];
    try (inversion Hc; subst; split; [done|]; split; [apply memo_ext_refl | done]).
  destruct (memo_get l m) as [l'|] eqn:Hget.
  { inversion Hc; subst. split; [done|]. split; [apply memo_ext_refl|]. by exists l'. }
  simpl in Hv.
  destruct (o !! l) as [p|] eqn:Hp.
  2:{ apply lookup_ge_None in Hp. destruct Hs as (Hlen & _). lia. }
  destruct (cloneList (baseClone f) (children p) (o ++ [blank p]) ((l, length o) :: m))
    as [[[o2 m2] vs]|] eqn:Hcl; [|done].
  inversion Hc; subst; clear Hc.
  assert (Hn0 : n0 <= length o) by apply Hs.
  assert (Hs1 : clone_state n0 (o ++ [blank p]) ((l, length o) :: m)).
  { apply clone_state_alloc; [done|lia]. }
  assert (Hchildren : Forall (val_in 0 n0) (children p)).
  { apply Forall_forall. intros v Hin. apply list_elem_of_In in Hin.
    destruct Hs as (_ & Horig & _). apply (Horig l p v); [lia|done|done]. }
  assert (He1 : memo_ext m ((l, length o) :: m)) by (by apply memo_ext_register).
  assert (Hst1 : content_state n0 (o ++ [blank p]) ((l, length o) :: m) (l :: pending)).
  { destruct Hst as [Hall Hinj]. split.
    - intros x x' Hx. simpl in Hx. destruct (Nat.eqb_spec x l) as [->|Hne].
      + split; [lia|]. left. by left.
      + destruct (Hall _ _ Hx) as [Hlt [Hin|(p0 & vs0 & H1 & H2 & H3)]].
        * split; [done|]. left. by right.
        * split; [done|]. right. exists p0, vs0.
          split; [by apply lookup_app_l_Some|]. split; [by apply lookup_app_l_Some|].
          by eapply Forall2_renamed_ext.
    - intros x1 x2 x' H1 H2. simpl in H1, H2.
      destruct Hs as (_ & _ & Hmemo & _).
      destruct (Nat.eqb_spec x1 l) as [->|Hne1], (Nat.eqb_spec x2 l) as [->|Hne2]; try done.
      + inversion H1; subst. apply Hmemo in H2. lia.
      + inversion H2; subst. apply Hmemo in H1. lia.
      + by eapply Hinj. }
  destruct (cloneList_inv n0 (baseClone f) (baseClone_inv n0 f) _ _ _ _ _ _ Hcl Hs1 Hchildren)
    as [(Hs2 & Hlen2 & Hkeep2 & _) _].
  rewrite length_app in Hlen2. simpl in Hlen2.
  destruct (cloneList_content n0 (baseClone f) (l :: pending) (baseClone_inv n0 f)
              (fun o m v o' m' v' => IH o m v o' m' v' (l :: pending))
              _ _ _ _ _ _ Hcl Hs1 Hchildren Hst1) as ([Hall2 Hinj2] & He2 & Hvs).
  assert (Hl2 : memo_get l m' = Some (length o)).
  { apply He2. simpl. by rewrite Nat.eqb_refl. }
  assert (Hpl : o2 !! l = Some p).
  { rewrite Hkeep2 by lia. by apply lookup_app_l_Some. }
  split; [split|].
  - intros x x' Hx. destruct (Hall2 _ _ Hx) as [Hlt Hcase]. split; [done|].
    destruct (decide (x = l)) as [->|Hne].
    + rewrite Hl2 in Hx. inversion Hx; subst x'. right. exists p, vs.
      split; [by rewrite list_lookup_insert_ne by lia|].
      split; [apply list_lookup_insert_eq; lia | done].
    + destruct Hcase as [[Hin|Hin]|(p0 & vs0 & H1 & H2 & H3)]; [congruence|by left|].
      right. exists p0, vs0.
      split; [by rewrite list_lookup_insert_ne by lia|].
      split; [|done]. rewrite list_lookup_insert_ne; [done|].
      intros Heq. subst x'. apply Hne. by eapply Hinj2.
  - exact Hinj2.
  - split; [by eapply memo_ext_trans|]. by exists (length o).
Qed.

Lemma tree_of_renamed n0 o o' m :
  content_state n0 o' m [] ->
  (forall l, l < n0 -> o' !! l = o !! l) ->
  forall d v v', renamed m v v' -> tree_of d o' v' = tree_of d o v.
Proof.
  intros [Hall _] Hkeep. induction d as [|d IH]; intros v v' Hr.
  - destruct v; simpl in Hr; try (by subst). by destruct Hr as (l' & _ & ->).
  - destruct v as [| | | | |l]; simpl in Hr; try (by subst).
    destruct Hr as (l' & Hget & ->).
    destruct (Hall _ _ Hget) as [Hl [[]|(p & vs & Hp & Hp' & Hvs)]].
    cbn [tree_of]. rewrite Hp'. rewrite <- (Hkeep l Hl), Hp. clear Hp Hp'.
    destruct p as [ps|es]; cbn [rebuild children] in *.
    + f_equal. revert vs Hvs. induction ps as [|[k x] ps IHps]; intros vs Hvs;
        inversion Hvs; subst; simpl; [done|].
      f_equal; [f_equal; by apply IH | by apply IHps].
    + f_equal. induction Hvs; simpl; [done|]. f_equal; [by apply IH | done].
Qed.

Lemma tree_of_ext o o' b :
  (forall l, l < b -> o' !! l = o !! l) ->
  region_closed o 0 b ->
  forall d v, val_in 0 b v -> tree_of d o' v = tree_of d o v.
Proof.
  intros Hk Hc. induction d as [|d IH]; intros v Hv; destruct v as [| | | | |l]; try done.
  simpl in Hv. cbn [tree_of]. rewrite Hk by lia.
  destruct (o !! l) as [[ps|es]|] eqn:Hp; [| |done].
  - f_equal. apply map_ext_in. intros [k x] Hin. cbn [fst snd]. f_equal. apply IH.
    apply (Hc l (PObject ps) x); [lia|done|]. simpl. apply in_map_iff. by exists (k, x).
  - f_equal. apply map_ext_in. intros x Hin. apply IH.
    by apply (Hc l (PArray es) x); [lia|done|].
Qed.

(** The result of [cloneDeep] has the content of its argument: the two
    unfold to the same tree, at every depth. *)
Lemma cloneDeep_content o v o' v' :
  cloneDeep o v = (o', v') ->
  closed_objs o -> val_in 0 (length o) v ->
  forall d, tree_of d o' v' = tree_of d o v.
Proof.
  intros Hcd Hc Hv. destruct (baseClone_enough o v Hc Hv) as [m Hb].
  rewrite Hcd in Hb. cbn [fst snd] in Hb.
  destruct (baseClone_inv (length o) _ _ _ _ _ _ _ Hb (clone_state_start o Hc) Hv)
    as [(_ & _ & Hkeep & _) _].
  destruct (baseClone_content (length o) _ _ _ _ _ _ _ [] Hb (clone_state_start o Hc) Hv)
    as (Hst & _ & Hr).
  { split; intros; done. }
  intros d. by eapply tree_of_renamed.
Qed.

(** ** [clone] *)

Lemma insert_snoc {A} (l : list A) (x y : A) : <[length l := y]> (l ++ [x]) = l ++ [y].
Proof.
  rewrite insert_app_r_alt by lia. by rewrite Nat.sub_diag.
Qed.

Lemma update_node_last o ms ns n f :
  update_node (mkHeap o ms (ns ++ [n])) (length ns) f = mkHeap o ms (ns ++ [f n]).
Proof.
  unfold update_node. simpl. rewrite list_lookup_middle by done.
  unfold set_nodes. simpl. by rewrite insert_snoc.
Qed.

(** [clone] spelled out: the heap it leaves and the node it returns. *)
Lemma clone_unfold h t n es o2 fp o3 np :
  nodes h !! t = Some n ->
  maps h !! successors n = Some es ->
  cloneDeep (objs h ++ [PObject []; PObject []]) (flow_params n) = (o2, fp) ->
  cloneDeep o2 (node_params n) = (o3, np) ->
  clone h t =
  Some (mkHeap o3 (maps h ++ [[]; es])
          (nodes h ++ [mkNode (kind n) fp np (S (length (maps h)))]),
        length (nodes h)).
Proof.
  destruct h as [o ms ns]. simpl. intros Hn Hes H2 H3.
  unfold clone. simpl. rewrite Hn. simpl. rewrite Hes. simpl.
  unfold _clone, new_node, alloc_obj, alloc_map, alloc_node, set_objs, set_maps, set_nodes.
  simpl. rewrite <- app_assoc. simpl. rewrite H2.
  rewrite update_node_last. simpl. rewrite H3.
  rewrite update_node_last. simpl.
  rewrite update_node_last. simpl.
  unfold with_successors, with_node_params, with_flow_params. simpl.
  rewrite length_app. simpl. rewrite <- app_assoc. simpl.
  by rewrite Nat.add_1_r.
Qed.

Lemma region_closed_keep o o' a b :
  (forall l, l < b -> o' !! l = o !! l) ->
  region_closed o a b -> region_closed o' a b.
Proof.
  intros Hk Hr l p v Hl Hp Hv. apply (Hr l p v); [done| |done].
  rewrite <- Hk by lia. done.
Qed.

Lemma region_closed_join o a m b :
  a <= m <= b ->
  region_closed o a m -> region_closed o m b -> region_closed o a b.
Proof.
  intros Hm H1 H2 l p v Hl Hp Hv. destruct (decide (l < m)) as [Hlt|Hge].
  - pose proof (H1 l p v ltac:(lia) Hp Hv) as H. destruct v; try done. simpl in *. lia.
  - pose proof (H2 l p v ltac:(lia) Hp Hv) as H. destruct v; try done. simpl in *. lia.
Qed.

Lemma region_closed_blank o : closed_objs o ->
  closed_objs (o ++ [PObject []; PObject []]).
Proof.
  intros Hc l p v Hl Hp Hv. rewrite length_app. simpl.
  destruct (decide (l < length o)) as [Hlt|Hge].
  - rewrite lookup_app_l in Hp by done.
    eapply val_in_weaken; [|apply (Hc l p v); [lia|done|done]]. lia.
  - rewrite lookup_app_r in Hp by lia.
    destruct (l - length o) as [|[|k]]; simpl in Hp; inversion Hp; subst; done.
Qed.

Lemma closed_objs_grow o o' :
  closed_objs o -> length o <= length o' ->
  (forall l, l < length o -> o' !! l = o !! l) ->
  region_closed o' (length o) (length o') ->
  closed_objs o'.
Proof.
  intros Hc Hlen Hk Hnew. apply (region_closed_join o' 0 (length o) (length o')); [lia| |done].
  by apply (region_closed_keep o).
Qed.

Lemma copied_val_in a b v v' : copied a b v v' -> val_in a b v'.
Proof.
  destruct v; simpl; try (intros ->; done). by intros (r & -> & Hr).
Qed.

(** What [clone] guarantees on a closed heap.  The clone is a new node
    with the class of the template; its parameters are the template's for
    primitive values and refer to objects allocated by this call otherwise;
    the objects allocated by this call only refer to each other; its
    successor map is a new map object with the template's entries; and
    whatever was in the heap is kept. *)
Lemma clone_spec h t n es :
  nodes h !! t = Some n ->
  maps h !! successors n = Some es ->
  closed_objs (objs h) ->
  val_in 0 (length (objs h)) (flow_params n) ->
  val_in 0 (length (objs h)) (node_params n) ->
  exists h' nc,
    clone h t = Some (h', length (nodes h)) /\
    nodes h' = nodes h ++ [nc] /\
    maps h' = maps h ++ [[]; es] /\
    kind nc = kind n /\
    successors nc = S (length (maps h)) /\
    length (objs h) <= length (objs h') /\
    (forall l, l < length (objs h) -> objs h' !! l = objs h !! l) /\
    region_closed (objs h') (length (objs h)) (length (objs h')) /\
    closed_objs (objs h') /\
    copied (length (objs h)) (length (objs h')) (flow_params n) (flow_params nc) /\
    copied (length (objs h)) (length (objs h')) (node_params n) (node_params nc).
Proof.
  intros Hn Hes Hc Hfp Hnp.
  set (o1 := objs h ++ [PObject []; PObject []]).
  assert (Hlen1 : length o1 = length (objs h) + 2) by (unfold o1; rewrite length_app; done).
  assert (Hc1 : closed_objs o1) by (by apply region_closed_blank).
  assert (Hk1 : forall l, l < length (objs h) -> o1 !! l = objs h !! l).
  { intros l Hl. unfold o1. by rewrite lookup_app_l. }
  destruct (cloneDeep o1 (flow_params n)) as [o2 fp] eqn:H2.
  destruct (cloneDeep_spec _ _ _ _ H2 Hc1) as (Hlen2 & Hk2 & Hr2 & Hcp2).
  { eapply val_in_weaken; [|exact Hfp]. lia. }
  assert (Hc2 : closed_objs o2) by (by eapply closed_objs_grow).
  destruct (cloneDeep o2 (node_params n)) as [o3 np] eqn:H3.
  destruct (cloneDeep_spec _ _ _ _ H3 Hc2) as (Hlen3 & Hk3 & Hr3 & Hcp3).
  { eapply val_in_weaken; [|exact Hnp]. lia. }
  assert (Hc3 : closed_objs o3) by (by eapply closed_objs_grow).
  eexists _, _. split; [by eapply clone_unfold|]. simpl.
  split; [done|]. split; [done|]. split; [done|]. split; [done|].
  split; [lia|]. split; [|split; [|split; [done|split]]].
  - intros l Hl. rewrite Hk3 by lia. rewrite Hk2 by lia. by apply Hk1.
  - apply (region_closed_join o3 _ (length o2)); [lia| |done].
    apply (region_closed_keep o2); [intros l Hl; by apply Hk3|].
    apply (region_closed_join o2 _ (length o1)); [lia| |done].
    intros l p v Hl Hp Hv. rewrite Hk2 in Hp by lia.
    unfold o1 in Hp. rewrite lookup_app_r in Hp by lia.
    destruct (l - length (objs h)) as [|[|k]]; simpl in Hp; inversion Hp; subst; done.
  - destruct (flow_params n); simpl in *; try done.
    destruct Hcp2 as (r & -> & Hr). exists r. split; [done|lia].
  - destruct (node_params n); simpl in *; try done.
    destruct Hcp3 as (r & -> & Hr). exists r. split; [done|lia].
Qed.

Lemma val_in_from_zero a b v : val_in a b v -> val_in 0 b v.
Proof. destruct v; simpl; lia. Qed.

(** The parameters of a clone have the content of the template's. *)
Lemma clone_same_content h t n es h' c nc :
  nodes h !! t = Some n ->
  maps h !! successors n = Some es ->
  closed_objs (objs h) ->
  val_in 0 (length (objs h)) (flow_params n) ->
  val_in 0 (length (objs h)) (node_params n) ->
  clone h t = Some (h', c) ->
  nodes h' !! c = Some nc ->
  forall d,
    tree_of d (objs h') (flow_params nc) = tree_of d (objs h) (flow_params n) /\
    tree_of d (objs h') (node_params nc) = tree_of d (objs h) (node_params n).
Proof.
  intros Hn Hes Hc Hfp Hnp Hcl Hnc d.
  set (o1 := objs h ++ [PObject []; PObject []]).
  assert (Hlen1 : length o1 = length (objs h) + 2) by (unfold o1; rewrite length_app; done).
  assert (Hc1 : closed_objs o1) by (by apply region_closed_blank).
  assert (Hk1 : forall l, l < length (objs h) -> o1 !! l = objs h !! l).
  { intros l Hl. unfold o1. by rewrite lookup_app_l. }
  assert (Hfp1 : val_in 0 (length o1) (flow_params n)).
  { eapply val_in_weaken; [|exact Hfp]. lia. }
  assert (Hnp1 : val_in 0 (length o1) (node_params n)).
  { eapply val_in_weaken; [|exact Hnp]. lia. }
  destruct (cloneDeep o1 (flow_params n)) as [o2 fp] eqn:H2.
  destruct (cloneDeep_spec _ _ _ _ H2 Hc1 Hfp1) as (Hlen2 & Hk2 & Hr2 & Hcp2).
  assert (Hc2 : closed_objs o2) by (by eapply closed_objs_grow).
  assert (Hnp2 : val_in 0 (length o2) (node_params n)).
  { eapply val_in_weaken; [|exact Hnp1]. lia. }
  destruct (cloneDeep o2 (node_params n)) as [o3 np] eqn:H3.
  destruct (cloneDeep_spec _ _ _ _ H3 Hc2 Hnp2) as (Hlen3 & Hk3 & Hr3 & Hcp3).
  rewrite (clone_unfold h t n es o2 fp o3 np Hn Hes H2 H3) in Hcl.
  inversion Hcl; subst h' c. cbn [nodes objs] in *.
  rewrite list_lookup_middle in Hnc by done. inversion Hnc; subst nc.
  cbn [flow_params node_params]. split.
  - transitivity (tree_of d o2 fp).
    { apply (tree_of_ext o2 o3 (length o2)); [exact Hk3 | exact Hc2 |].
      eapply val_in_from_zero, copied_val_in, Hcp2. }
    transitivity (tree_of d o1 (flow_params n)).
    { by apply (cloneDeep_content _ _ _ _ H2 Hc1). }
    by apply (tree_of_ext (objs h) o1 (length (objs h))).
  - transitivity (tree_of d o2 (node_params n)).
    { by apply (cloneDeep_content _ _ _ _ H3 Hc2). }
    transitivity (tree_of d o1 (node_params n)).
    { by apply (tree_of_ext o1 o2 (length o1)). }
    by apply (tree_of_ext (objs h) o1 (length (objs h))).
Qed.

Lemma reach_in_region o a b v w :
  region_closed o a b -> val_in a b v -> reach o v w -> a <= w < b.
Proof.
  intros Hr Hv Hreach. induction Hreach as [l|l p v l' Hp Hin Hreach IH]; [done|].
  apply IH. by apply (Hr l p v).
Qed.

(** C3: [clone] deep-copies [flow_params] and [node_params] and
    shallow-copies the successor map.  On a closed heap, cloning a template
    twice gives two new nodes of the template's class; a parameter of a
    clone is the template's when it is a primitive value and refers to an
    object allocated by that [clone] call otherwise; the objects below the
    parameters of the template, of the first clone and of the second clone
    are pairwise distinct, so replacing any object below the parameters of
    one clone, or reassigning its parameters, leaves the objects below the
    parameters of the other clone and of the template as they were; each
    clone has a successor map object of its own with the template's
    entries, so adding a successor to a clone leaves the maps of the
    template and of the other clone as they were.  The copies have the
    content of the original: unfolded to any depth, the parameters of each
    clone give the same tree of keys and primitive values as the
    parameters of the template, which are themselves as before. *)
Theorem clone_deep_params_shallow_successors h t n es :
  nodes h !! t = Some n ->
  maps h !! successors n = Some es ->
  closed_objs (objs h) ->
  val_in 0 (length (objs h)) (flow_params n) ->
  val_in 0 (length (objs h)) (node_params n) ->
  exists h1 c1 h2 c2 n1 n2,
    clone h t = Some (h1, c1) /\ clone h1 t = Some (h2, c2) /\
    nodes h2 !! t = Some n /\ nodes h2 !! c1 = Some n1 /\ nodes h2 !! c2 = Some n2 /\
    c1 <> t /\ c2 <> t /\ c1 <> c2 /\
    kind n1 = kind n /\ kind n2 = kind n /\
    copied (length (objs h)) (length (objs h1)) (flow_params n) (flow_params n1) /\
    copied (length (objs h)) (length (objs h1)) (node_params n) (node_params n1) /\
    copied (length (objs h1)) (length (objs h2)) (flow_params n) (flow_params n2) /\
    copied (length (objs h1)) (length (objs h2)) (node_params n) (node_params n2) /\
    (forall d,
        tree_of d (objs h2) (flow_params n1) = tree_of d (objs h) (flow_params n) /\
        tree_of d (objs h2) (node_params n1) = tree_of d (objs h) (node_params n) /\
        tree_of d (objs h2) (flow_params n2) = tree_of d (objs h) (flow_params n) /\
        tree_of d (objs h2) (node_params n2) = tree_of d (objs h) (node_params n) /\
        tree_of d (objs h2) (flow_params n) = tree_of d (objs h) (flow_params n) /\
        tree_of d (objs h2) (node_params n) = tree_of d (objs h) (node_params n)) /\
    maps h2 !! successors n = Some es /\
    maps h2 !! successors n1 = Some es /\
    maps h2 !! successors n2 = Some es /\
    successors n1 <> successors n /\ successors n2 <> successors n /\
    successors n1 <> successors n2 /\
    let owns x w := reach (objs h2) (flow_params x) w \/ reach (objs h2) (node_params x) w in
    (forall w l, owns n1 w -> owns n l \/ owns n2 l -> w <> l) /\
    (forall w l, owns n2 w -> owns n l \/ owns n1 l -> w <> l) /\
    (forall w q l, owns n1 w -> owns n l \/ owns n2 l ->
        <[w := q]> (objs h2) !! l = objs h2 !! l) /\
    (forall w q l, owns n2 w -> owns n l \/ owns n1 l ->
        <[w := q]> (objs h2) !! l = objs h2 !! l) /\
    (forall p np',
        nodes (setParams h2 c1 p np') !! t = Some n /\
        nodes (setParams h2 c1 p np') !! c2 = Some n2 /\
        objs (setParams h2 c1 p np') = objs h2) /\
    (forall target action h3 r,
        addSuccessor h2 c1 target action = Some (h3, r) ->
        maps h3 !! successors n = Some es /\ maps h3 !! successors n2 = Some es /\
        nodes h3 = nodes h2 /\ objs h3 = objs h2).
Proof.
  intros Hn Hes Hc Hfp Hnp.
  destruct (clone_spec h t n es Hn Hes Hc Hfp Hnp)
    as (h1 & n1 & Hcl1 & Hnodes1 & Hmaps1 & Hk1 & Hs1 & Hlen1 & Hkeep1 & Hreg1 & Hc1 & Hfp1 & Hnp1).
  assert (Ht : t < length (nodes h)) by (by eapply lookup_lt_Some).
  assert (Hsm : successors n < length (maps h)) by (by eapply lookup_lt_Some).
  assert (Hn' : nodes h1 !! t = Some n) by (rewrite Hnodes1; by apply lookup_app_l_Some).
  assert (Hes' : maps h1 !! successors n = Some es) by (rewrite Hmaps1; by apply lookup_app_l_Some).
  destruct (clone_spec h1 t n es Hn' Hes' Hc1)
    as (h2 & n2 & Hcl2 & Hnodes2 & Hmaps2 & Hk2 & Hs2 & Hlen2 & Hkeep2 & Hreg2 & Hc2 & Hfp2 & Hnp2).
  { eapply val_in_weaken; [|exact Hfp]. lia. }
  { eapply val_in_weaken; [|exact Hnp]. lia. }
  assert (Hlenn1 : length (nodes h1) = S (length (nodes h))).
  { rewrite Hnodes1, length_app. simpl. lia. }
  assert (Hlenm1 : length (maps h1) = length (maps h) + 2).
  { rewrite Hmaps1, length_app. done. }
  assert (Hl1 : nodes h2 !! length (nodes h) = Some n1).
  { rewrite Hnodes2. apply lookup_app_l_Some. rewrite Hnodes1. by apply list_lookup_middle. }
  assert (Hl2 : nodes h2 !! length (nodes h1) = Some n2).
  { rewrite Hnodes2. by apply list_lookup_middle. }
  assert (Hlt : nodes h2 !! t = Some n).
  { rewrite Hnodes2. by apply lookup_app_l_Some. }
  assert (Hm0 : maps h2 !! successors n = Some es).
  { rewrite Hmaps2. by apply lookup_app_l_Some. }
  assert (Hm1 : maps h2 !! successors n1 = Some es).
  { rewrite Hmaps2, Hs1. apply lookup_app_l_Some. rewrite Hmaps1.
    rewrite lookup_app_r by lia. by replace (S (length (maps h)) - length (maps h)) with 1 by lia. }
  assert (Hm2 : maps h2 !! successors n2 = Some es).
  { rewrite Hmaps2, Hs2. rewrite lookup_app_r by lia.
    by replace (S (length (maps h1)) - length (maps h1)) with 1 by lia. }
  (* the three regions of the object heap *)
  assert (Hreg0 : region_closed (objs h2) 0 (length (objs h))).
  { apply (region_closed_keep (objs h)); [|done].
    intros l Hl. rewrite Hkeep2 by lia. by apply Hkeep1. }
  assert (Hreg1' : region_closed (objs h2) (length (objs h)) (length (objs h1))).
  { by apply (region_closed_keep (objs h1)). }
  assert (Hown0 : forall l, reach (objs h2) (flow_params n) l \/ reach (objs h2) (node_params n) l ->
                            l < length (objs h)).
  { intros l [Hr|Hr]; eapply (reach_in_region _ 0) in Hr; try done; lia. }
  assert (Hown1 : forall l, reach (objs h2) (flow_params n1) l \/ reach (objs h2) (node_params n1) l ->
                            length (objs h) <= l < length (objs h1)).
  { intros l [Hr|Hr]; eapply reach_in_region in Hr; try done; by eapply copied_val_in. }
  assert (Hown2 : forall l, reach (objs h2) (flow_params n2) l \/ reach (objs h2) (node_params n2) l ->
                            length (objs h1) <= l < length (objs h2)).
  { intros l [Hr|Hr]; eapply reach_in_region in Hr; try done; by eapply copied_val_in. }
  assert (Hd1 : forall w l,
             reach (objs h2) (flow_params n1) w \/ reach (objs h2) (node_params n1) w ->
             (reach (objs h2) (flow_params n) l \/ reach (objs h2) (node_params n) l) \/
             (reach (objs h2) (flow_params n2) l \/ reach (objs h2) (node_params n2) l) -> w <> l).
  { intros w l Hw [Hl|Hl]; apply Hown1 in Hw; [apply Hown0 in Hl | apply Hown2 in Hl]; lia. }
  assert (Hd2 : forall w l,
             reach (objs h2) (flow_params n2) w \/ reach (objs h2) (node_params n2) w ->
             (reach (objs h2) (flow_params n) l \/ reach (objs h2) (node_params n) l) \/
             (reach (objs h2) (flow_params n1) l \/ reach (objs h2) (node_params n1) l) -> w <> l).
  { intros w l Hw [Hl|Hl]; apply Hown2 in Hw; [apply Hown0 in Hl | apply Hown1 in Hl]; lia. }
  assert (Htrees : forall d,
             tree_of d (objs h2) (flow_params n1) = tree_of d (objs h) (flow_params n) /\
             tree_of d (objs h2) (node_params n1) = tree_of d (objs h) (node_params n) /\
             tree_of d (objs h2) (flow_params n2) = tree_of d (objs h) (flow_params n) /\
             tree_of d (objs h2) (node_params n2) = tree_of d (objs h) (node_params n) /\
             tree_of d (objs h2) (flow_params n) = tree_of d (objs h) (flow_params n) /\
             tree_of d (objs h2) (node_params n) = tree_of d (objs h) (node_params n)).
  { intros d.
    assert (Hfp' : val_in 0 (length (objs h1)) (flow_params n)).
    { eapply val_in_weaken; [|exact Hfp]. lia. }
    assert (Hnp' : val_in 0 (length (objs h1)) (node_params n)).
    { eapply val_in_weaken; [|exact Hnp]. lia. }
    assert (Hn1 : nodes h1 !! length (nodes h) = Some n1).
    { rewrite Hnodes1. by apply list_lookup_middle. }
    destruct (clone_same_content h t n es h1 _ n1 Hn Hes Hc Hfp Hnp Hcl1 Hn1 d) as [Ha Hb].
    destruct (clone_same_content h1 t n es h2 _ n2 Hn' Hes' Hc1 Hfp' Hnp' Hcl2 Hl2 d)
      as [Ha2 Hb2].
    assert (E1 : forall v, val_in 0 (length (objs h1)) v ->
                           tree_of d (objs h2) v = tree_of d (objs h1) v).
    { intros v Hv. by apply (tree_of_ext (objs h1) (objs h2) (length (objs h1))). }
    assert (E0 : forall v, val_in 0 (length (objs h)) v ->
                           tree_of d (objs h1) v = tree_of d (objs h) v).
    { intros v Hv. by apply (tree_of_ext (objs h) (objs h1) (length (objs h))). }
    split; [|split; [|split; [|split; [|split]]]].
    - rewrite E1 by (eapply val_in_from_zero, copied_val_in, Hfp1). exact Ha.
    - rewrite E1 by (eapply val_in_from_zero, copied_val_in, Hnp1). exact Hb.
    - rewrite Ha2. by apply E0.
    - rewrite Hb2. by apply E0.
    - rewrite E1 by done. by apply E0.
    - rewrite E1 by done. by apply E0. }
  exists h1, (length (nodes h)), h2, (length (nodes h1)), n1, n2.
  split; [done|]. split; [done|]. split; [done|]. split; [done|]. split; [done|].
  split; [lia|]. split; [lia|]. split; [lia|].
  split; [done|]. split; [done|].
  split; [done|]. split; [done|]. split; [done|]. split; [done|].
  split; [exact Htrees|].
  split; [done|]. split; [done|]. split; [done|].
  split; [lia|]. split; [lia|]. split; [lia|].
  simpl. split; [exact Hd1|]. split; [exact Hd2|].
  split; [intros w q l Hw Hl; apply list_lookup_insert_ne; by apply Hd1|].
  split; [intros w q l Hw Hl; apply list_lookup_insert_ne; by apply Hd2|].
  split.
  - intros p np'. rewrite !setParams_other by lia. by rewrite setParams_objs.
  - intros target action h3 r. unfold addSuccessor. rewrite Hl1. simpl. rewrite Hm1. simpl.
    destruct (map_has action es).
    + intros H. inversion H; subst. done.
    + intros H. inversion H; subst. simpl.
      rewrite !list_lookup_insert_ne by lia. done.
Qed.

(** ** The search for the resume position terminates *)

Lemma bfs_push_bound h succs : forall queue visited queue' visited',
  bfs_push h succs queue visited = Some (queue', visited') ->
  NoDup visited -> incl visited (node_ids h) ->
  NoDup visited' /\ incl visited' (node_ids h) /\
  length queue' + length visited = length queue + length visited'.
Proof.
  induction succs as [|s r IH]; intros queue visited queue' visited' Hp Hnd Hincl; simpl in Hp.
  - inversion Hp; subst. done.
  - destruct (nodes h !! s) as [n|] eqn:Hn; [|done]. simpl in Hp.
    destruct (truthy (opt_prop h (node_params n) "id")
              && negb (bool_decide (opt_prop h (node_params n) "id" ∈ visited))) eqn:Hc.
    + apply andb_true_iff in Hc as [_ Hnew]. apply negb_true_iff in Hnew.
      apply bool_decide_eq_false in Hnew.
      destruct (IH _ _ _ _ Hp) as (Hnd' & Hincl' & Hlen).
      * apply NoDup_app. split; [done|]. split; [|apply NoDup_singleton].
        intros x Hx Hx'. apply list_elem_of_singleton in Hx'. by subst.
      * intros x Hx. apply in_app_or in Hx as [Hx|[<-|[]]]; [by apply Hincl|].
        unfold node_ids. apply in_map_iff. exists n. split; [done|].
        apply list_elem_of_In. by eapply list_elem_of_lookup_2.
      * split; [done|]. split; [done|]. rewrite !length_app in Hlen. simpl in Hlen. lia.
    + by apply (IH _ _ _ _ Hp).
Qed.

Lemma bfs_enough_fuel h target fuel : forall queue visited,
  NoDup visited -> incl visited (node_ids h) ->
  length queue + (length (nodes h) - length visited) < fuel ->
  bfs fuel h target queue visited <> BOutOfFuel.
Proof.
  induction fuel as [|f IH]; intros queue visited Hnd Hincl Hf; [lia|]. simpl.
  destruct queue as [|node queue']; [done|].
  destruct (nodes h !! node) as [n|]; [|done].
  destruct (strict_eq _ target); [done|].
  destruct (maps h !! successors n) as [es|]; [|done].
  destruct (bfs_push h (map_values es) queue' visited) as [[queue'' visited']|] eqn:Hp; [|done].
  destruct (bfs_push_bound _ _ _ _ _ _ Hp Hnd Hincl) as (Hnd' & Hincl' & Hlen).
  apply IH; [done|done|].
  pose proof (NoDup_incl_length (proj1 (NoDup_ListNoDup _) Hnd') Hincl') as Hb.
  unfold node_ids in Hb. rewrite length_map in Hb. simpl in Hf. lia.
Qed.

(** X24.  The search of [orchestrate] for the node to resume at
    terminates on every graph, cycles included: a successor is queued only
    if its identifier is not yet in the visited set, so the loop takes at
    most one round per node of the heap and one for the start clone, and
    [find_entry] never gives up for lack of fuel. *)
Lemma find_entry_terminates h this st : find_entry h this st <> EntryOutOfFuel.
Proof.
  unfold find_entry, from_start. destruct (truthy (currentNodeId st)).
  - destruct (getStartNode h this) as [[h1 s]|]; [|done].
    destruct (bfs (bfs_fuel h1) h1 (currentNodeId st) [s] []) eqn:Hb; try done.
    + by destruct (getStartNode h1 this) as [[? ?]|].
    + exfalso. revert Hb. apply bfs_enough_fuel; [constructor|by intros x Hx|].
      unfold bfs_fuel. simpl. lia.
  - by destruct (getStartNode h this) as [[? ?]|].
Qed.

(** ** Graphs built by [convert] cannot be resumed *)

Lemma baseClone_keeps fuel : forall o m v o' m' v',
  baseClone fuel o m v = Some (o', m', v') ->
  length o <= length o' /\ (forall l, l < length o -> o' !! l = o !! l).
Proof.
  induction fuel as [|f IH]; intros o m v o' m' v' Hc; [done|]. simpl in Hc.
  assert (Hlist : forall vs o m o' m' vs',
             cloneList (baseClone f) vs o m = Some (o', m', vs') ->
             length o <= length o' /\ (forall l, l < length o -> o' !! l = o !! l)).
  { induction vs as [|x r IHr]; intros o0 m0 o1 m1 vs' Hl; simpl in Hl.
    - inversion Hl; subst. done.
    - destruct (baseClone f o0 m0 x) as [[[oa ma] xa]|] eqn:Hx; [|done].
      destruct (cloneList (baseClone f) r oa ma) as [[[ob mb] rb]|] eqn:Hr; [|done].
      inversion Hl; subst. destruct (IH _ _ _ _ _ _ Hx) as [Hl1 Hk1].
      destruct (IHr _ _ _ _ _ Hr) as [Hl2 Hk2]. split; [lia|].
      intros l Hlt. rewrite Hk2 by lia. by apply Hk1. }
  destruct v as [| | | | |l]; try (inversion Hc; subst; done).
  destruct (memo_get l m); [inversion Hc; subst; done|].
  destruct (o !! l) as [p|]; [|inversion Hc; subst; done].
  destruct (cloneList (baseClone f) (children p) (o ++ [blank p]) ((l, length o) :: m))
    as [[[o2 m2] vs]|] eqn:Hcl; [|done].
  inversion Hc; subst. destruct (Hlist _ _ _ _ _ _ Hcl) as [Hl2 Hk2].
  rewrite length_app in Hl2. simpl in Hl2. rewrite length_insert. split; [lia|].
  intros l0 Hl0. rewrite list_lookup_insert_ne by lia. rewrite Hk2.
  - by apply lookup_app_l.
  - rewrite length_app. simpl. lia.
Qed.

Lemma cloneDeep_keeps o v :
  length o <= length (fst (cloneDeep o v)) /\
  (forall l, l < length o -> fst (cloneDeep o v) !! l = o !! l).
Proof.
  unfold cloneDeep.
  destruct (baseClone (S (length o)) o [] v) as [[[o' m'] v']|] eqn:Hb; [|done].
  by apply (baseClone_keeps _ _ _ _ _ _ _ Hb).
Qed.

(** The copy of an empty object is a new empty object. *)
Lemma cloneDeep_empty_object o r :
  o !! r = Some (PObject []) ->
  cloneDeep o (VRef r) = (o ++ [PObject []], VRef (length o)).
Proof.
  intros Hr. unfold cloneDeep. simpl. rewrite Hr. simpl. by rewrite insert_snoc.
Qed.

Lemma blank_heap_empty o : blank_heap (mkHeap o [] []).
Proof. split; [by intros l n Hl | by intros ml es Hl]. Qed.

Lemma blank_heap_alloc_obj h p : blank_heap h -> blank_heap (fst (alloc_obj h p)).
Proof.
  intros [Hn Hm]. split; [|done]. simpl. intros l n Hl.
  destruct (Hn l n Hl) as (r & Hnp & Hr & Hs). exists r.
  split; [done|]. split; [by apply lookup_app_l_Some | done].
Qed.

Lemma blank_heap_new_node k h : blank_heap h -> blank_heap (fst (new_node k h)).
Proof.
  intros [Hn Hm]. unfold new_node. simpl. split; simpl.
  - intros l n Hl. apply lookup_app_Some in Hl as [Hl|[Hlen Hl]].
    + destruct (Hn l n Hl) as (r & Hnp & Hr & [es Hs]). exists r.
      split; [done|]. split.
      * rewrite <- app_assoc. by apply lookup_app_l_Some.
      * exists es. by apply lookup_app_l_Some.
    + destruct (l - length (nodes h)) as [|i]; simpl in Hl; [|done].
      inversion Hl; subst. simpl. eexists. split; [done|]. split.
      * by apply list_lookup_middle.
      * exists []. by apply list_lookup_middle.
  - intros ml es Hl. apply lookup_app_Some in Hl as [Hl|[Hlen Hl]].
    + eapply Forall_impl; [by apply (Hm ml es)|]. intros e [n He]. exists n.
      by apply lookup_app_l_Some.
    + destruct (ml - length (maps h)) as [|i]; simpl in Hl; [|done].
      inversion Hl; subst. constructor.
Qed.

Lemma blank_heap_setParams h l p : blank_heap h -> blank_heap (setParams h l p VUndefined).
Proof.
  intros [Hn Hm]. unfold setParams. simpl. split.
  - intros l0 n0 Hl0. rewrite update_node_objs, update_node_maps.
    destruct (decide (l = l0)) as [->|Hne].
    + destruct (nodes h !! l0) as [n|] eqn:Hn0.
      * rewrite (update_node_lookup _ _ _ _ Hn0) in Hl0. inversion Hl0; subst.
        by apply (Hn l0 n).
      * unfold update_node in Hl0. rewrite Hn0 in Hl0. by rewrite Hn0 in Hl0.
    + rewrite update_node_other in Hl0 by done. by apply (Hn l0 n0).
  - intros ml es Hl. rewrite update_node_maps in Hl.
    eapply Forall_impl; [by apply (Hm ml es)|]. intros e [n He].
    destruct (decide (l = e.2)) as [->|Hne].
    + eexists. by apply update_node_lookup.
    + exists n. by rewrite update_node_other.
Qed.

Lemma blank_heap_createNode h node h' l :
  createNode h node = Ok (h', l) -> blank_heap h -> blank_heap h'.
Proof.
  unfold createNode. destruct (kind_of_type (fn_type node)) as [k|]; [|done].
  intros Hc Hb. pose proof (blank_heap_new_node k h Hb) as Hb1.
  destruct (new_node k h) as [h1 pn]. simpl in Hb1.
  destruct (truthy (fn_properties node)).
  - inversion Hc; subst. apply blank_heap_setParams.
    apply (blank_heap_alloc_obj h1 _ Hb1).
  - simpl in Hc. inversion Hc; subst. apply blank_heap_setParams.
    apply (blank_heap_alloc_obj _ _ (blank_heap_alloc_obj h1 (PObject []) Hb1)).
Qed.

Lemma create_nodes_blank ns : forall h m h' m',
  create_nodes h ns m = Ok (h', m') -> blank_heap h -> blank_heap h'.
Proof.
  induction ns as [|node r IH]; intros h m h' m' Hc Hb; simpl in Hc.
  - by inversion Hc; subst.
  - destruct (createNode h node) as [[h1 l]|e] eqn:Hn; [|done].
    eapply IH; [exact Hc|]. by eapply blank_heap_createNode.
Qed.

Lemma blank_heap_addSuccessor h this target action h' r :
  addSuccessor h this target action = Some (h', r) ->
  blank_heap h -> is_Some (nodes h !! target) -> blank_heap h'.
Proof.
  unfold addSuccessor. destruct (nodes h !! this) as [n|] eqn:Hn; [|done]. simpl.
  destruct (maps h !! successors n) as [es|] eqn:Hes; [|done]. simpl.
  destruct (map_has action es) eqn:Hhas; intros H Hb Ht; inversion H; subst; [done|].
  destruct Hb as [Hnodes Hmaps]. split; simpl.
  - intros l n0 Hl. destruct (Hnodes l n0 Hl) as (r0 & Hnp & Hr & Hs). exists r0.
    split; [done|]. split; [done|]. apply lookup_lt_is_Some. rewrite length_insert.
    by apply lookup_lt_is_Some.
  - intros ml es0 Hl. destruct (decide (successors n = ml)) as [<-|Hne].
    + rewrite list_lookup_insert_eq in Hl by (by eapply lookup_lt_Some).
      inversion Hl; subst. rewrite (map_set_fresh _ _ _ Hhas).
      apply Forall_app. split; [by apply (Hmaps (successors n))|]. by repeat constructor.
    + rewrite list_lookup_insert_ne in Hl by done. by apply (Hmaps ml).
Qed.

Lemma connect_edges_blank es : forall h m h',
  connect_edges h es m = Some (Ok h') -> valid_map h m -> blank_heap h -> blank_heap h'.
Proof.
  induction es as [|edge r IH]; intros h m h' Hc Hm Hb; simpl in Hc.
  - by inversion Hc; subst.
  - destruct (map_get (e_source edge) m) as [src|] eqn:Hsrc; [|by eapply IH].
    destruct (map_get (e_target edge) m) as [tgt|] eqn:Htgt; [|by eapply IH].
    destruct (addSuccessor h src tgt _) as [[h1 [[]|e]]|] eqn:Hadd; simpl in Hc; try done.
    destruct (addSuccessor_ok h src tgt (if String.eqb (e_id edge) "" then "default" else e_id edge))
      as (h1' & res & Hadd' & Hext); [by eapply valid_map_get|].
    rewrite Hadd in Hadd'. inversion Hadd'; subst.
    eapply IH; [exact Hc | by eapply valid_map_ext |].
    eapply blank_heap_addSuccessor; [exact Hadd | done |].
    destruct (valid_map_get _ _ _ _ Hm Htgt) as (n & Hn & _). by exists n.
Qed.

(** What a successful [convert] leaves: a heap in which no node carries
    an [id] in its [node_params], and a flow object whose start is a node. *)
Lemma convert_blank h rf h' flow :
  convert h rf = Some (Ok (h', flow)) ->
  blank_heap h ->
  blank_heap h' /\
  exists fl s, nodes h' !! flow = Some fl /\ kind fl = Flow s /\ is_Some (nodes h' !! s).
Proof.
  unfold convert. intros Hc Hb.
  destruct (create_nodes h (rf_nodes rf) []) as [[h1 m]|e] eqn:Hcr; [|done].
  destruct (create_nodes_ok _ _ _ _ _ Hcr) as (_ & Hm & _); [constructor|].
  pose proof (create_nodes_blank _ _ _ _ _ Hcr Hb) as Hb1.
  destruct (connect_edges h1 (rf_edges rf) m) as [[h2|e]|] eqn:Hw;
    cbn -[new_node setParams alloc_obj foldl] in Hc; try done.
  pose proof (connect_edges_blank _ _ _ _ Hw Hm Hb1) as Hb2.
  destruct (connect_edges_ok (rf_edges rf) h1 m Hm) as (res & Hres & Hext).
  rewrite Hw in Hres. inversion Hres; subst res.
  destruct (List.find _ (rf_nodes rf)) as [first|]; [|done].
  destruct (map_get (fn_id first) m) as [s|] eqn:Hs; [|done].
  pose proof (blank_heap_new_node (Flow s) h2 Hb2) as Hb3.
  pose proof (heap_ext_new_node (Flow s) h2) as Hext3.
  pose proof (new_node_lookup (Flow s) h2) as (fl & Hfl & Hk).
  destruct (new_node (Flow s) h2) as [h3 fl_loc]. simpl in Hb3, Hext3, Hfl.
  match type of Hc with (?x ≫= _) = _ => destruct x as [tbl|] end;
    cbn -[setParams] in Hc; [|done].
  inversion Hc; subst. split.
  - apply blank_heap_setParams.
    apply (blank_heap_alloc_obj _ _ (blank_heap_alloc_obj h3 (PObject tbl) Hb3)).
  - exists (with_flow_params (VRef (length (objs h3 ++ [PObject tbl]))) fl), s.
    split; [unfold setParams; simpl; by apply update_node_lookup|].
    split; [done|].
    assert (Hok : node_ok h2 s).
    { eapply node_ok_ext; [exact Hext|]. by eapply valid_map_get. }
    destruct (node_ok_ext _ _ _ Hext3 Hok) as (n & Hn & _).
    unfold setParams. simpl. destruct (decide (flow = s)) as [->|Hne].
    + eexists. by apply update_node_lookup.
    + rewrite update_node_other by done. by exists n.
Qed.

Lemma bfs_push_blank h succs :
  Forall (fun s => exists n r, nodes h !! s = Some n /\ node_params n = VRef r /\
                               objs h !! r = Some (PObject [])) succs ->
  bfs_push h succs [] [] = Some ([], []).
Proof.
  induction 1 as [|s r (n & p & Hn & Hnp & Hp) Hr IH]; simpl; [done|].
  rewrite Hn. simpl. unfold opt_prop. rewrite Hnp, Hp. simpl. exact IH.
Qed.

(** X25.  On a graph built by [convert], the search for the resume
    position finds no node, whatever [currentNodeId] is: every traversal
    enters at a new clone of the start node. *)
Theorem convert_built_flows_never_resume o rf h' flow st :
  convert (mkHeap o [] []) rf = Some (Ok (h', flow)) ->
  truthy (currentNodeId st) = true ->
  exists h1 s1,
    getStartNode h' flow = Some (h1, s1) /\
    find_entry h' flow st = from_start h1 flow.
Proof.
  intros Hconv Htruthy.
  destruct (convert_blank _ _ _ _ Hconv (blank_heap_empty o))
    as ([Hnodes Hmaps] & fl & s & Hfl & Hk & [n Hn]).
  destruct (Hnodes s n Hn) as (r & Hnp & Hr & [es Hes]).
  set (o1 := objs h' ++ [PObject []; PObject []]).
  destruct (cloneDeep o1 (flow_params n)) as [o2 fp] eqn:H2.
  pose proof (cloneDeep_keeps o1 (flow_params n)) as [Hlen2 Hkeep2]. rewrite H2 in Hlen2, Hkeep2.
  simpl in Hlen2, Hkeep2.
  assert (Hlen1 : length o1 = length (objs h') + 2) by (unfold o1; by rewrite length_app).
  assert (Hkeep : forall l p, objs h' !! l = Some p -> (o2 ++ [PObject []]) !! l = Some p).
  { intros l p Hl. apply lookup_app_l_Some. pose proof (lookup_lt_Some _ _ _ Hl).
    rewrite Hkeep2 by lia. unfold o1. by apply lookup_app_l_Some. }
  assert (H3 : cloneDeep o2 (node_params n) = (o2 ++ [PObject []], VRef (length o2))).
  { rewrite Hnp. apply cloneDeep_empty_object. pose proof (lookup_lt_Some _ _ _ Hr).
    rewrite Hkeep2 by lia. unfold o1. by apply lookup_app_l_Some. }
  pose proof (clone_unfold h' s n es o2 fp _ _ Hn Hes H2 H3) as Hclone.
  eexists _, _. split.
  { unfold getStartNode. rewrite Hfl. simpl. rewrite Hk. exact Hclone. }
  unfold find_entry. rewrite Htruthy. unfold getStartNode at 1. rewrite Hfl. simpl. rewrite Hk.
  rewrite Hclone. unfold bfs_fuel. cbn [bfs Nat.add].
  cbn [nodes maps objs]. rewrite list_lookup_middle by done.
  cbn [node_params successors]. unfold opt_prop at 1. cbn [objs].
  rewrite list_lookup_middle by done. cbn [obj_get].
  assert (Hneq : strict_eq VUndefined (currentNodeId st) = false).
  { unfold strict_eq. apply bool_decide_eq_false. intros Heq. by rewrite <- Heq in Htruthy. }
  rewrite Hneq.
  assert (Hmap : (maps h' ++ [[]; es]) !! S (length (maps h')) = Some es).
  { rewrite lookup_app_r by lia. by replace (S (length (maps h')) - length (maps h')) with 1 by lia. }
  rewrite Hmap. rewrite bfs_push_blank; [done|].
  apply Forall_forall. intros t Ht. apply list_elem_of_In in Ht.
  apply in_map_iff in Ht as (e & <- & He).
  pose proof (Hmaps _ _ Hes) as Hall. rewrite Forall_forall in Hall.
  destruct (Hall e) as [nt Hnt]; [by apply list_elem_of_In|].
  destruct (Hnodes _ _ Hnt) as (rt & Hnpt & Hrt & _).
  exists nt, rt. cbn [nodes objs]. split; [by apply lookup_app_l_Some|].
  split; [done | by apply Hkeep].
Qed.

(** ** Suspension *)

(** X26.  A node whose run returns the suspend token pauses the
    traversal: the loop returns at once, with [currentNodeId] set to the
    [id] of the node's [node_params]; no successor is resolved (the heap is
    the one [setParams] left, no node is cloned) and no further node runs. *)
Lemma loop_suspends orch k h this c st fp np fl cn p np' st2 :
  nodes h !! this = Some fl ->
  nodes h !! c = Some cn ->
  (forall s, kind cn <> Flow s) ->
  resolve_params h fl cn fp np = Ok (p, np') ->
  BaseNode_run (class_of (kind cn)) (setParams h c p np') (after_setParams p np' cn) st
    = (Ok STAY_ON_NODE_ACTION, st2) ->
  loop orch (S k) h this c st fp np =
  mkRun Paused (setParams h c p np')
    (set_currentNodeId st2 (opt_prop h (node_params (after_setParams p np' cn)) "id")) [c].
Proof.
  intros Hfl Hcn Hkind Hparams Hrun. simpl. unfold loop_body.
  rewrite Hcn, Hfl, Hparams. rewrite (setParams_lookup _ _ _ _ _ Hcn).
  unfold node_run.
  assert (Hk : kind (after_setParams p np' cn) = kind cn) by done.
  rewrite Hk. destruct (kind cn) as [| | | |s] eqn:Hkc; try (by destruct (Hkind s));
    rewrite Hrun, String.eqb_refl, (setParams_lookup _ _ _ _ _ Hcn);
    by rewrite (opt_prop_objs _ h) by apply setParams_objs.
Qed.

(** ** Retries *)

Lemma retry_rounds_success {A} (execCore : nat -> Result A) mr iv (r : A) k : forall rounds i,
  k < rounds ->
  (forall j, j < k -> exists e, execCore (i + j) = Throw e) ->
  execCore (i + k) = Ok r ->
  retry_rounds execCore mr iv rounds i = mkRetryRun (Ok r) (S k) (replicate k iv).
Proof.
  induction k as [|k IH]; intros rounds i Hlt Hfail Hok.
  - destruct rounds; [lia|]. simpl. rewrite Nat.add_0_r in Hok. by rewrite Hok.
  - destruct rounds; [lia|]. simpl. destruct (Hfail 0) as [e He]; [lia|].
    rewrite Nat.add_0_r in He. rewrite He.
    rewrite (IH rounds (S i)); [done|lia| |].
    + intros j Hj. destruct (Hfail (S j)) as [e' He']; [lia|]. exists e'.
      by replace (S i + j) with (i + S j) by lia.
    + by replace (S i + k) with (i + S k) by lia.
Qed.

Lemma retry_rounds_exhausted {A} (execCore : nat -> Result A) mr iv : forall rounds i,
  (forall j, j < rounds -> exists e, execCore (i + j) = Throw e) ->
  retry_rounds execCore mr iv rounds i =
  mkRetryRun (Throw (new_Error ("Max retries reached after " +:+ pretty mr +:+ " attempts")))
    rounds (replicate rounds iv).
Proof.
  induction rounds as [|rounds IH]; intros i Hfail; [done|].
  simpl. destruct (Hfail 0) as [e He]; [lia|]. rewrite Nat.add_0_r in He. rewrite He.
  rewrite IH; [done|]. intros j Hj. destruct (Hfail (S j)) as [e' He']; [lia|]. exists e'.
  by replace (S i + j) with (i + S j) by lia.
Qed.

(** X1.  [RetryNode.execWrapper] returns the result of the first attempt
    that succeeds: when the attempts before attempt [k] throw, attempt [k]
    returns [r] and [k] is below [maxRetries], the wrapper returns [r],
    having called [execCore] [k + 1] times and waited [intervalMs] after
    each of the [k] failures.  The errors of the failed attempts are
    dropped. *)
Theorem RetryNode_returns_first_success {A} (execCore : nat -> Result A)
    (maxRetries intervalMs : Z) (k : nat) (r : A) :
  (Z.of_nat k < maxRetries)%Z ->
  (forall j, j < k -> exists e, execCore j = Throw e) ->
  execCore k = Ok r ->
  RetryNode_execWrapper execCore maxRetries intervalMs =
  mkRetryRun (Ok r) (S k) (replicate k intervalMs).
Proof.
  intros Hk Hfail Hok. unfold RetryNode_execWrapper.
  apply retry_rounds_success; [lia|done|done].
Qed.

(** X2.  When every attempt allowed by [maxRetries] throws,
    [RetryNode.execWrapper] throws a new error with the message
    "Max retries reached after N attempts", after [maxRetries] calls and
    as many waits; whatever [execCore] threw, a critical error included, is
    not propagated.  With [maxRetries] zero or negative [execCore] is never
    called. *)
Theorem RetryNode_gives_up_after_maxRetries {A} (execCore : nat -> Result A)
    (maxRetries intervalMs : Z) :
  (forall j, (Z.of_nat j < maxRetries)%Z -> exists e, execCore j = Throw e) ->
  RetryNode_execWrapper execCore maxRetries intervalMs =
  mkRetryRun
    (Throw (new_Error ("Max retries reached after " +:+ pretty maxRetries +:+ " attempts")))
    (Z.to_nat maxRetries) (replicate (Z.to_nat maxRetries) intervalMs).
Proof.
  intros Hfail. unfold RetryNode_execWrapper.
  apply retry_rounds_exhausted. intros j Hj. apply Hfail. lia.
Qed.

(** ** Batches *)

Lemma BatchFlow_loop_results orch this : forall items h st h' st' tr results,
  BatchFlow_loop orch h this st items = BatchDone h' st' tr results ->
  results = replicate (length items) VUndefined.
Proof.
  induction items as [|item items IH]; intros h st h' st' tr results Hl; simpl in Hl.
  - by inversion Hl.
  - destruct (nodes h !! this) as [n|]; [|done].
    destruct (prop h (flow_params n) "nodeParams") as [np|e]; [|done].
    destruct (outcome (orch h this st item np)); try done;
      destruct (BatchFlow_loop orch _ this _ items) as [h1 st1 tr1 res1|r1] eqn:Hrest; try done;
      inversion Hl; subst; simpl; f_equal; by eapply IH.
Qed.

(** X3.  [BatchFlow.run] with the [prep] of [BatchFlow] itself, which
    returns no parameter sets, never traverses the graph: it returns the
    default action with empty result lists and leaves the heap and the
    shared state as they were.  With a [prep] that returns parameter sets,
    a run that returns has the default action, the list of [prep], and one
    [undefined] result per parameter set. *)
Theorem BatchFlow_run_results prep orch h this st :
  BatchFlow_run BatchFlow_prep orch h this st = BatchReturned DEFAULT_ACTION [] [] h st [] /\
  (forall action prepResult execResult h' st' tr,
      BatchFlow_run prep orch h this st = BatchReturned action prepResult execResult h' st' tr ->
      action = DEFAULT_ACTION /\
      prepResult = prep st VUndefined /\
      execResult = replicate (length prepResult) VUndefined).
Proof.
  split; [done|]. unfold BatchFlow_run. intros action pl el h' st' tr Hrun.
  destruct (BatchFlow_loop orch h this st (prep st VUndefined)) as [h1 st1 tr1 res1|r1] eqn:Hl;
    [|done].
  simpl in Hrun. inversion Hrun; subst. split; [done|]. split; [done|].
  by eapply BatchFlow_loop_results.
Qed.


(** ** Adding a message to the prepared view *)

Lemma find_has_role r ms :
  List.find (fun msg => String.eqb (role msg) r) ms = None <-> has_role r ms = false.
Proof.
  unfold has_role. induction ms as [|m ms IH]; simpl; [done|].
  destruct (String.eqb (role m) r); simpl; [split; discriminate | exact IH].
Qed.

Lemma has_role_snoc r ms c : has_role r (ms ++ [mkMsg r c]) = true.
Proof.
  unfold has_role. rewrite existsb_app. simpl. rewrite String.eqb_refl.
  by rewrite orb_true_r.
Qed.

Lemma addMessageToState_present pr r c :
  has_role r (pr_messages pr) = true -> addMessageToState pr r c = Ok pr.
Proof.
  intros Hr. unfold addMessageToState.
  destruct (List.find _ (pr_messages pr)) eqn:Hf; [done|].
  apply find_has_role in Hf. congruence.
Qed.

(** X5.  For the roles [system], [user] and [assistant],
    [addMessageToState] appends a message with the given content when the
    prepared view holds no message of that role, and changes nothing when
    it holds one: the existing message keeps its content.  Afterwards the
    view holds a message of the role, and a second call, with whatever
    content, changes nothing. *)
Theorem addMessageToState_adds_once pr r c :
  In r ["system"; "user"; "assistant"] ->
  exists pr',
    addMessageToState pr r c = Ok pr' /\
    pr_messages pr' =
      (if has_role r (pr_messages pr) then pr_messages pr
       else pr_messages pr ++ [mkMsg r (CText c)]) /\
    has_role r (pr_messages pr') = true /\
    (forall c', addMessageToState pr' r c' = Ok pr').
Proof.
  intros Hr. destruct (has_role r (pr_messages pr)) eqn:Hhas.
  - exists pr. split; [by apply addMessageToState_present|]. split; [done|]. split; [done|].
    intros c'. by apply addMessageToState_present.
  - assert (Hadd : addMessageToState pr r c =
                   Ok (with_messages (pr_messages pr ++ [mkMsg r (CText c)]) pr)).
    { unfold addMessageToState. apply find_has_role in Hhas. rewrite Hhas.
      simpl in Hr. destruct Hr as [<-|[<-|[<-|[]]]]; reflexivity. }
    eexists. split; [exact Hadd|]. simpl. split; [done|].
    split; [apply has_role_snoc|]. intros c'. apply addMessageToState_present.
    simpl. apply has_role_snoc.
Qed.

(** X6.  For any other role [addMessageToState] never adds a message.  It
    throws, "Tool messages require a tool_call_id" for the role [tool] and
    "Unsupported role: R" otherwise, only when the prepared view holds no
    message of that role; when it holds one, the call returns and changes
    nothing. *)
Theorem addMessageToState_rejects_other_roles pr r c :
  ~ In r ["system"; "user"; "assistant"] ->
  addMessageToState pr r c =
  if has_role r (pr_messages pr) then Ok pr
  else Throw (new_Error (if String.eqb r "tool" then "Tool messages require a tool_call_id"
                         else "Unsupported role: " +:+ r)).
Proof.
  intros Hr. destruct (has_role r (pr_messages pr)) eqn:Hhas;
    [by apply addMessageToState_present|].
  unfold addMessageToState. apply find_has_role in Hhas. rewrite Hhas.
  destruct (String.eqb r "system") eqn:H1; [apply String.eqb_eq in H1; subst; exfalso; apply Hr; simpl; auto 6|].
  destruct (String.eqb r "user") eqn:H2; [apply String.eqb_eq in H2; subst; exfalso; apply Hr; simpl; auto 6|].
  destruct (String.eqb r "assistant") eqn:H3; [apply String.eqb_eq in H3; subst; exfalso; apply Hr; simpl; auto 6|].
  by destruct (String.eqb r "tool").
Qed.

(** ** Process node: errors and replies *)

(** X7.  [ProcessNode.prep] validates its inputs in a fixed order and
    throws on the first failure: a missing node identifier or flow
    identifier, then a missing bound model, then a failure to resolve the
    tools of the bound MCP nodes (only consulted when the run context holds
    no tools).  When [prep] throws, [run] throws the same error and the
    shared state is as it was: no model call is made and no tracker entry
    is written. *)
Theorem ProcessNode_prep_errors h st np :
  let nodeId := opt_prop h np "id" in
  let boundModel := opt_prop h (opt_prop h np "properties") "boundModel" in
  (truthy nodeId = false \/ flowId st = "" ->
     ProcessNode_prep h st np = Throw (new_Error "Process node requires node ID and flow ID")) /\
  (truthy nodeId = true -> flowId st <> "" -> truthy boundModel = false ->
     ProcessNode_prep h st np = Throw (new_Error "Process node requires a bound model")) /\
  (forall msg,
     truthy nodeId = true -> flowId st <> "" -> truthy boundModel = true ->
     prep_tools h st np = inl msg ->
     ProcessNode_prep h st np = Throw (new_Error ("Failed to process MCP nodes: " +:+ msg))) /\
  (forall this e,
     ProcessNode_prep h st (node_params this) = Throw e ->
     BaseNode_run ProcessNode_class h this st = (Throw e, st)).
Proof.
  intros nodeId boundModel. subst nodeId boundModel. repeat split.
  - intros [Hid|Hflow]; unfold ProcessNode_prep.
    + by rewrite Hid.
    + rewrite Hflow. simpl. by rewrite orb_true_r.
  - intros Hid Hflow Hmodel. unfold ProcessNode_prep. rewrite Hid, Hmodel. simpl.
    by destruct (String.eqb_spec (flowId st) "").
  - intros msg Hid Hflow Hmodel Htools. unfold ProcessNode_prep. rewrite Hid, Hmodel. simpl.
    destruct (String.eqb_spec (flowId st) ""); [done|]. simpl.
    unfold prep_tools in Htools.
    destruct (mcpContext_availableTools st) as [[|t ts]|].
    + destruct (elems_of h _) as [|v vs]; [by inversion Htools|]. by rewrite Htools.
    + by inversion Htools.
    + destruct (elems_of h _) as [|v vs]; [by inversion Htools|]. by rewrite Htools.
  - intros this e Hprep. unfold BaseNode_run. simpl. by rewrite Hprep.
Qed.

(** X8.  [ProcessNode.execCore] turns ordinary errors into a failure
    result instead of throwing: a failure to prepare the tools, and a model
    call that rejects with an error carrying neither the model-error nor
    the critical-tool-error marker.  It only ever throws errors that are
    objects carrying one of the two markers.  When [execCore] returns,
    whether with a success or with a failure result, [run] returns the
    action of [post]: the traversal goes on. *)
Theorem ProcessNode_execCore_recovers_ordinary_errors h pr np :
  (forall t ts msg,
      pr_availableTools pr = t :: ts -> prepareTools (t :: ts) = inl msg ->
      ProcessNode_execCore h pr np =
      Ok (error_result (new_Error ("Failed to prepare tools: " +:+ msg)))) /\
  (forall tools e,
      prepare_tools pr = Ok tools ->
      callModel (model_call h pr np tools) = CallRejects e ->
      ProcessNode_execCore h pr np =
      if typeof_object e && (has_isCriticalToolError e || has_isModelError e)
      then Throw e else Ok (error_result e)) /\
  (forall e,
      ProcessNode_execCore h pr np = Throw e ->
      typeof_object e = true /\ (has_isCriticalToolError e || has_isModelError e) = true) /\
  (forall this st er,
      ProcessNode_prep h st (node_params this) = Ok pr ->
      ProcessNode_execCore h pr (node_params this) = Ok er ->
      BaseNode_run ProcessNode_class h this st =
      (Ok (fst (ProcessNode_post h this pr er st (node_params this))),
       snd (ProcessNode_post h this pr er st (node_params this)))).
Proof.
  repeat split.
  - intros t ts msg Htools Hfail. unfold ProcessNode_execCore, prepare_tools.
    by rewrite Htools, Hfail.
  - intros tools e Htools Hcall. unfold ProcessNode_execCore. by rewrite Htools, Hcall.
  - revert H. unfold ProcessNode_execCore.
    destruct (prepare_tools pr) as [tools|e0].
    + destruct (callModel _) as [e0|[pe|mv]]; [| |done].
      * destruct (typeof_object e0 && _) eqn:Hc; [|done].
        intros H. inversion H; subst. by apply andb_prop in Hc as [? ?].
      * simpl. intros H. by inversion H.
    + destruct (typeof_object e0 && _) eqn:Hc; [|done].
      intros H. inversion H; subst. by apply andb_prop in Hc as [? ?].
  - revert H. unfold ProcessNode_execCore.
    destruct (prepare_tools pr) as [tools|e0].
    + destruct (callModel _) as [e0|[pe|mv]]; [| |done].
      * destruct (typeof_object e0 && _) eqn:Hc; [|done].
        intros H. inversion H; subst. by apply andb_prop in Hc as [? ?].
      * simpl. intros H. by inversion H.
    + destruct (typeof_object e0 && _) eqn:Hc; [|done].
      intros H. inversion H; subst. by apply andb_prop in Hc as [? ?].
  - intros this st er Hprep Hexec. unfold BaseNode_run, execWrapper. simpl.
    rewrite Hprep, Hexec. by destruct (ProcessNode_post _ _ _ _ _ _).
Qed.

(** X9.  When the model call succeeds, [execCore] returns a success result
    and [post] stores the reply: the text becomes [lastResponse] unless it
    is absent or empty, in which case [lastResponse] keeps its earlier
    value; the messages of the reply replace the conversation unless they
    are absent or empty; and one tracker entry of type [ProcessNode] is
    appended. *)
Theorem ProcessNode_success_stores_reply h this pr np st tools mv :
  prepare_tools pr = Ok tools ->
  callModel (model_call h pr np tools) = CallResolves (inr mv) ->
  exists er,
    ProcessNode_execCore h pr np = Ok er /\
    er_success er = true /\
    let st' := snd (ProcessNode_post h this pr er st np) in
    lastResponse st' =
      match mv_content mv with
      | Some c => if String.eqb c "" then lastResponse st else Some (LRText c)
      | None => lastResponse st
      end /\
    messages st' =
      match mv_messages mv with
      | Some (m :: ms) => m :: ms
      | _ => messages st
      end /\
    exists entry,
      nodeExecutionTracker st' = nodeExecutionTracker st ++ [entry] /\
      te_nodeType entry = "ProcessNode".
Proof.
  intros Htools Hcall. eexists. split.
  { unfold ProcessNode_execCore. rewrite Htools, Hcall. reflexivity. }
  split; [done|]. cbn zeta. split; [|split].
  - unfold ProcessNode_post. cbn [er_success er_content er_messages negb].
    destruct (List.filter _ (successor_keys h this)); cbn [snd];
      destruct (mv_messages mv) as [[|m ms]|]; cbn;
      destruct (mv_content mv) as [c|]; cbn; try done;
      destruct (String.eqb c ""); done.
  - by rewrite ProcessNode_post_messages.
  - unfold ProcessNode_post. cbn [er_success er_content er_messages negb].
    destruct (List.filter _ (successor_keys h this)); cbn [snd];
      destruct (mv_messages mv) as [[|m ms]|]; cbn;
      destruct (mv_content mv) as [c|]; cbn; try (by eexists);
      destruct (String.eqb c ""); by eexists.
Qed.

(** ** Finish node: what a run changes *)

(** X10.  A finish node never fails.  Its run leaves the conversation and
    the resume position as they were; it appends one tracker entry of type
    [FinishNode] when the execution tracker is enabled and none when it is
    not; and it leaves [lastResponse] as it was unless the last message of
    the conversation is an assistant message with content. *)
Theorem FinishNode_run_never_fails h this st :
  exists action st',
    BaseNode_run FinishNode_class h this st = (Ok action, st') /\
    messages st' = messages st /\
    currentNodeId st' = currentNodeId st /\
    nodeExecutionTracker st' =
      (if ENABLE_EXECUTION_TRACKER
       then nodeExecutionTracker st ++
              [mkEntry "FinishNode"
                 (js_or (opt_prop h (node_params this) "id") (VStr "unknown"))
                 (js_or (opt_prop h (opt_prop h (node_params this) "properties") "name")
                    (VStr "Finish Node"))
                 None None VUndefined Date_toISOString]
       else nodeExecutionTracker st) /\
    (lastResponse st' = lastResponse st \/
     exists m, last (messages st) = Some m /\ role m = "assistant" /\
               content_truthy (content m) = true).
Proof.
  unfold BaseNode_run, execWrapper. cbn [c_prep c_execCore c_post FinishNode_class].
  unfold FinishNode_post, FinishNode_prep. cbn [fp_messages Array_isArray].
  rewrite andb_true_r.
  destruct (successor_keys h this); eexists _, _; (split; [reflexivity|]);
    destruct ENABLE_EXECUTION_TRACKER; cbn;
    destruct (last (messages st)) as [m|] eqn:Hlast; cbn; try (by repeat split; try left);
    destruct (String.eqb (role m) "assistant") eqn:Hrole; cbn; try (by repeat split; try left);
    destruct (content_truthy (content m)) eqn:Hc; cbn; try (by repeat split; try left);
    apply String.eqb_eq in Hrole;
    destruct (content m) eqn:Hcm; cbn; repeat split; try done; right; exists m; by rewrite ?Hcm.
Qed.

(** ** Successors and the steps of the loop *)

Lemma clone_shape h t h' c :
  clone h t = Some (h', c) ->
  exists n es nc,
    nodes h !! t = Some n /\ maps h !! successors n = Some es /\
    c = length (nodes h) /\ nodes h' = nodes h ++ [nc] /\ kind nc = kind n /\
    successors nc = S (length (maps h)) /\ maps h' = maps h ++ [[]; es] /\
    length (objs h) <= length (objs h') /\
    (forall l, l < length (objs h) -> objs h' !! l = objs h !! l).
Proof.
  intros Hc.
  destruct (nodes h !! t) as [n|] eqn:Hn;
    [|unfold clone in Hc; rewrite Hn in Hc; simpl in Hc; done].
  destruct (maps h !! successors n) as [es|] eqn:Hes;
    [|unfold clone in Hc; rewrite Hn in Hc; simpl in Hc; rewrite Hes in Hc; simpl in Hc; done].
  destruct (cloneDeep (objs h ++ [PObject []; PObject []]) (flow_params n)) as [o2 fp] eqn:H2.
  destruct (cloneDeep o2 (node_params n)) as [o3 np] eqn:H3.
  rewrite (clone_unfold h t n es o2 fp o3 np Hn Hes H2 H3) in Hc. inversion Hc; subst.
  exists n, es, (mkNode (kind n) fp np (S (length (maps h)))). cbn [nodes maps objs kind successors].
  pose proof (cloneDeep_keeps (objs h ++ [PObject []; PObject []]) (flow_params n)) as [Hl2 Hk2].
  pose proof (cloneDeep_keeps o2 (node_params n)) as [Hl3 Hk3].
  rewrite H2 in Hl2, Hk2. rewrite H3 in Hl3, Hk3. cbn [fst] in Hl2, Hk2, Hl3, Hk3.
  rewrite length_app in Hl2. simpl in Hl2.
  repeat split; try done; [lia|].
  intros l Hl. rewrite Hk3 by lia. rewrite Hk2 by (rewrite length_app; simpl; lia).
  by rewrite lookup_app_l by lia.
Qed.

Lemma clone_is_Some h t n es :
  nodes h !! t = Some n -> maps h !! successors n = Some es -> is_Some (clone h t).
Proof.
  intros Hn Hes.
  destruct (cloneDeep (objs h ++ [PObject []; PObject []]) (flow_params n)) as [o2 fp] eqn:H2.
  destruct (cloneDeep o2 (node_params n)) as [o3 np] eqn:H3.
  by rewrite (clone_unfold h t n es o2 fp o3 np Hn Hes H2 H3).
Qed.

(** X11.  Registering a successor and asking for it: after
    [addSuccessor(target, action)] has succeeded, [getSuccessor(action)]
    returns a new node, not the registered one.  The new node is appended
    to the heap, every node that existed (the registered one included)
    is left as it was, the new node has the class of the registered node,
    and its successor map is a new map with the entries of the registered
    node's map. *)
Theorem addSuccessor_then_getSuccessor h this target action n nt h' :
  nodes h !! this = Some n ->
  nodes h !! target = Some nt ->
  is_Some (maps h !! successors nt) ->
  addSuccessor h this target action = Some (h', Ok tt) ->
  exists h'' nc,
    getSuccessor h' this action = Some (h'', Some (length (nodes h))) /\
    nodes h'' = nodes h ++ [nc] /\
    kind nc = kind nt /\
    successors nc <> successors nt /\
    is_Some (maps h'' !! successors nc) /\
    maps h'' !! successors nc = maps h' !! successors nt.
Proof.
  intros Hn Hnt Hes_t Hadd. unfold addSuccessor in Hadd. rewrite Hn in Hadd. simpl in Hadd.
  destruct (maps h !! successors n) as [es|] eqn:Hes; [|done]. simpl in Hadd.
  destruct (map_has action es); [done|]. inversion Hadd; subst h'. clear Hadd.
  set (h' := set_maps h (<[successors n := map_set action target es]> (maps h))).
  assert (Hes' : maps h' !! successors n = Some (map_set action target es)).
  { simpl. apply list_lookup_insert_eq. by eapply lookup_lt_Some. }
  assert (Hest' : is_Some (maps h' !! successors nt)).
  { simpl. apply lookup_lt_is_Some. rewrite length_insert. by apply lookup_lt_is_Some. }
  destruct Hest' as [est' Hest'].
  destruct (clone h' target) as [[h'' c]|] eqn:Hc.
  - destruct (clone_shape _ _ _ _ Hc)
      as (n0 & es0 & nc & Hn0 & Hes0 & -> & Hnodes & Hkind & Hsucc & Hmaps & _).
    change (nodes h') with (nodes h) in *. rewrite Hnt in Hn0. inversion Hn0; subst n0.
    rewrite Hest' in Hes0. inversion Hes0; subst es0.
    exists h'', nc. split.
    { unfold getSuccessor. change (nodes h') with (nodes h). rewrite Hn. simpl.
      simpl in Hes'. rewrite Hes'. simpl. rewrite map_get_set_same. by rewrite Hc. }
    split; [done|]. split; [done|].
    pose proof (lookup_lt_Some _ _ _ Hest') as Hlt.
    assert (Hlook : maps h'' !! successors nc = Some est').
    { rewrite Hmaps, Hsucc. rewrite lookup_app_r by lia.
      by replace (S (length (maps h')) - length (maps h')) with 1 by lia. }
    split; [lia|]. split; [by rewrite Hlook | by rewrite Hlook, Hest'].
  - destruct (clone_is_Some h' target nt est' Hnt Hest') as [x Hx]. congruence.
Qed.

Lemma node_run_plain orch h n l st :
  is_flow (kind n) = false ->
  node_run orch h n l st =
  match BaseNode_run (class_of (kind n)) h n st with
  | (Ok action, st') => Returned action h st' []
  | (Throw e, st') => Failed (mkRun (Aborted e) h st' [])
  end.
Proof. unfold node_run. by destruct (kind n). Qed.

Lemma is_flow_false k : (forall s, k <> Flow s) -> is_flow k = false.
Proof. destruct k; try done. intros H. by destruct (H start). Qed.

Lemma loop_body_returned orch h this c st fp np fl cn p np' action st2 :
  nodes h !! this = Some fl ->
  nodes h !! c = Some cn ->
  is_flow (kind cn) = false ->
  resolve_params h fl cn fp np = Ok (p, np') ->
  BaseNode_run (class_of (kind cn)) (setParams h c p np') (after_setParams p np' cn) st
    = (Ok action, st2) ->
  action <> STAY_ON_NODE_ACTION ->
  loop_body orch h this c st fp np =
  match getSuccessor (setParams h c p np') c action with
  | None => Done (mkRun Stuck (setParams h c p np') st2 [c])
  | Some (h3, None) => Done (mkRun Completed h3 (set_currentNodeId st2 VUndefined) [c])
  | Some (h3, Some next) => Next h3 next st2 [c]
  end.
Proof.
  intros Hfl Hcn Hkind Hparams Hrun Hstay. unfold loop_body.
  rewrite Hcn, Hfl, Hparams. rewrite (setParams_lookup _ _ _ _ _ Hcn).
  rewrite node_run_plain by done.
  change (kind (after_setParams p np' cn)) with (kind cn). rewrite Hrun.
  apply String.eqb_neq in Hstay. by rewrite Hstay.
Qed.

(** X12.  A missing successor is not an error: when the node that ran
    returns an action for which it has no successor, the traversal ends as
    completed and [currentNodeId] is cleared.  Nothing is cloned: the heap
    is the one [setParams] left. *)
Theorem loop_completes_without_successor orch k h this c st fp np fl cn p np' action st2 es :
  nodes h !! this = Some fl ->
  nodes h !! c = Some cn ->
  (forall s, kind cn <> Flow s) ->
  resolve_params h fl cn fp np = Ok (p, np') ->
  BaseNode_run (class_of (kind cn)) (setParams h c p np') (after_setParams p np' cn) st
    = (Ok action, st2) ->
  action <> STAY_ON_NODE_ACTION ->
  maps h !! successors cn = Some es ->
  map_get action es = None ->
  loop orch (S k) h this c st fp np =
  mkRun Completed (setParams h c p np') (set_currentNodeId st2 VUndefined) [c].
Proof.
  intros Hfl Hcn Hkind Hparams Hrun Hstay Hes Hget. simpl.
  rewrite (loop_body_returned orch h this c st fp np fl cn p np' action st2)
    by (try done; by apply is_flow_false).
  unfold getSuccessor. rewrite (setParams_lookup _ _ _ _ _ Hcn). simpl.
  rewrite setParams_maps, Hes. simpl. by rewrite Hget.
Qed.

(** X13.  Following an edge: when the node that ran returns an action
    registered for the node [target], the next round of the loop runs a
    new clone of [target], allocated at the end of the heap.  Of the nodes
    that existed only the one that ran was written (by [setParams]); the
    clone has the class of [target] and the entries of its successor map. *)
Theorem loop_follows_edge_to_new_clone
    orch k h this c st fp np fl cn p np' action st2 es target nt :
  nodes h !! this = Some fl ->
  nodes h !! c = Some cn ->
  (forall s, kind cn <> Flow s) ->
  resolve_params h fl cn fp np = Ok (p, np') ->
  BaseNode_run (class_of (kind cn)) (setParams h c p np') (after_setParams p np' cn) st
    = (Ok action, st2) ->
  action <> STAY_ON_NODE_ACTION ->
  maps h !! successors cn = Some es ->
  map_get action es = Some target ->
  target <> c ->
  nodes h !! target = Some nt ->
  is_Some (maps h !! successors nt) ->
  exists h3 nc,
    loop orch (S k) h this c st fp np =
      prepend [c] (loop orch k h3 this (length (nodes h)) st2 fp np) /\
    nodes h3 !! length (nodes h) = Some nc /\
    length (nodes h3) = S (length (nodes h)) /\
    nodes h3 !! c = Some (after_setParams p np' cn) /\
    (forall l, l <> c -> l < length (nodes h) -> nodes h3 !! l = nodes h !! l) /\
    kind nc = kind nt /\
    maps h3 !! successors nc = maps h !! successors nt.
Proof.
  intros Hfl Hcn Hkind Hparams Hrun Hstay Hes Hget Hne Hnt [est Hest].
  set (h1 := setParams h c p np').
  assert (Hnt1 : nodes h1 !! target = Some nt).
  { unfold h1. rewrite setParams_other by done. exact Hnt. }
  assert (Hlen1 : length (nodes h1) = length (nodes h)).
  { unfold h1, setParams. destruct (truthy np'); by rewrite ?update_node_length. }
  assert (Hmaps1 : maps h1 = maps h) by apply setParams_maps.
  destruct (clone h1 target) as [[h3 next]|] eqn:Hc.
  - destruct (clone_shape _ _ _ _ Hc)
      as (n0 & es0 & nc & Hn0 & Hes0 & -> & Hnodes & Hk & Hsucc & Hmaps & _).
    rewrite Hnt1 in Hn0. inversion Hn0; subst n0.
    rewrite Hmaps1, Hest in Hes0. inversion Hes0; subst es0.
    exists h3, nc. split.
    { simpl.
      rewrite (loop_body_returned orch h this c st fp np fl cn p np' action st2)
        by (try done; by apply is_flow_false).
      unfold getSuccessor. rewrite (setParams_lookup _ _ _ _ _ Hcn). simpl.
      rewrite setParams_maps, Hes. simpl. rewrite Hget. fold h1. rewrite Hc. simpl.
      by rewrite Hlen1. }
    rewrite Hnodes. split; [by rewrite <- Hlen1, list_lookup_middle|].
    split; [rewrite length_app; simpl; lia|].
    split.
    { apply lookup_app_l_Some. unfold h1. by apply setParams_lookup. }
    split.
    { intros l Hl Hlt. rewrite lookup_app_l by lia. unfold h1. by rewrite setParams_other. }
    split; [done|]. rewrite Hmaps, Hsucc, Hmaps1. rewrite lookup_app_r by lia.
    replace (S (length (maps h)) - length (maps h)) with 1 by lia. by rewrite Hest.
  - destruct (clone_is_Some h1 target nt est Hnt1) as [x Hx]; [by rewrite Hmaps1|]. congruence.
Qed.

(** X14.  A pause inside a nested flow is not passed on.  When the node
    that runs is itself a flow and its traversal pauses, [Flow.run] returns
    the default action all the same; if the nested flow has no successor
    for the default action, the enclosing traversal ends as completed and
    clears [currentNodeId], which the nested traversal had set. *)
Theorem nested_pause_is_not_passed_on orch k h this c st fp np fl cn s p np' npv c2 es2 :
  nodes h !! this = Some fl ->
  nodes h !! c = Some cn ->
  kind cn = Flow s ->
  resolve_params h fl cn fp np = Ok (p, np') ->
  prop (setParams h c p np') p "nodeParams" = Ok npv ->
  let r := orch (setParams h c p np') c st p npv in
  outcome r = Paused ->
  DEFAULT_ACTION <> STAY_ON_NODE_ACTION ->
  nodes (final_heap r) !! c = Some c2 ->
  maps (final_heap r) !! successors c2 = Some es2 ->
  map_get DEFAULT_ACTION es2 = None ->
  loop orch (S k) h this c st fp np =
  mkRun Completed (final_heap r) (set_currentNodeId (final_state r) VUndefined) (c :: trace r).
Proof.
  intros Hfl Hcn Hkind Hparams Hnp r Hout Hstay Hc2 Hes2 Hget. simpl. unfold loop_body.
  rewrite Hcn, Hfl, Hparams. rewrite (setParams_lookup _ _ _ _ _ Hcn).
  unfold node_run. change (kind (after_setParams p np' cn)) with (kind cn). rewrite Hkind.
  unfold Flow_run. rewrite (setParams_lookup _ _ _ _ _ Hcn).
  change (flow_params (after_setParams p np' cn)) with p. rewrite Hnp.
  fold r. rewrite Hout. cbn [Flow_post].
  apply String.eqb_neq in Hstay. rewrite Hstay.
  unfold getSuccessor. rewrite Hc2. simpl. rewrite Hes2. simpl. by rewrite Hget.
Qed.

(** ** A new run leaves the graph as it is *)

Lemma extends_graph_setParams h0 h c p np' :
  extends_graph h0 h -> length (nodes h0) <= c -> extends_graph h0 (setParams h c p np').
Proof.
  intros (Hn & Hm & Ho & Hlen & Ht) Hc. unfold extends_graph.
  rewrite setParams_maps, setParams_objs. repeat split; try done.
  - intros l Hl. rewrite setParams_other by lia. by apply Hn.
  - unfold setParams. destruct (truthy np'); by rewrite ?update_node_length.
Qed.

Lemma extends_graph_clone h0 h t h' c :
  extends_graph h0 h -> clone h t = Some (h', c) -> extends_graph h0 h'.
Proof.
  intros (Hn & Hm & Ho & Hlen & Ht) Hc.
  destruct (clone_shape _ _ _ _ Hc)
    as (n & es & nc & Hnt & Hes & -> & Hnodes & Hk & Hsucc & Hmaps & Hlo & Hko).
  unfold extends_graph. rewrite Hnodes, Hmaps. repeat split.
  - intros l Hl. rewrite lookup_app_l by lia. by apply Hn.
  - intros l Hl. destruct (lookup_lt_is_Some_2 (maps h0) l Hl) as [x Hx].
    rewrite Hx. apply lookup_app_l_Some. by rewrite Hm.
  - intros l Hl. destruct (lookup_lt_is_Some_2 (objs h0) l Hl) as [x Hx].
    assert (Hh : objs h !! l = Some x) by (by rewrite Ho).
    pose proof (lookup_lt_Some _ _ _ Hh). rewrite Hko by lia. by rewrite Ho.
  - rewrite length_app. simpl. lia.
  - intros ml es' Hml. destruct (decide (ml < length (maps h))) as [Hlt|Hge].
    + rewrite lookup_app_l in Hml by done. by eapply Ht.
    + rewrite lookup_app_r in Hml by lia.
      destruct (ml - length (maps h)) as [|[|i]]; simpl in Hml.
      * inversion Hml. constructor.
      * inversion Hml; subst. by eapply Ht.
      * done.
Qed.

Lemma loop_extends_graph orch this fp np h0 : forall k h c st,
  extends_graph h0 h ->
  length (nodes h0) <= c ->
  (forall cn, nodes h !! c = Some cn -> is_flow (kind cn) = false) ->
  extends_graph h0 (final_heap (loop orch k h this c st fp np)) /\
  Forall (fun c' => length (nodes h0) <= c') (trace (loop orch k h this c st fp np)).
Proof.
  induction k as [|k IH]; intros h c st Hext Hc Hplain; [by split|].
  simpl. unfold loop_body.
  destruct (nodes h !! c) as [cn|] eqn:Hcn; [|by split].
  destruct (nodes h !! this) as [fl|] eqn:Hfl; [|by split].
  destruct (resolve_params h fl cn fp np) as [[p np']|e]; [|split; [done|by repeat constructor]].
  pose proof (extends_graph_setParams h0 h c p np' Hext Hc) as Hext1.
  rewrite (setParams_lookup _ _ _ _ _ Hcn).
  assert (Hflow : is_flow (kind cn) = false) by (by apply Hplain).
  rewrite node_run_plain by exact Hflow.
  change (kind (after_setParams p np' cn)) with (kind cn).
  destruct (BaseNode_run _ _ _ _) as [[action|e] st2];
    [|split; [done|by repeat constructor]].
  destruct (String.eqb action STAY_ON_NODE_ACTION).
  { rewrite (setParams_lookup _ _ _ _ _ Hcn). split; [done|by repeat constructor]. }
  unfold getSuccessor. rewrite (setParams_lookup _ _ _ _ _ Hcn). simpl.
  rewrite setParams_maps.
  destruct (maps h !! successors cn) as [es|] eqn:Hes; simpl;
    [|split; [done|by repeat constructor]].
  destruct (map_get action es) as [target|] eqn:Hget;
    [|split; [done|by repeat constructor]].
  destruct (clone (setParams h c p np') target) as [[h3 next]|] eqn:Hclone; simpl;
    [|split; [done|by repeat constructor]].
  pose proof (extends_graph_clone _ _ _ _ _ Hext1 Hclone) as Hext3.
  destruct (clone_shape _ _ _ _ Hclone)
    as (nt & est & nc & Hnt & Hest & -> & Hnodes & Hk & _).
  destruct Hext as (Hn & _ & _ & Hlen & Ht).
  destruct Hext1 as (Hn1 & _ & _ & Hlen1 & _).
  assert (Htarget : exists n, nodes h0 !! target = Some n /\ is_flow (kind n) = false).
  { pose proof (Ht _ _ Hes) as Hall. rewrite Forall_forall in Hall.
    revert Hget Hall. clear. induction es as [|[k' x] r IHr]; simpl; [done|].
    intros Hget Hall. destruct (String.eqb action k').
    - inversion Hget; subst. apply (Hall (k', target)). by left.
    - apply IHr; [done|]. intros y Hy. apply Hall. by right. }
  destruct Htarget as (n0 & Hn0 & Hflow0).
  pose proof (lookup_lt_Some _ _ _ Hn0) as Hlt0.
  rewrite Hn1 in Hnt by done. rewrite Hn0 in Hnt. inversion Hnt; subst nt.
  destruct (IH h3 (length (nodes (setParams h c p np'))) st2 Hext3) as [Hfin Htr].
  - lia.
  - intros cn' Hcn'. rewrite Hnodes in Hcn'. rewrite list_lookup_middle in Hcn' by done.
    inversion Hcn'; subst. by rewrite Hk.
  - split; [done|]. simpl. constructor; [done|exact Htr].
Qed.

Lemma plain_targets_extends h : plain_targets h = true -> extends_graph h h.
Proof.
  intros Hp. unfold extends_graph. repeat split; try done.
  intros ml es Hml. unfold plain_targets in Hp. rewrite forallb_forall in Hp.
  assert (Hin : In es (maps h)).
  { apply list_elem_of_In. by eapply list_elem_of_lookup_2. }
  specialize (Hp es Hin). rewrite forallb_forall in Hp.
  apply Forall_forall. intros e He. apply list_elem_of_In in He. specialize (Hp e He).
  destruct (nodes h !! snd e) as [n|]; [|done]. exists n. split; [done|].
  by destruct (is_flow (kind n)).
Qed.

(** X15.  A run that does not resume leaves the graph as it is.  On a heap
    whose successor entries refer to plain (non-flow) nodes, a traversal
    started with no [currentNodeId] only runs nodes that it has cloned
    itself: every node, successor map and parameter object that existed
    before the run is unchanged after it, however the run ends. *)
Theorem new_run_leaves_graph_untouched fuel h this st fp np fl s ns :
  plain_targets h = true ->
  nodes h !! this = Some fl ->
  kind fl = Flow s ->
  nodes h !! s = Some ns ->
  is_flow (kind ns) = false ->
  truthy (currentNodeId st) = false ->
  let r := orchestrate fuel h this st fp np in
  (forall l, l < length (nodes h) -> nodes (final_heap r) !! l = nodes h !! l) /\
  (forall l, l < length (maps h) -> maps (final_heap r) !! l = maps h !! l) /\
  (forall l, l < length (objs h) -> objs (final_heap r) !! l = objs h !! l) /\
  Forall (fun c => length (nodes h) <= c) (trace r).
Proof.
  intros Hp Hfl Hk Hns Hplain Hfresh r.
  assert (Hgoal : extends_graph h (final_heap r) /\
                  Forall (fun c => length (nodes h) <= c) (trace r)).
  { subst r. destruct fuel as [|f]; [split; [by apply plain_targets_extends|done]|].
    simpl. rewrite find_entry_fresh by done. unfold from_start, getStartNode.
    rewrite Hfl. simpl. rewrite Hk.
    destruct (clone h s) as [[h1 c1]|] eqn:Hc;
      [|split; [by apply plain_targets_extends|done]].
    pose proof (extends_graph_clone h h s h1 c1 (plain_targets_extends h Hp) Hc) as Hext.
    destruct (clone_shape _ _ _ _ Hc) as (n & es & nc & Hn & _ & -> & Hnodes & Hkn & _).
    rewrite Hns in Hn. inversion Hn; subst n.
    apply loop_extends_graph; [done|lia|].
    intros cn Hcn. rewrite Hnodes in Hcn. rewrite list_lookup_middle in Hcn by done.
    inversion Hcn; subst. by rewrite Hkn. }
  destruct Hgoal as [(Hn & Hm & Ho & _) Htr]. by repeat split.
Qed.

(** ** The graph builder: errors, dangling edges, the parameter table *)

Lemma createNode_known h node k :
  kind_of_type (fn_type node) = Some k -> exists r, createNode h node = Ok r.
Proof.
  intros Hk. unfold createNode. rewrite Hk.
  destruct (new_node k h) as [h1 l].
  destruct (truthy (fn_properties node)); simpl; by eexists.
Qed.

Lemma create_nodes_app l1 : forall l2 h m,
  create_nodes h (l1 ++ l2) m =
  match create_nodes h l1 m with
  | Ok (h', m') => create_nodes h' l2 m'
  | Throw e => Throw e
  end.
Proof.
  induction l1 as [|node l1 IH]; intros l2 h m; simpl; [done|].
  destruct (createNode h node) as [[h' l]|e]; [apply IH | done].
Qed.

Lemma create_nodes_known ns : forall h m,
  Forall (fun n => kind_of_type (fn_type n) <> None) ns ->
  exists r, create_nodes h ns m = Ok r.
Proof.
  induction ns as [|node ns IH]; intros h m Hall; simpl; [by eexists|].
  inversion Hall as [|? ? Hk Hrest]; subst.
  destruct (kind_of_type (fn_type node)) as [k|] eqn:Hkind; [|done].
  destruct (createNode_known h node k Hkind) as [[h' l] Hc]. rewrite Hc. by apply IH.
Qed.

(** X16.  A node of a type other than [start], [process], [mcp] and
    [finish] makes [convert] fail with "Unknown node type: T", for the
    first such node of the description; no edge is connected and the start
    node is not looked for.  [executeFlow] then rejects with that error,
    before anything runs: the heap and the state are those of the call. *)
Theorem convert_rejects_unknown_node_type h name pre node post es :
  Forall (fun n => kind_of_type (fn_type n) <> None) pre ->
  kind_of_type (fn_type node) = None ->
  convert h (mkReactFlow name (pre ++ node :: post) es) =
    Some (Throw (new_Error ("Unknown node type: " +:+ fn_type node))) /\
  (forall fuel init,
      List.find (fun flow => String.eqb (rf_name flow) name) loadFlows =
        Some (mkReactFlow name (pre ++ node :: post) es) ->
      executeFlow fuel h name init =
        Rejects (new_Error ("Unknown node type: " +:+ fn_type node)) h init).
Proof.
  intros Hpre Hnode.
  assert (Hconv : convert h (mkReactFlow name (pre ++ node :: post) es) =
                  Some (Throw (new_Error ("Unknown node type: " +:+ fn_type node)))).
  { unfold convert. cbn [rf_nodes rf_edges]. rewrite create_nodes_app.
    destruct (create_nodes_known pre h [] Hpre) as [[h1 m1] Hc]. rewrite Hc.
    cbn [create_nodes]. unfold createNode. by rewrite Hnode. }
  split; [exact Hconv|]. intros fuel init Hfind. unfold executeFlow. by rewrite Hfind, Hconv.
Qed.

Lemma map_get_set {A} k k' (x : A) m :
  map_get k (map_set k' x m) = if String.eqb k k' then Some x else map_get k m.
Proof.
  induction m as [|[k0 y] r IH]; simpl.
  - done.
  - destruct (String.eqb_spec k' k0) as [->|Hne]; simpl.
    + by destruct (String.eqb k k0).
    + destruct (String.eqb_spec k k0) as [->|Hne'].
      * destruct (String.eqb_spec k0 k'); [congruence|done].
      * exact IH.
Qed.

Lemma create_nodes_keys ns : forall h m h' m' k,
  create_nodes h ns m = Ok (h', m') ->
  map_get k m = None -> ~ In k (map fn_id ns) -> map_get k m' = None.
Proof.
  induction ns as [|node ns IH]; intros h m h' m' k Hc Hm Hk; simpl in Hc.
  - by inversion Hc; subst.
  - destruct (createNode h node) as [[h1 l]|e]; [|done].
    eapply IH; [exact Hc| |].
    + rewrite map_get_set. destruct (String.eqb_spec k (fn_id node)) as [->|Hne]; [|done].
      exfalso. apply Hk. by left.
    + intros Hin. apply Hk. by right.
Qed.

Lemma connect_edges_skip es1 : forall h m e es2,
  map_get (e_source e) m = None \/ map_get (e_target e) m = None ->
  connect_edges h (es1 ++ e :: es2) m = connect_edges h (es1 ++ es2) m.
Proof.
  induction es1 as [|edge es1 IH]; intros h m e es2 Hdangling; simpl.
  - destruct (map_get (e_source e) m), (map_get (e_target e) m); try done.
    by destruct Hdangling.
  - destruct (map_get (e_source edge) m), (map_get (e_target edge) m); try by apply IH.
    destruct (addSuccessor h _ _ _) as [[h' [[]|err]]|]; simpl; try done. by apply IH.
Qed.

(** X17.  An edge whose source or target is not the identifier of a node
    of the description is skipped: [convert] gives the same result, node for
    node and error for error, as on the description without that edge. *)
Theorem convert_skips_dangling_edges h name ns es1 e es2 :
  ~ In (e_source e) (map fn_id ns) \/ ~ In (e_target e) (map fn_id ns) ->
  convert h (mkReactFlow name ns (es1 ++ e :: es2)) =
  convert h (mkReactFlow name ns (es1 ++ es2)).
Proof.
  intros Hdangling. unfold convert. cbn [rf_nodes rf_edges].
  destruct (create_nodes h ns []) as [[h1 m]|err] eqn:Hc; [|done].
  rewrite connect_edges_skip; [done|].
  destruct Hdangling as [Hs|Ht]; [left|right]; by eapply create_nodes_keys.
Qed.

Lemma heap_keeps_refl h : heap_keeps h h.
Proof. by split. Qed.

Lemma heap_keeps_trans h1 h2 h3 : heap_keeps h1 h2 -> heap_keeps h2 h3 -> heap_keeps h1 h3.
Proof. intros [Hn Ho] [Hn' Ho']. split; intros; [by apply Hn', Hn | by apply Ho', Ho]. Qed.

Lemma described_keeps h h' m : heap_keeps h h' -> described h m -> described h' m.
Proof.
  intros [Hn Ho] Hd. eapply Forall_impl; [exact Hd|].
  intros e (n & p & ps & Hl & Hfp & Hp & Hid). exists n, p, ps.
  split; [by apply Hn|]. split; [done|]. split; [by apply Ho | done].
Qed.

Lemma described_set h m k l :
  described h m ->
  (exists n p ps, nodes h !! l = Some n /\ flow_params n = VRef p /\
                  objs h !! p = Some (PObject ps) /\ obj_get "id" ps = VStr k) ->
  described h (map_set k l m).
Proof.
  intros Hd Hnew. induction Hd as [|[k' l'] r Hx Hr IH]; simpl.
  - by repeat constructor.
  - destruct (String.eqb k k'); constructor; try done.
Qed.

Lemma new_node_shape k h :
  new_node k h =
  (mkHeap (objs h ++ [PObject []; PObject []]) (maps h ++ [[]])
     (nodes h ++ [mkNode k (VRef (length (objs h))) (VRef (S (length (objs h))))
                    (length (maps h))]),
   length (nodes h)).
Proof.
  destruct h as [o ms ns].
  unfold new_node, alloc_obj, alloc_map, alloc_node, set_objs, set_maps, set_nodes. simpl.
  rewrite length_app. simpl. rewrite Nat.add_1_r. by rewrite <- app_assoc.
Qed.

Lemma createNode_described h node h' l :
  createNode h node = Ok (h', l) ->
  heap_keeps h h' /\
  exists n p ps,
    nodes h' !! l = Some n /\ flow_params n = VRef p /\
    objs h' !! p = Some (PObject ps) /\ obj_get "id" ps = VStr (fn_id node).
Proof.
  unfold createNode. destruct (kind_of_type (fn_type node)) as [k|]; [|done].
  rewrite new_node_shape. destruct h as [o ms ns]. cbn [objs maps nodes].
  destruct (truthy (fn_properties node));
    unfold alloc_obj, set_objs, setParams; cbn [objs maps nodes truthy fst snd];
    rewrite update_node_last; intros H; inversion H; subst; clear H;
    (split; [split; cbn [objs nodes]; intros x y Hx;
             repeat apply lookup_app_l_Some; done|]);
    eexists _, _, _; cbn [objs nodes];
    (split; [by apply list_lookup_middle|]);
    (split; [reflexivity|]);
    (split; [by apply list_lookup_middle | reflexivity]).
Qed.

Lemma create_nodes_described ns : forall h m h' m',
  create_nodes h ns m = Ok (h', m') ->
  described h m ->
  heap_keeps h h' /\ described h' m'.
Proof.
  induction ns as [|node ns IH]; intros h m h' m' Hc Hd; simpl in Hc.
  - inversion Hc; subst. split; [apply heap_keeps_refl | done].
  - destruct (createNode h node) as [[h1 l]|e] eqn:Hcn; [|done].
    destruct (createNode_described _ _ _ _ Hcn) as [Hk1 Hnew].
    destruct (IH _ _ _ _ Hc) as [Hk2 Hd2].
    { apply described_set; [by eapply described_keeps | exact Hnew]. }
    split; [by eapply heap_keeps_trans | exact Hd2].
Qed.

Lemma addSuccessor_keeps h this t a h' r :
  addSuccessor h this t a = Some (h', r) -> nodes h' = nodes h /\ objs h' = objs h.
Proof.
  unfold addSuccessor. destruct (nodes h !! this) as [n|]; [|done]. simpl.
  destruct (maps h !! successors n) as [es|]; [|done]. simpl.
  destruct (map_has a es); intros H; by inversion H.
Qed.

Lemma connect_edges_keeps es : forall h m h',
  connect_edges h es m = Some (Ok h') -> nodes h' = nodes h /\ objs h' = objs h.
Proof.
  induction es as [|edge es IH]; intros h m h' Hc; simpl in Hc.
  - by inversion Hc.
  - destruct (map_get (e_source edge) m), (map_get (e_target edge) m); try by apply IH in Hc.
    destruct (addSuccessor h _ _ _) as [[h1 [[]|err]]|] eqn:Ha; simpl in Hc; try done.
    apply addSuccessor_keeps in Ha as [Hn Ho]. apply IH in Hc as [Hn' Ho']. split; congruence.
Qed.

Lemma nodeParams_table_none h m :
  foldl (fun acc e =>
           o ← acc;
           n ← nodes h !! snd e;
           Some (obj_set (fst e) (flow_params n) o)) None m = None.
Proof. induction m as [|e m IH]; simpl; [done | exact IH]. Qed.

Lemma nodeParams_table_lookup h : forall m acc tbl k,
  foldl (fun acc e =>
           o ← acc;
           n ← nodes h !! snd e;
           Some (obj_set (fst e) (flow_params n) o)) (Some acc) m = Some tbl ->
  (In k (map fst m) ->
   exists l n, In (k, l) m /\ nodes h !! l = Some n /\ obj_get k tbl = flow_params n) /\
  (~ In k (map fst m) -> obj_get k tbl = obj_get k acc).
Proof.
  induction m as [|[k0 l0] m IH]; intros acc tbl k Hf; simpl in Hf.
  - inversion Hf; subst. split; [by intros [] | done].
  - destruct (nodes h !! l0) as [n0|] eqn:Hn0; simpl in Hf;
      [|by rewrite nodeParams_table_none in Hf].
    destruct (IH _ _ k Hf) as [Hin Hout]. split.
    + intros Hk. destruct (in_dec String.string_dec k (map fst m)) as [Hm|Hm].
      * destruct (Hin Hm) as (l & n & Hl & Hn & Hg). exists l, n. split; [by right | done].
      * destruct Hk as [Hk|Hk]; [|done]. simpl in Hk. subst k0.
        exists l0, n0. split; [by left|]. split; [done|].
        rewrite (Hout Hm). by rewrite obj_get_set, String.eqb_refl.
    + intros Hk. rewrite Hout by (intros Hm; apply Hk; by right).
      rewrite obj_get_set. destruct (String.eqb_spec k k0) as [->|Hne]; [|done].
      exfalso. apply Hk. by left.
Qed.

Lemma map_get_In {A} k (m : list (string * A)) : is_Some (map_get k m) -> In k (map fst m).
Proof.
  induction m as [|[k' x] r IH]; simpl; [by intros [? ?]|].
  destruct (String.eqb_spec k k') as [->|Hne]; [by left | right; by apply IH].
Qed.

(** X18.  The parameter table of a built flow.  For every node of the
    description, the [nodeParams] object that [convert] stores in the
    parameters of the flow has, under the identifier of the node, an object
    whose [id] is that identifier; it is the very object that a node built
    for that identifier has as [flow_params], not a copy.  In the loop, a
    node whose [flow_params.id] is that identifier therefore receives this
    object both as [flow_params] and as [node_params]. *)
Theorem convert_registers_node_parameters h rf h' flow node :
  convert h rf = Some (Ok (h', flow)) ->
  In node (rf_nodes rf) ->
  exists fl table params ps template tn,
    nodes h' !! flow = Some fl /\
    opt_prop h' (flow_params fl) "nodeParams" = VRef table /\
    opt_prop h' (VRef table) (fn_id node) = VRef params /\
    objs h' !! params = Some (PObject ps) /\
    obj_get "id" ps = VStr (fn_id node) /\
    nodes h' !! template = Some tn /\
    template <> flow /\
    flow_params tn = VRef params /\
    (forall c fp,
        prop h' (flow_params c) "id" = Ok (VStr (fn_id node)) ->
        resolve_params h' fl c fp (VRef table) = Ok (VRef params, VRef params)).
Proof.
  unfold convert. intros Hc Hin.
  destruct (create_nodes h (rf_nodes rf) []) as [[h1 m]|e] eqn:Hcr; [|done].
  destruct (create_nodes_described _ _ _ _ _ Hcr) as [_ Hd1]; [constructor|].
  destruct (create_nodes_ok _ _ _ _ _ Hcr) as (_ & _ & _ & Hids); [constructor|].
  destruct (connect_edges h1 (rf_edges rf) m) as [[h2|e]|] eqn:Hw;
    cbn -[new_node setParams alloc_obj foldl] in Hc; try done.
  destruct (connect_edges_keeps _ _ _ _ Hw) as [Hn2 Ho2].
  destruct (List.find _ (rf_nodes rf)) as [first|]; [|done].
  destruct (map_get (fn_id first) m) as [s|] eqn:Hs; [|done].
  rewrite new_node_shape in Hc.
  match type of Hc with (?x ≫= _) = _ => destruct x as [tbl|] eqn:Htbl end;
    cbn -[setParams] in Hc; [|done].
  inversion Hc; subst h' flow. clear Hc.
  set (fl0 := mkNode (Flow s) (VRef (length (objs h2))) (VRef (S (length (objs h2))))
                (length (maps h2))) in *.
  set (o5 := ((objs h2 ++ [PObject []; PObject []]) ++ [PObject tbl]) ++
             [PObject [("nodeParams", VRef (length (objs h2 ++ [PObject []; PObject []])))]]).
  set (h5 := mkHeap o5 (maps h2 ++ [[]]) (nodes h2 ++ [fl0])).
  set (pl := length ((objs h2 ++ [PObject []; PObject []]) ++ [PObject tbl])).
  match goal with
  | |- context [setParams ?x ?a ?b ?c] =>
    change (setParams x a b c) with (setParams h5 (length (nodes h2)) (VRef pl) VUndefined)
  end.
  assert (Hd3 : described (mkHeap (objs h2 ++ [PObject []; PObject []]) (maps h2 ++ [[]])
                             (nodes h2 ++ [fl0])) m).
  { eapply described_keeps; [|exact Hd1]. split; cbn [nodes objs]; intros x y Hx.
    - apply lookup_app_l_Some. by rewrite Hn2.
    - apply lookup_app_l_Some. by rewrite Ho2. }
  destruct (proj1 (nodeParams_table_lookup _ _ _ _ (fn_id node) Htbl)) as (l & n & Hl & Hn & Hg).
  { apply map_get_In. by apply Hids. }
  unfold described in Hd3. rewrite Forall_forall in Hd3.
  destruct (Hd3 (fn_id node, l)) as (n' & p & ps & Hn' & Hfp & Hp & Hid);
    [by apply list_elem_of_In|].
  cbn [fst snd] in Hn', Hid. rewrite Hn in Hn'. inversion Hn'; subst n'.
  cbn [nodes objs] in Hn, Hp.
  assert (Hfl : nodes (setParams h5 (length (nodes h2)) (VRef pl) VUndefined)
                  !! length (nodes h2) = Some (after_setParams (VRef pl) VUndefined fl0)).
  { apply setParams_lookup. unfold h5. cbn [nodes]. by apply list_lookup_middle. }
  assert (Hobjs : objs (setParams h5 (length (nodes h2)) (VRef pl) VUndefined) = o5)
    by apply setParams_objs.
  assert (Hpl : o5 !! pl =
                Some (PObject [("nodeParams",
                                VRef (length (objs h2 ++ [PObject []; PObject []])))])).
  { unfold o5, pl. by apply list_lookup_middle. }
  assert (Htb : o5 !! length (objs h2 ++ [PObject []; PObject []]) = Some (PObject tbl)).
  { unfold o5. apply lookup_app_l_Some. by apply list_lookup_middle. }
  assert (Hps : o5 !! p = Some (PObject ps)).
  { unfold o5. by do 2 apply lookup_app_l_Some. }
  assert (Hne : l <> length (nodes h2)).
  { intros ->. rewrite list_lookup_middle in Hn by done. inversion Hn; subst n.
    simpl in Hfp. inversion Hfp; subst p.
    rewrite lookup_app_r in Hp by lia. rewrite Nat.sub_diag in Hp. simpl in Hp.
    inversion Hp; subst ps. done. }
  assert (Htable : opt_prop (setParams h5 (length (nodes h2)) (VRef pl) VUndefined)
                     (VRef (length (objs h2 ++ [PObject []; PObject []]))) (fn_id node)
                   = VRef p).
  { unfold opt_prop. rewrite Hobjs, Htb. by rewrite Hg, Hfp. }
  exists (after_setParams (VRef pl) VUndefined fl0),
         (length (objs h2 ++ [PObject []; PObject []])), p, ps, l, n.
  split; [exact Hfl|].
  split. { cbn [flow_params after_setParams]. unfold opt_prop. by rewrite Hobjs, Hpl. }
  split; [exact Htable|].
  split; [by rewrite Hobjs|].
  split; [done|].
  split. { rewrite setParams_other by done. unfold h5. cbn [nodes]. exact Hn. }
  split; [done|]. split; [done|].
  intros c fp Hcid. unfold resolve_params. cbn [truthy]. rewrite Hcid. cbn [to_key].
  rewrite Htable. reflexivity.
Qed.

(** ** The run facade: unknown flows *)

(** X19.  [executeFlow] with a name that no stored flow has rejects with
    "Flow not found: NAME"; nothing is built or run, and the state handed
    in is not touched. *)
Theorem executeFlow_unknown_flow fuel h name init :
  Forall (fun flow => rf_name flow <> name) loadFlows ->
  executeFlow fuel h name init = Rejects (new_Error ("Flow not found: " +:+ name)) h init.
Proof.
  intros Hnone. unfold executeFlow.
  assert (Hfind : List.find (fun flow => String.eqb (rf_name flow) name) loadFlows = None).
  { induction Hnone as [|f fs Hf Hfs IH]; simpl; [done|].
    destruct (String.eqb_spec (rf_name f) name); [done | exact IH]. }
  by rewrite Hfind.
Qed.

(** ** Tool calls *)

Section ToolCallProperties.
Context {Args : Type}.
Context (JSON_parse : string -> Result Args).
Context (callTool : string -> string -> Args -> Result (string + string)).

Lemma processToolCall_shape tc :
  exists c,
    processToolCall JSON_parse callTool tc = [mkParam "tool" (Some (call_id tc)) c] \/
    processToolCall JSON_parse callTool tc =
      [mkParam "tool" (Some (call_id tc)) c; tool_result_note].
Proof.
  unfold processToolCall. destruct (JSON_parse _) as [args|e]; [|eexists; by left].
  destruct (split _ _) as [|a [|b [|c [|d r]]]]; try (eexists; by left).
  destruct (callTool _ _ _) as [[err|data]|e]; eexists; (by right) || (by left).
Qed.

(** X20.  [processToolCalls] answers every tool call exactly once: the
    messages of role [tool] it returns carry the identifiers of the tool
    calls, one each and in the order of the calls, whether a call succeeded,
    failed or could not be made.  The only other messages are the fixed user
    note that follows the result of a call; a call yields one or two
    messages.  Without tool calls the result is empty. *)
Theorem processToolCalls_answers_every_call toolCalls :
  let newMessages := processToolCalls JSON_parse callTool (Some toolCalls) in
  map param_tool_call_id (List.filter is_tool_message newMessages) =
    map (fun tc => Some (call_id tc)) toolCalls /\
  Forall (fun m => is_tool_message m = true \/ m = tool_result_note) newMessages /\
  length toolCalls <= length newMessages <= 2 * length toolCalls /\
  processToolCalls JSON_parse callTool None = [].
Proof.
  cbn zeta.
  assert (Heq : processToolCalls JSON_parse callTool (Some toolCalls) =
                flat_map (processToolCall JSON_parse callTool) toolCalls)
    by (by destruct toolCalls).
  rewrite Heq. clear Heq. split; [|split; [|split; [|done]]].
  - induction toolCalls as [|tc r IH]; [done|]. cbn [flat_map]. rewrite List.filter_app, map_app, IH.
    destruct (processToolCall_shape tc) as [c [-> | ->]]; reflexivity.
  - induction toolCalls as [|tc r IH]; [done|]. cbn [flat_map]. apply Forall_app. split; [|exact IH].
    destruct (processToolCall_shape tc) as [c [-> | ->]]; repeat constructor; by left.
  - induction toolCalls as [|tc r IH]; [simpl; lia|]. cbn [flat_map]. rewrite length_app.
    destruct (processToolCall_shape tc) as [c [-> | ->]]; simpl; lia.
Qed.

(** X21.  What the tool message of a call says when the call fails.  When
    the argument string does not parse, or the tool service rejects, the
    message holds the message of the error, and no user note follows.  When
    the arguments parse but the name does not split into exactly three
    parts at "_-_-_", the message is "Error: Invalid tool name format: NAME"
    and the tool service is not called.  When the service resolves to a
    failure, the message holds its error text and the user note follows as
    after a success. *)
Theorem processToolCall_reports_errors tc :
  let answer c := mkParam "tool" (Some (call_id tc)) c in
  let text e := "Error: " +:+ (if instanceof_Error e then err_message e else "Unknown error") in
  (forall e,
      JSON_parse (call_arguments tc) = Throw e ->
      processToolCall JSON_parse callTool tc = [answer (text e)]) /\
  (forall args,
      JSON_parse (call_arguments tc) = Ok args ->
      length (split (call_name tc) "_-_-_") <> 3 ->
      processToolCall JSON_parse callTool tc =
      [answer ("Error: Invalid tool name format: " +:+ call_name tc)]) /\
  (forall args prefix serverName toolName,
      JSON_parse (call_arguments tc) = Ok args ->
      split (call_name tc) "_-_-_" = [prefix; serverName; toolName] ->
      processToolCall JSON_parse callTool tc =
      match callTool serverName toolName args with
      | Throw e => [answer (text e)]
      | Ok (inl error) => [answer ("Error: " +:+ error); tool_result_note]
      | Ok (inr data) => [answer data; tool_result_note]
      end).
Proof.
  cbn zeta. repeat split.
  - intros e Hp. unfold processToolCall. by rewrite Hp.
  - intros args Hp Hlen. unfold processToolCall. rewrite Hp.
    by destruct (split _ _) as [|a [|b [|c [|d r]]]].
  - intros args prefix serverName toolName Hp Hs. unfold processToolCall. rewrite Hp, Hs.
    by destruct (callTool _ _ _) as [[err|data]|e].
Qed.

End ToolCallProperties.

(** ** The rate limiter *)

Lemma checkRateLimit_other table now ip ip' :
  ip <> ip' -> map_get ip (snd (checkRateLimit table now ip')) = map_get ip table.
Proof.
  intros Hne. unfold checkRateLimit.
  destruct (map_get ip' table) as [r|];
    [destruct (resetTime r <? now)%Z; [|destruct (RATE_LIMIT <=? count r)%Z]|];
    cbn [snd]; rewrite ?map_get_set; try done;
    by destruct (String.eqb_spec ip ip').
Qed.

Lemma accepted_cons ip ip' b rs :
  accepted ip ((ip', b) :: rs) = (if String.eqb ip' ip && b then 1 else 0) + accepted ip rs.
Proof. unfold accepted. simpl. by destruct (String.eqb ip' ip && b). Qed.

Lemma requested_cons ip now ip' rest :
  requested ip ((now, ip') :: rest) = (if String.eqb ip' ip then 1 else 0) + requested ip rest.
Proof. unfold requested. simpl. by destruct (String.eqb ip' ip). Qed.

Lemma window_end now w : (now / 60000 = w)%Z -> (now < w * 60000 + 60000)%Z.
Proof. intros <-. pose proof (Z.mul_succ_div_gt now 60000 ltac:(lia)). lia. Qed.

Lemma check_requests_window ip w : forall requests table n,
  map_get ip table = Some (mkRequestCount n (w * 60000 + 60000)) ->
  (1 <= n <= RATE_LIMIT)%Z ->
  Forall (fun c => snd c = ip -> (fst c / 60000 = w)%Z) requests ->
  accepted ip (fst (check_requests table requests)) =
  Nat.min (requested ip requests) (Z.to_nat (RATE_LIMIT - n)).
Proof.
  induction requests as [|[now ip'] rest IH]; intros table n Hget Hn Hall; [done|].
  inversion Hall as [|? ? Hnow Hrest]; subst. cbn [check_requests fst snd].
  rewrite accepted_cons, requested_cons.
  destruct (String.eqb_spec ip' ip) as [->|Hne].
  - pose proof (window_end now w (Hnow eq_refl)) as Hend.
    unfold checkRateLimit. rewrite Hget. cbn [resetTime count].
    destruct (Z.ltb_spec (w * 60000 + 60000) now) as [Hlt|_]; [lia|].
    destruct (Z.leb_spec RATE_LIMIT n) as [Hfull|Hroom]; cbn [fst snd andb].
    + rewrite (IH table n Hget Hn Hrest). unfold RATE_LIMIT in *. lia.
    + rewrite (IH _ (n + 1)%Z); [unfold RATE_LIMIT in *; lia| |lia|done].
      by rewrite map_get_set_same.
  - cbn [andb]. rewrite (IH _ n); [done| |done|done].
    rewrite checkRateLimit_other by done. exact Hget.
Qed.

Lemma check_requests_fresh ip w : forall requests table,
  map_get ip table = None ->
  Forall (fun c => snd c = ip -> (fst c / 60000 = w)%Z) requests ->
  accepted ip (fst (check_requests table requests)) =
  Nat.min (requested ip requests) (Z.to_nat RATE_LIMIT).
Proof.
  induction requests as [|[now ip'] rest IH]; intros table Hget Hall; [done|].
  inversion Hall as [|? ? Hnow Hrest]; subst. cbn [check_requests fst snd].
  rewrite accepted_cons, requested_cons.
  destruct (String.eqb_spec ip' ip) as [->|Hne].
  - unfold checkRateLimit. rewrite Hget. cbn [fst snd andb].
    rewrite (check_requests_window ip w rest _ 1%Z); [unfold RATE_LIMIT; lia| |unfold RATE_LIMIT; lia|done].
    rewrite map_get_set_same. pose proof (Hnow eq_refl) as Hw. cbn [fst] in Hw. by rewrite Hw.
  - cbn [andb]. rewrite IH; [done| |done].
    rewrite checkRateLimit_other by done. exact Hget.
Qed.

(** While no request of the client arrives after the reset time of its
    record, the record is never reset: the count only grows, up to
    [RATE_LIMIT]. *)
Lemma check_requests_no_reset ip R : forall requests table n,
  map_get ip table = Some (mkRequestCount n R) ->
  (n <= RATE_LIMIT)%Z ->
  Forall (fun c => snd c = ip -> (fst c <= R)%Z) requests ->
  accepted ip (fst (check_requests table requests)) =
    Nat.min (requested ip requests) (Z.to_nat (RATE_LIMIT - n)) /\
  map_get ip (snd (check_requests table requests)) =
    Some (mkRequestCount (n + Z.of_nat (Nat.min (requested ip requests) (Z.to_nat (RATE_LIMIT - n)))) R).
Proof.
  induction requests as [|[now ip'] rest IH]; intros table n Hget Hn Hall.
  { cbn. split; [done|]. rewrite Hget. do 2 f_equal. lia. }
  inversion Hall as [|? ? Hnow Hrest]; subst. cbn [check_requests fst snd].
  rewrite accepted_cons, requested_cons.
  destruct (String.eqb_spec ip' ip) as [->|Hne].
  - pose proof (Hnow eq_refl) as Hle. cbn [fst] in Hle.
    unfold checkRateLimit. rewrite Hget. cbn [resetTime count].
    destruct (Z.ltb_spec R now) as [Hlt|_]; [lia|].
    destruct (Z.leb_spec RATE_LIMIT n) as [Hfull|Hroom]; cbn [fst snd andb].
    + destruct (IH table n Hget Hn Hrest) as [-> ->].
      split; [lia|]. do 2 f_equal. lia.
    + destruct (IH (map_set ip (mkRequestCount (n + 1) R) table) (n + 1)%Z) as [-> ->];
        [by rewrite map_get_set_same | lia | done |].
      split; [lia|]. do 2 f_equal. lia.
  - cbn [andb]. apply IH; [|done|done].
    rewrite checkRateLimit_other by done. exact Hget.
Qed.

(** With a record of any reset time, the requests of one clock minute
    reset the record at most once: after a reset the record ends with the
    clock minute. *)
Lemma check_requests_minute ip w : forall requests table n R,
  map_get ip table = Some (mkRequestCount n R) ->
  Forall (fun c => snd c = ip -> (fst c / 60000 = w)%Z) requests ->
  accepted ip (fst (check_requests table requests)) <=
  Z.to_nat (RATE_LIMIT - n) + Z.to_nat RATE_LIMIT.
Proof.
  induction requests as [|[now ip'] rest IH]; intros table n R Hget Hall; [cbn; lia|].
  inversion Hall as [|? ? Hnow Hrest]; subst. cbn [check_requests fst snd].
  rewrite accepted_cons.
  destruct (String.eqb_spec ip' ip) as [->|Hne].
  - pose proof (Hnow eq_refl) as Hw. cbn [fst] in Hw.
    unfold checkRateLimit. rewrite Hget. cbn [resetTime count].
    destruct (Z.ltb_spec R now) as [Hlt|Hle]; cbn [fst snd andb].
    + rewrite (check_requests_window ip w rest _ 1%Z);
        [unfold RATE_LIMIT; lia| |unfold RATE_LIMIT; lia|done].
      rewrite map_get_set_same. by rewrite Hw.
    + destruct (Z.leb_spec RATE_LIMIT n) as [Hfull|Hroom]; cbn [fst snd andb].
      * by apply (IH table n R).
      * pose proof (IH (map_set ip (mkRequestCount (n + 1) R) table) (n + 1)%Z R
                      (map_get_set_same _ _ _) Hrest) as Hrec.
        unfold RATE_LIMIT in *. lia.
  - cbn [andb]. apply (IH _ n R); [|done].
    rewrite checkRateLimit_other by done. exact Hget.
Qed.

Lemma check_requests_app table requests requests' :
  check_requests table (requests ++ requests') =
  (fst (check_requests table requests)
     ++ fst (check_requests (snd (check_requests table requests)) requests'),
   snd (check_requests (snd (check_requests table requests)) requests')).
Proof.
  revert table. induction requests as [|[now ip] rest IH]; intros table.
  - cbn. by destruct (check_requests table requests').
  - cbn [app check_requests fst snd]. by rewrite IH.
Qed.

Lemma accepted_app ip answers answers' :
  accepted ip (answers ++ answers') = accepted ip answers + accepted ip answers'.
Proof. unfold accepted. by rewrite List.filter_app, length_app. Qed.

Lemma requested_repeat ip now k : requested ip (repeat (now, ip) k) = k.
Proof.
  induction k as [|k IH]; [done|].
  cbn [repeat]. rewrite requested_cons, String.eqb_refl, IH. done.
Qed.

Lemma Forall_repeat {A} (P : A -> Prop) x k : P x -> Forall P (repeat x k).
Proof. intros Hx. induction k; cbn [repeat]; by constructor. Qed.

(** X22.  What the rate limiter lets through within one clock minute.
    Take requests of a client that all arrive within one clock minute;
    requests of other clients may arrive in between, at any time.  For a
    client the map has no record of, the number of requests let through is
    the number of requests made, capped at [RATE_LIMIT].  For a client whose
    record ends with that clock minute, it is the number of requests made,
    capped at what the count of the record leaves of [RATE_LIMIT].  For a
    client with a record of any reset time and a count of at least 1, it is
    at most [2 * RATE_LIMIT - 1], not [RATE_LIMIT]: a record is reset only
    by a request that arrives after its reset time ([resetTime < now]), so a
    record that ends with the first millisecond of the clock minute still
    counts the requests of that millisecond, and the next request opens a
    new window.  That bound is reached: a client with a record of count 1
    that ends with the first millisecond of the clock minute is let through
    [RATE_LIMIT - 1] times in that millisecond and [RATE_LIMIT] times
    afterwards. *)
Theorem checkRateLimit_window_bound ip w :
  (forall requests table,
      map_get ip table = None ->
      Forall (fun c => snd c = ip -> (fst c / 60000 = w)%Z) requests ->
      accepted ip (fst (check_requests table requests)) =
      Nat.min (requested ip requests) (Z.to_nat RATE_LIMIT)) /\
  (forall requests table n,
      map_get ip table = Some (mkRequestCount n (w * 60000 + 60000)) ->
      (1 <= n <= RATE_LIMIT)%Z ->
      Forall (fun c => snd c = ip -> (fst c / 60000 = w)%Z) requests ->
      accepted ip (fst (check_requests table requests)) =
      Nat.min (requested ip requests) (Z.to_nat (RATE_LIMIT - n))) /\
  (forall requests table record,
      map_get ip table = Some record ->
      (1 <= count record)%Z ->
      Forall (fun c => snd c = ip -> (fst c / 60000 = w)%Z) requests ->
      accepted ip (fst (check_requests table requests)) <= Z.to_nat (2 * RATE_LIMIT - 1)) /\
  (let table := [(ip, mkRequestCount 1 (w * 60000))] in
   let requests := repeat ((w * 60000)%Z, ip) (Z.to_nat (RATE_LIMIT - 1)) ++
                   repeat ((w * 60000 + 1)%Z, ip) (Z.to_nat (RATE_LIMIT + 1)) in
   Forall (fun c => snd c = ip /\ (fst c / 60000 = w)%Z) requests /\
   requested ip requests = Z.to_nat (2 * RATE_LIMIT) /\
   accepted ip (fst (check_requests table requests)) = Z.to_nat (2 * RATE_LIMIT - 1)).
Proof.
  split; [exact (check_requests_fresh ip w)|].
  split; [exact (check_requests_window ip w)|].
  split.
  - intros requests table [n R] Hget Hn Hall. cbn [count] in Hn.
    pose proof (check_requests_minute ip w requests table n R Hget Hall) as Hle.
    unfold RATE_LIMIT in *. lia.
  - cbn zeta.
    assert (Hw0 : (w * 60000 / 60000 = w)%Z) by (apply Z.div_mul; lia).
    assert (Hw1 : ((w * 60000 + 1) / 60000 = w)%Z).
    { rewrite Z.div_add_l by lia. change (1 / 60000)%Z with 0%Z. lia. }
    split; [|split].
    + apply Forall_app. split; apply Forall_repeat; done.
    + unfold requested. rewrite List.filter_app, length_app.
      fold (requested ip (repeat ((w * 60000)%Z, ip) (Z.to_nat (RATE_LIMIT - 1)))).
      fold (requested ip (repeat ((w * 60000 + 1)%Z, ip) (Z.to_nat (RATE_LIMIT + 1)))).
      rewrite !requested_repeat. unfold RATE_LIMIT. lia.
    + rewrite check_requests_app. cbn [fst]. rewrite accepted_app.
      destruct (check_requests_no_reset ip (w * 60000)%Z
                  (repeat ((w * 60000)%Z, ip) (Z.to_nat (RATE_LIMIT - 1)))
                  [(ip, mkRequestCount 1 (w * 60000))] 1%Z) as [Hfirst Hrecord].
      { cbn [map_get]. by rewrite String.eqb_refl. }
      { unfold RATE_LIMIT. lia. }
      { apply Forall_repeat. cbn [fst snd]. lia. }
      rewrite requested_repeat in Hfirst, Hrecord.
      rewrite Hfirst.
      replace (Z.to_nat (RATE_LIMIT + 1)) with (S (Z.to_nat RATE_LIMIT))
        by (unfold RATE_LIMIT; lia).
      cbn [repeat check_requests fst snd]. rewrite accepted_cons, String.eqb_refl.
      unfold checkRateLimit at 1 2. rewrite Hrecord. cbn [resetTime count].
      destruct (Z.ltb_spec (w * 60000) (w * 60000 + 1)) as [_|Hge]; [|lia].
      cbn [fst snd andb]. rewrite Hw1.
      rewrite (check_requests_window ip w _ _ 1%Z).
      * rewrite requested_repeat. unfold RATE_LIMIT. lia.
      * by rewrite map_get_set_same.
      * unfold RATE_LIMIT. lia.
      * apply Forall_repeat. intros _. exact Hw1.
Qed.

Lemma Forall_map_set {A} (P : string * A -> Prop) k x m :
  Forall P m -> (forall k', P (k', x)) -> Forall P (map_set k x m).
Proof.
  intros Hm Hx. induction Hm as [|[k' y] r Hy Hr IH]; simpl.
  - by repeat constructor.
  - destruct (String.eqb k k'); constructor; try done.
Qed.

Lemma map_get_Forall {A} (P : string * A -> Prop) k x m :
  Forall P m -> map_get k m = Some x -> exists k', P (k', x).
Proof.
  induction 1 as [|[k' y] r Hy Hr IH]; simpl; [done|].
  destruct (String.eqb k k'); [|exact IH]. intros H. inversion H; subst. by exists k'.
Qed.

Lemma checkRateLimit_bounded table now ip :
  Forall (fun e => (1 <= count (snd e) <= RATE_LIMIT)%Z) table ->
  Forall (fun e => (1 <= count (snd e) <= RATE_LIMIT)%Z) (snd (checkRateLimit table now ip)).
Proof.
  intros Hall. unfold checkRateLimit.
  destruct (map_get ip table) as [r|] eqn:Hget.
  - destruct (map_get_Forall _ _ _ _ Hall Hget) as [k' Hr]. cbn [snd] in Hr.
    destruct (resetTime r <? now)%Z.
    + apply Forall_map_set; [done|]. intros k0. cbn. unfold RATE_LIMIT. lia.
    + destruct (Z.leb_spec RATE_LIMIT (count r)); [done|].
      apply Forall_map_set; [done|]. intros k0. cbn. lia.
  - apply Forall_map_set; [done|]. intros k0. cbn. unfold RATE_LIMIT. lia.
Qed.

(** X23.  The counters of the rate limiter stay within bounds, and a
    refusal costs nothing.  Whatever requests arrive, from whichever
    clients and at whatever times, every record of the map holds a count
    between 1 and [RATE_LIMIT].  A request that is refused leaves the map as
    it was; it is refused only when the client has a record whose window has
    not passed and whose count has reached [RATE_LIMIT]. *)
Theorem checkRateLimit_counts_bounded :
  (forall requests,
      Forall (fun e => (1 <= count (snd e) <= RATE_LIMIT)%Z) (snd (check_requests [] requests))) /\
  (forall table now ip,
      fst (checkRateLimit table now ip) = false ->
      snd (checkRateLimit table now ip) = table /\
      exists record,
        map_get ip table = Some record /\
        (now <= resetTime record)%Z /\ (RATE_LIMIT <= count record)%Z).
Proof.
  split.
  - intros requests.
    assert (Hgen : forall table,
               Forall (fun e => (1 <= count (snd e) <= RATE_LIMIT)%Z) table ->
               Forall (fun e => (1 <= count (snd e) <= RATE_LIMIT)%Z)
                 (snd (check_requests table requests))).
    { induction requests as [|[now ip] rest IH]; intros table Ht; [done|].
      cbn [check_requests snd]. apply IH. by apply checkRateLimit_bounded. }
    apply Hgen. constructor.
  - intros table now ip. unfold checkRateLimit.
    destruct (map_get ip table) as [r|]; [|done].
    destruct (Z.ltb_spec (resetTime r) now); [done|].
    destruct (Z.leb_spec RATE_LIMIT (count r)); [|done].
    intros _. split; [done|]. by exists r.
Qed.

End Properties.

(** * Examples *)

(** ** Resuming after a pause *)

(** C1, at the flow [start --e1--> mcp] built by [convert], whose second
    node suspends.  The first traversal runs A, then B, and pauses with
    [currentNodeId] set to the identifier of B.  The second traversal, on
    the same shared state, does not resume at B: the templates built by
    [createNode] carry their identifier in [flow_params] only, the search
    compares the [id] of [node_params], finds no node, and the traversal
    starts again at the start node A. *)
Theorem resume_restarts_at_start_node :
  outcome first_run = Paused /\
  trace_ids first_run = [VStr "A"; VStr "B"] /\
  currentNodeId (final_state first_run) = VStr "B" /\
  outcome second_run = Paused /\
  trace_ids second_run = [VStr "A"; VStr "B"] /\
  currentNodeId (final_state second_run) = VStr "B".
Proof. vm_compute. repeat split. Qed.

(** When the templates also carry their identifier in [node_params], the
    search finds the paused node and the second traversal resumes there. *)
Example resume_with_node_params_ids :
  outcome first_run_with_ids = Paused /\
  trace_ids first_run_with_ids = [VStr "A"; VStr "B"] /\
  currentNodeId (final_state first_run_with_ids) = VStr "B" /\
  trace_ids second_run_with_ids = [VStr "B"].
Proof. vm_compute. repeat split. Qed.

(** ** Cloning *)

Lemma template_heap_closed : closed_objs (objs template_heap).
Proof.
  intros l p v Hl Hp Hv.
  destruct l as [|[|[|l]]]; simpl in Hp; inversion Hp; subst; simpl in Hv;
    repeat (destruct Hv as [<-|Hv]; [simpl; try lia; done|]); done.
Defined.

Lemma clone_deep_params_shallow_successors_witness :
  exists h1 c1 h2 c2 n1,
    clone template_heap 0 = Some (h1, c1) /\ clone h1 0 = Some (h2, c2) /\
    c1 <> 0 /\ c2 <> 0 /\ c1 <> c2 /\
    nodes h2 !! c1 = Some n1 /\
    tree_of 3 (objs h2) (flow_params n1) =
      TObject [("id", TLeaf (VStr "P"));
               ("properties",
                TObject [("boundModel", TLeaf (VStr "m1"));
                         ("allowedTools", TArray [TLeaf (VStr "search"); TLeaf (VStr "fetch")])])].
Proof.
  destruct (clone_deep_params_shallow_successors template_heap 0
              (mkNode ProcessNode (VRef 0) (VRef 0) 0) [("e1", 0)])
    as (h1 & c1 & h2 & c2 & n1 & n2 & H1 & H2 & _ & Hn1 & _ & Ht1 & Ht2 & Hne & _ & _
        & _ & _ & _ & _ & Htrees & _).
  - reflexivity.
  - reflexivity.
  - exact template_heap_closed.
  - simpl. lia.
  - simpl. lia.
  - exists h1, c1, h2, c2, n1. repeat split; try done.
    rewrite (proj1 (Htrees 3)). reflexivity.
Defined.

(** The two clones of the example, spelled out: both copies of the nested
    parameters are new objects with the template's content. *)
Example clone_twice_example :
  exists h1 h2,
    clone template_heap 0 = Some (h1, 1) /\ clone h1 0 = Some (h2, 2) /\
    nodes h2 = [mkNode ProcessNode (VRef 0) (VRef 0) 0;
                mkNode ProcessNode (VRef 5) (VRef 8) 2;
                mkNode ProcessNode (VRef 13) (VRef 16) 4] /\
    objs h2 !! 5 = Some (PObject [("id", VStr "P"); ("properties", VRef 6)]) /\
    objs h2 !! 6 = Some (PObject [("boundModel", VStr "m1"); ("allowedTools", VRef 7)]) /\
    objs h2 !! 7 = Some (PArray [VStr "search"; VStr "fetch"]) /\
    objs h2 !! 13 = Some (PObject [("id", VStr "P"); ("properties", VRef 14)]) /\
    maps h2 = [[("e1", 0)]; []; [("e1", 0)]; []; [("e1", 0)]].
Proof. eexists _, _. vm_compute. repeat split. Qed.

(** ** Successor registration *)

Lemma addSuccessor_duplicate_fails_fresh_adds_witness :
  addSuccessor template_heap 0 0 "e1" =
  Some (template_heap, Throw (new_Error "Action e1 already exists")).
Proof.
  destruct (addSuccessor_duplicate_fails_fresh_adds template_heap 0 0 "e1"
              (mkNode ProcessNode (VRef 0) (VRef 0) 0) [("e1", 0)])
    as [[_ H]|[H _]].
  - reflexivity.
  - reflexivity.
  - exact H.
  - discriminate H.
Defined.

Example addSuccessor_fresh_example :
  exists h', addSuccessor template_heap 0 0 "e2" = Some (h', Ok tt) /\
             maps h' = [[("e1", 0); ("e2", 0)]].
Proof. eexists. vm_compute. split; reflexivity. Qed.

(** ** Process node *)

Lemma ProcessNode_prep_one_system_message_witness :
  let this := mkNode ProcessNode (VRef 0) (VRef 0) 0 in
  exists pr action st',
    @ProcessNode_prep echo_env template_heap chat_state (VRef 0) = Ok pr /\
    pr_messages pr = [mkMsg "system" (CText "prompt of flow-1"); mkMsg "user" (CText "hi");
                      mkMsg "assistant" (CText "hello")] /\
    count_system (pr_messages pr) = 1 /\
    BaseNode_run (@ProcessNode_class echo_env) template_heap this chat_state = (Ok action, st') /\
    messages st' = [mkMsg "system" (CText "prompt of flow-1"); mkMsg "user" (CText "hi");
                    mkMsg "assistant" (CText "hello"); mkMsg "assistant" (CText "done")] /\
    count_system (messages st') = 1.
Proof.
  intros this.
  destruct (@ProcessNode_prep_one_system_message echo_env template_heap chat_state (VRef 0) [])
    as (pr & prompt & Hprep & -> & Hmsgs & Hone & _ & Hcommit & _).
  - reflexivity.
  - discriminate.
  - reflexivity.
  - reflexivity.
  - vm_compute in Hprep. injection Hprep as Hpr. subst pr.
    destruct (Hcommit this None
                (mkModelValue (Some "done")
                   (Some ([mkMsg "system" (CText "prompt of flow-1"); mkMsg "user" (CText "hi");
                           mkMsg "assistant" (CText "hello")]
                          ++ [mkMsg "assistant" (CText "done")])) "raw" None)
                [mkMsg "assistant" (CText "done")])
      as (action & st' & Hrun & Hst & Hcount).
    + reflexivity.
    + reflexivity.
    + reflexivity.
    + reflexivity.
    + reflexivity.
    + eexists _, action, st'. split; [reflexivity|]. split; [reflexivity|].
      split; [reflexivity|]. split; [exact Hrun|]. split; [exact Hst | exact Hcount].
Defined.

(** C6, as first stated, at a model call that rejects with an ordinary
    error: [prep] has prepared a list with one system message, the run of
    the node returns an action, and the shared state still holds the two
    system messages it held before. *)
Lemma ProcessNode_failed_step_keeps_system_messages :
  let this := mkNode ProcessNode (VRef 0) (VRef 0) 0 in
  exists pr action st',
    @ProcessNode_prep rejecting_env template_heap chat_state (VRef 0) = Ok pr /\
    count_system (pr_messages pr) = 1 /\
    BaseNode_run (@ProcessNode_class rejecting_env) template_heap this chat_state
      = (Ok action, st') /\
    messages st' = messages chat_state /\
    messages st' <> pr_messages pr /\
    count_system (messages st') = 2.
Proof.
  intros this. eexists _, _, _.
  split; [vm_compute; reflexivity|]. split; [reflexivity|].
  split; [vm_compute; reflexivity|]. split; [reflexivity|]. split; [discriminate | reflexivity].
Qed.

(** The prepared view of the example, and the failure result the
    rejecting model call leads to. *)
Lemma ProcessNode_post_failure_keeps_messages_witness :
  let pr := mkProcessPrep (VStr "P") "process" "prompt of flow-1" (VStr "m1") []
              [mkMsg "system" (CText "prompt of flow-1"); mkMsg "user" (CText "hi")] None in
  let er := error_result (new_Error "network down") in
  let this := mkNode ProcessNode (VRef 0) (VRef 0) 0 in
  let st' := snd (@ProcessNode_post rejecting_env template_heap this pr er chat_state (VRef 0)) in
  lastResponse st' =
    Some (LRFailure (Some "network down")
            (Some (mkErrorDetails "network down" (Some "Error") (Some "")))) /\
  messages st' = messages chat_state /\
  length (nodeExecutionTracker st') = 1.
Proof.
  intros pr er this st'.
  destruct (@ProcessNode_post_failure_keeps_messages rejecting_env template_heap this pr (VRef 0)
              er chat_state) as (Hlr & _ & Hmsgs & _ & entry & Htr & _).
  - reflexivity.
  - reflexivity.
  - split; [exact Hlr|]. split; [exact Hmsgs|]. reflexivity.
Defined.

Example ProcessNode_post_edges_example :
  fst (@ProcessNode_post failing_env
         (mkHeap [] [[("a-mcpEdge", 1); ("x-mcp-1", 2); ("e7", 3); ("e8", 4)]] [])
         (mkNode ProcessNode VUndefined VUndefined 0)
         (mkProcessPrep VUndefined "process" "" VUndefined [] [] None)
         (error_result (new_Error "x")) empty_state VUndefined) = "e7" /\
  fst (@ProcessNode_post failing_env
         (mkHeap [] [[("a-mcpEdge", 1); ("toolmcpEdge", 2)]] [])
         (mkNode ProcessNode VUndefined VUndefined 0)
         (mkProcessPrep VUndefined "process" "" VUndefined [] [] None)
         (error_result (new_Error "x")) empty_state VUndefined) = "default".
Proof. vm_compute. split; reflexivity. Qed.

(** ** Finish node *)

Lemma FinishNode_post_final_response_witness :
  exists r h' st',
    @executeFlow echo_env 3 empty_heap "finishing" done_state = Resolves r h' st' /\
    result r = LRText "done".
Proof.
  destruct (@FinishNode_post_final_response echo_env) as (_ & _ & _ & _ & Hrun).
  edestruct (Hrun 1 0 empty_heap "finishing" done_state finishing_flow)
    as (r & h' & st' & He & Hr & _).
  - discriminate.
  - reflexivity.
  - vm_compute. reflexivity.
  - vm_compute. reflexivity.
  - vm_compute. reflexivity.
  - vm_compute. reflexivity.
  - eapply reaches_next; [vm_compute; reflexivity | apply reaches_here].
  - vm_compute. reflexivity.
  - vm_compute. reflexivity.
  - reflexivity.
  - vm_compute. reflexivity.
  - vm_compute. reflexivity.
  - vm_compute. reflexivity.
  - discriminate.
  - exists r, h', st'. split; [exact He | exact Hr].
Defined.

(** C7, as first stated, at a history ending with an assistant message of
    empty content, and at one ending with an assistant message without
    content: [post] stores nothing and the earlier last response stays. *)
Lemma FinishNode_post_empty_content_not_stored :
  let post st := snd (@FinishNode_post echo_env finish_heap finish_node
                        (FinishNode_prep finish_heap st (VRef 0)) (mkFinishExec true) st (VRef 0)) in
  last (messages empty_reply_state) = Some (mkMsg "assistant" (CText "")) /\
  lastResponse (post empty_reply_state) = Some (LRText "earlier") /\
  lastResponse (post empty_reply_state) <> Some (LRText "") /\
  last (messages null_reply_state) = Some (mkMsg "assistant" CNone) /\
  lastResponse (post null_reply_state) = Some (LRText "earlier").
Proof. vm_compute. repeat split. discriminate. Qed.

(** ** Model failures *)

Lemma ProcessNode_model_failure_aborts_run_witness :
  exists h st,
    @executeFlow failing_env 3 process_props_heap "process" done_state
      = Rejects (model_error quota_error) h st /\
    nodeExecutionTracker st = [] /\
    obj_get "code" (err_details (model_error quota_error)) = VStr "insufficient_quota".
Proof.
  destruct (@ProcessNode_model_failure_aborts_run failing_env) as (Hexec & _ & Hrun).
  eexists _, _. split; [|split].
  - eapply (Hrun 1 0 process_props_heap "process" done_state process_flow).
    + reflexivity.
    + vm_compute. reflexivity.
    + vm_compute. reflexivity.
    + vm_compute. reflexivity.
    + vm_compute. reflexivity.
    + eapply reaches_next; [vm_compute; reflexivity | apply reaches_here].
    + vm_compute. reflexivity.
    + vm_compute. reflexivity.
    + reflexivity.
    + vm_compute. reflexivity.
    + vm_compute. reflexivity.
    + vm_compute. reflexivity.
    + vm_compute. reflexivity.
  - reflexivity.
  - reflexivity.
Defined.

(** C2, as first stated, at a provider error whose details bag has a
    [code] entry: the details of the thrown error hold that entry, not the
    code of the provider error. *)
Lemma model_error_code_shadowed :
  let pr := mkProcessPrep (VStr "P") "process" "prompt of flow-1" (VStr "m1") []
              [mkMsg "system" (CText "prompt of flow-1"); mkMsg "user" (CText "hi")] None in
  @ProcessNode_execCore shadowing_env template_heap pr (VRef 0)
    = Throw (model_error shadowing_error) /\
  pe_code shadowing_error = VStr "insufficient_quota" /\
  obj_get "code" (err_details (model_error shadowing_error)) = VStr "429" /\
  obj_get "code" (err_details (model_error shadowing_error)) <> pe_code shadowing_error.
Proof. vm_compute. repeat split. discriminate. Qed.

(** ** Graph construction *)

Lemma convert_requires_a_start_node_witness :
  (exists e, convert empty_heap no_start_flow = Some (Throw e)) /\
  (exists h' flow fl,
      convert empty_heap two_starts_flow = Some (Ok (h', flow)) /\
      nodes h' !! flow = Some fl /\ kind fl = Flow 0).
Proof.
  destruct (@convert_requires_a_start_node failing_env) as [Hnone Hsome]. split.
  - destruct (Hnone empty_heap no_start_flow) as [He _]; [|exact He].
    repeat constructor. discriminate.
  - edestruct (Hsome empty_heap two_starts_flow) as (h' & flow & s & fl & Hc & Hs & Hfl & Hk).
    + reflexivity.
    + vm_compute. reflexivity.
    + vm_compute. reflexivity.
    + exists h', flow, fl. split; [exact Hc|]. split; [exact Hfl|].
      rewrite Hk. f_equal. vm_compute in Hs. by inversion Hs.
Defined.

(** C4, as first stated, at a description with two start-type nodes:
    construction does not fail. *)
Lemma convert_accepts_two_start_nodes :
  length (List.filter (fun node => String.eqb (fn_type node) "start") (rf_nodes two_starts_flow)) = 2 /\
  (exists h flow, convert empty_heap two_starts_flow = Some (Ok (h, flow))) /\
  ~ (exists e, convert empty_heap two_starts_flow = Some (Throw e)).
Proof.
  split; [reflexivity|]. split.
  - eexists _, _. vm_compute. reflexivity.
  - intros [e He]. vm_compute in He. discriminate He.
Qed.

(** Two edges with the same identifier leaving one node: construction
    fails on the second registration. *)
Example convert_duplicate_action_example :
  convert empty_heap
    (mkReactFlow "dup"
       [mkFlowNode "A" "start" (VStr "Start") VUndefined;
        mkFlowNode "F" "finish" (VStr "Finish") VUndefined]
       [mkEdge "e1" "A" "F"; mkEdge "e1" "A" "A"])
  = Some (Throw (new_Error "Action e1 already exists")).
Proof. vm_compute. reflexivity. Qed.

(** ** Retries *)

Lemma RetryNode_returns_first_success_witness :
  RetryNode_execWrapper flaky_execCore 5 100 = mkRetryRun (Ok "ok") 3 [100; 100]%Z.
Proof.
  apply (RetryNode_returns_first_success flaky_execCore 5 100 2 "ok").
  - lia.
  - intros j Hj. exists (new_Error "timeout"). destruct j as [|[|j]]; [reflexivity|reflexivity|lia].
  - reflexivity.
Defined.

Lemma RetryNode_gives_up_after_maxRetries_witness :
  RetryNode_execWrapper failing_execCore 3 100 =
  mkRetryRun (Throw (new_Error "Max retries reached after 3 attempts")) 3 [100; 100; 100]%Z.
Proof.
  apply (RetryNode_gives_up_after_maxRetries failing_execCore 3 100).
  intros j Hj. exists (model_error quota_error). reflexivity.
Defined.

(** ** Batches *)

Lemma BatchFlow_run_results_witness :
  exists h' st' tr,
    BatchFlow_run two_items_prep (@orchestrate failing_env 5)
      (fst (converted empty_heap pausing_flow)) (snd (converted empty_heap pausing_flow)) empty_state
    = BatchReturned "default" [VNull; VNull] [VUndefined; VUndefined] h' st' tr.
Proof.
  eassert (E : BatchFlow_run two_items_prep (@orchestrate failing_env 5)
                 (fst (converted empty_heap pausing_flow))
                 (snd (converted empty_heap pausing_flow)) empty_state
               = BatchReturned _ _ _ _ _ _) by (vm_compute; reflexivity).
  destruct (proj2 (BatchFlow_run_results two_items_prep (@orchestrate failing_env 5) _ _ _)
              _ _ _ _ _ _ E) as (Ha & Hp & He).
  eexists _, _, _. rewrite E. rewrite Ha, Hp, He. reflexivity.
Defined.

(** ** Adding a message to the prepared view *)

Lemma addMessageToState_adds_once_witness :
  exists pr',
    addMessageToState user_only_prep "system" "be brief" = Ok pr' /\
    pr_messages pr' = [mkMsg "user" (CText "hi"); mkMsg "system" (CText "be brief")] /\
    addMessageToState pr' "system" "be verbose" = Ok pr'.
Proof.
  destruct (addMessageToState_adds_once user_only_prep "system" "be brief")
    as (pr' & Hadd & Hmsgs & _ & Hagain).
  - simpl. tauto.
  - exists pr'. split; [exact Hadd|]. split; [exact Hmsgs | apply Hagain].
Defined.

Lemma addMessageToState_rejects_other_roles_witness :
  addMessageToState user_only_prep "tool" "result" =
    Throw (new_Error "Tool messages require a tool_call_id") /\
  addMessageToState user_only_prep "function" "result" =
    Throw (new_Error "Unsupported role: function").
Proof.
  split.
  - rewrite (addMessageToState_rejects_other_roles user_only_prep "tool" "result"); [reflexivity|].
    simpl. intros [H|[H|[H|[]]]]; discriminate H.
  - rewrite (addMessageToState_rejects_other_roles user_only_prep "function" "result");
      [reflexivity|].
    simpl. intros [H|[H|[H|[]]]]; discriminate H.
Defined.

(** ** Process node: errors and replies *)

Lemma ProcessNode_prep_errors_witness :
  @ProcessNode_prep failing_env finish_heap done_state (VRef 0) =
    Throw (new_Error "Process node requires a bound model") /\
  BaseNode_run (@ProcessNode_class failing_env) finish_heap finish_node done_state =
    (Throw (new_Error "Process node requires a bound model"), done_state).
Proof.
  destruct (@ProcessNode_prep_errors failing_env finish_heap done_state (VRef 0))
    as (_ & Hmodel & _ & Hrun).
  assert (Hprep : @ProcessNode_prep failing_env finish_heap done_state (VRef 0) =
                  Throw (new_Error "Process node requires a bound model")).
  { apply Hmodel; [reflexivity | discriminate | reflexivity]. }
  split; [exact Hprep|]. apply Hrun. exact Hprep.
Defined.

Lemma ProcessNode_execCore_recovers_ordinary_errors_witness :
  let pr := mkProcessPrep (VStr "P") "process" "prompt of flow-1" (VStr "m1") []
              [mkMsg "system" (CText "prompt of flow-1"); mkMsg "user" (CText "hi")] None in
  @ProcessNode_execCore rejecting_env template_heap pr (VRef 0) =
    Ok (error_result (new_Error "network down")).
Proof.
  intros pr.
  destruct (@ProcessNode_execCore_recovers_ordinary_errors rejecting_env template_heap pr (VRef 0))
    as (_ & Hreject & _).
  rewrite (Hreject None (new_Error "network down")); reflexivity.
Defined.

Lemma ProcessNode_success_stores_reply_witness :
  let pr := mkProcessPrep (VStr "P") "process" "prompt of flow-1" (VStr "m1") []
              [mkMsg "system" (CText "prompt of flow-1"); mkMsg "user" (CText "hi")] None in
  let this := mkNode ProcessNode (VRef 0) (VRef 0) 0 in
  exists er,
    @ProcessNode_execCore echo_env template_heap pr (VRef 0) = Ok er /\
    lastResponse (snd (@ProcessNode_post echo_env template_heap this pr er chat_state (VRef 0)))
      = Some (LRText "done").
Proof.
  intros pr this.
  edestruct (@ProcessNode_success_stores_reply echo_env template_heap this pr (VRef 0) chat_state)
    as (er & Hexec & _ & Hlast & _).
  - reflexivity.
  - reflexivity.
  - exists er. split; [exact Hexec | exact Hlast].
Defined.

(** ** Successors and the steps of the loop *)

Lemma addSuccessor_then_getSuccessor_witness :
  exists h' h'' nc,
    addSuccessor template_heap 0 0 "e2" = Some (h', Ok tt) /\
    getSuccessor h' 0 "e2" = Some (h'', Some 1) /\
    nodes h'' = nodes template_heap ++ [nc] /\
    kind nc = ProcessNode.
Proof.
  eassert (Hadd : addSuccessor template_heap 0 0 "e2" = Some (_, Ok tt))
    by (vm_compute; reflexivity).
  edestruct (addSuccessor_then_getSuccessor template_heap 0 0 "e2")
    as (h'' & nc & Hget & Hnodes & Hk & _).
  - reflexivity.
  - reflexivity.
  - simpl. by eexists.
  - exact Hadd.
  - eexists _, h'', nc. split; [exact Hadd|]. split; [exact Hget|].
    split; [exact Hnodes | exact Hk].
Defined.

Lemma loop_completes_without_successor_witness :
  exists st',
    @loop echo_env (@orchestrate echo_env 0) 1 finish_heap 0 0 done_state VUndefined VUndefined =
    mkRun Completed (setParams finish_heap 0 (VRef 0) VUndefined)
      (set_currentNodeId st' VUndefined) [0].
Proof.
  eexists. eapply (@loop_completes_without_successor echo_env).
  - reflexivity.
  - reflexivity.
  - intros s. discriminate.
  - reflexivity.
  - vm_compute. reflexivity.
  - vm_compute. discriminate.
  - reflexivity.
  - reflexivity.
Defined.

Lemma loop_follows_edge_to_new_clone_witness :
  exists h3 nc st2,
    @loop echo_env (@orchestrate echo_env 0) 1 (fst (converted empty_heap finishing_flow)) 2 0
      empty_state VUndefined VUndefined =
    prepend [0] (@loop echo_env (@orchestrate echo_env 0) 0 h3 2 3 st2 VUndefined VUndefined) /\
    nodes h3 !! 3 = Some nc /\
    kind nc = FinishNode.
Proof.
  edestruct (@loop_follows_edge_to_new_clone echo_env (@orchestrate echo_env 0) 0
               (fst (converted empty_heap finishing_flow)) 2 0 empty_state VUndefined VUndefined)
    as (h3 & nc & Hloop & Hnc & _ & _ & _ & Hk & _).
  - vm_compute. reflexivity.
  - vm_compute. reflexivity.
  - intros s. discriminate.
  - vm_compute. reflexivity.
  - vm_compute. reflexivity.
  - vm_compute. discriminate.
  - vm_compute. reflexivity.
  - vm_compute. reflexivity.
  - discriminate.
  - vm_compute. reflexivity.
  - vm_compute. by eexists.
  - eexists h3, nc, _. split; [exact Hloop|]. split; [exact Hnc | exact Hk].
Defined.

Lemma nested_pause_is_not_passed_on_witness :
  let inner := @orchestrate failing_env 3 (setParams nested_heap 1 (VRef 1) VUndefined) 1
                 empty_state (VRef 1) VUndefined in
  let outer := @loop failing_env (@orchestrate failing_env 3) 1 nested_heap 2 1 empty_state
                 VUndefined VUndefined in
  outcome inner = Paused /\
  currentNodeId (final_state inner) = VStr "B" /\
  outcome outer = Completed /\
  currentNodeId (final_state outer) = VUndefined /\
  trace outer = [1; 3].
Proof.
  intros inner outer.
  assert (H : outer =
              mkRun Completed (final_heap inner)
                (set_currentNodeId (final_state inner) VUndefined) (1 :: trace inner)).
  { eapply (@nested_pause_is_not_passed_on failing_env).
    - reflexivity.
    - reflexivity.
    - reflexivity.
    - reflexivity.
    - reflexivity.
    - vm_compute. reflexivity.
    - vm_compute. discriminate.
    - vm_compute. reflexivity.
    - vm_compute. reflexivity.
    - reflexivity. }
  rewrite H. vm_compute. repeat split.
Defined.

(** ** A new run leaves the graph as it is *)

Lemma new_run_leaves_graph_untouched_witness :
  let h := fst (converted empty_heap pausing_flow) in
  let r := @orchestrate failing_env 5 h 2 empty_state VUndefined VUndefined in
  nodes (final_heap r) !! 0 = nodes h !! 0 /\
  nodes (final_heap r) !! 1 = nodes h !! 1 /\
  Forall (fun c => 3 <= c) (trace r).
Proof.
  intros h r.
  edestruct (@new_run_leaves_graph_untouched failing_env 5 h 2 empty_state VUndefined VUndefined)
    as (Hn & _ & _ & Htr).
  - vm_compute. reflexivity.
  - vm_compute. reflexivity.
  - reflexivity.
  - vm_compute. reflexivity.
  - reflexivity.
  - reflexivity.
  - split; [apply Hn; vm_compute; lia|]. split; [apply Hn; vm_compute; lia|]. exact Htr.
Defined.

(** ** The graph builder *)

Lemma convert_rejects_unknown_node_type_witness :
  convert empty_heap
    (mkReactFlow "bad"
       ([mkFlowNode "A" "start" (VStr "Start") VUndefined] ++
        mkFlowNode "X" "loop" (VStr "Loop") VUndefined :: [])
       [mkEdge "e1" "A" "X"])
  = Some (Throw (new_Error "Unknown node type: loop")).
Proof.
  destruct (@convert_rejects_unknown_node_type failing_env empty_heap "bad"
              [mkFlowNode "A" "start" (VStr "Start") VUndefined]
              (mkFlowNode "X" "loop" (VStr "Loop") VUndefined) []
              [mkEdge "e1" "A" "X"]) as [H _].
  - repeat constructor. discriminate.
  - reflexivity.
  - exact H.
Defined.

Lemma convert_skips_dangling_edges_witness :
  convert empty_heap
    (mkReactFlow "pausing" (rf_nodes pausing_flow)
       ([mkEdge "e1" "A" "B"] ++ mkEdge "e9" "A" "Z" :: []))
  = convert empty_heap (mkReactFlow "pausing" (rf_nodes pausing_flow) ([mkEdge "e1" "A" "B"] ++ [])).
Proof.
  apply convert_skips_dangling_edges. right. simpl. intros [H|[H|[]]]; discriminate H.
Defined.

Lemma convert_registers_node_parameters_witness :
  exists h' flow fl table params ps,
    convert process_props_heap process_flow = Some (Ok (h', flow)) /\
    nodes h' !! flow = Some fl /\
    opt_prop h' (flow_params fl) "nodeParams" = VRef table /\
    opt_prop h' (VRef table) "P" = VRef params /\
    objs h' !! params = Some (PObject ps) /\
    obj_get "id" ps = VStr "P".
Proof.
  eassert (Hc : convert process_props_heap process_flow = Some (Ok (_, _)))
    by (vm_compute; reflexivity).
  destruct (convert_registers_node_parameters process_props_heap process_flow _ _
              (mkFlowNode "P" "process" (VStr "Writer") (VRef 0)) Hc)
    as (fl & table & params & ps & _ & _ & Hfl & Ht & Hp & Hps & Hid & _).
  - simpl. tauto.
  - eexists _, _, fl, table, params, ps. split; [exact Hc|]. split; [exact Hfl|].
    split; [exact Ht|]. split; [exact Hp|]. split; [exact Hps | exact Hid].
Defined.

(** ** The run facade *)

Lemma executeFlow_unknown_flow_witness :
  @executeFlow failing_env 3 empty_heap "missing" empty_state =
  Rejects (new_Error "Flow not found: missing") empty_heap empty_state.
Proof.
  apply (@executeFlow_unknown_flow failing_env). vm_compute. repeat constructor; discriminate.
Defined.

(** ** Tool calls *)

Lemma processToolCall_reports_errors_witness :
  processToolCall parse_any empty_tool (mkToolCallRequest "call_1" "search" "{}") =
    [mkParam "tool" (Some "call_1") "Error: Invalid tool name format: search"] /\
  processToolCall parse_any empty_tool (mkToolCallRequest "call_2" "_-_-_web_-_-_search" "{}") =
    [mkParam "tool" (Some "call_2") "{}"; tool_result_note].
Proof.
  split.
  - destruct (processToolCall_reports_errors parse_any empty_tool
                (mkToolCallRequest "call_1" "search" "{}")) as (_ & Hname & _).
    apply (Hname "{}"); [reflexivity|]. vm_compute. lia.
  - destruct (processToolCall_reports_errors parse_any empty_tool
                (mkToolCallRequest "call_2" "_-_-_web_-_-_search" "{}")) as (_ & _ & Hcall).
    apply (Hcall "{}" "" "web" "search"); reflexivity.
Defined.

(** ** The rate limiter *)

Lemma checkRateLimit_window_bound_witness :
  accepted "10.0.0.1"
    (fst (check_requests [] [(5, "10.0.0.1"); (7, "10.0.0.2"); (59999, "10.0.0.1")]%Z)) = 2 /\
  accepted "10.0.0.1"
    (fst (check_requests [("10.0.0.1", mkRequestCount 5999 60000)]
            [(60000, "10.0.0.1"); (60000, "10.0.0.1"); (60001, "10.0.0.1");
             (60002, "10.0.0.1")]%Z)) <= Z.to_nat (2 * RATE_LIMIT - 1) /\
  accepted "10.0.0.1"
    (fst (check_requests [("10.0.0.1", mkRequestCount 1 60000)]
            (repeat (60000%Z, "10.0.0.1") (Z.to_nat 5999) ++
             repeat (60001%Z, "10.0.0.1") (Z.to_nat 6001)))) = Z.to_nat 11999.
Proof.
  destruct (checkRateLimit_window_bound "10.0.0.1" 0%Z) as (Hfresh & _ & _).
  destruct (checkRateLimit_window_bound "10.0.0.1" 1%Z) as (_ & _ & Hbound & _ & _ & Hreached).
  split; [|split].
  - rewrite (Hfresh _ []).
    + reflexivity.
    + reflexivity.
    + repeat constructor; cbn; (discriminate || reflexivity).
  - apply (Hbound _ _ (mkRequestCount 5999 60000)).
    + reflexivity.
    + cbn. lia.
    + repeat constructor; cbn; reflexivity.
  - exact Hreached.
Defined.

Lemma checkRateLimit_counts_bounded_witness :
  checkRateLimit exhausted_counts 59999 "10.0.0.1" = (false, exhausted_counts).
Proof.
  destruct checkRateLimit_counts_bounded as [_ Hrefused].
  destruct (Hrefused exhausted_counts 59999%Z "10.0.0.1") as [Hsame _]; [reflexivity|].
  rewrite <- Hsame at 2. reflexivity.
Defined.

(** ** Suspension and the resume position *)

Lemma loop_suspends_witness :
  exists h' st',
    @loop failing_env (@orchestrate failing_env 0) 1 (fst (converted empty_heap pausing_flow))
      2 1 empty_state VUndefined VUndefined
    = mkRun Paused h' st' [1].
Proof.
  eexists _, _. eapply (@loop_suspends failing_env).
  - vm_compute. reflexivity.
  - vm_compute. reflexivity.
  - intros s. discriminate.
  - vm_compute. reflexivity.
  - vm_compute. reflexivity.
Defined.

Lemma convert_built_flows_never_resume_witness :
  exists h1 s1,
    getStartNode (fst (converted empty_heap pausing_flow)) 2 = Some (h1, s1) /\
    find_entry (fst (converted empty_heap pausing_flow)) 2 (final_state first_run) =
    from_start h1 2.
Proof.
  apply (convert_built_flows_never_resume [] pausing_flow).
  - vm_compute. reflexivity.
  - vm_compute. reflexivity.
Defined.
